(** * Memory & semantic retrieval engine: shallow embedding and verification

    The development follows the TypeScript sources
      app/lib/memory/semantic-search.ts   (class SemanticSearch)
      app/lib/memory/context-analyzer.ts  (class ContextAnalyzer)
      app/lib/memory/manager.ts           (classes MemoryManager, MemoryPersistence)

    Conventions of the embedding.
    - A JavaScript [number] that carries a measurement (importance, score,
      vector component) is an IEEE-754 binary64 value: Rocq's primitive
      [float], whose operations are the ones the JavaScript engine performs.
    - A [number] that is a counter or a millisecond timestamp ([accessCount],
      [createdAt], [lastAccessed], [Date.now()]) is an integer [Z].  A
      timestamp read back from the storage can be any integer; [new Date] of
      it is a valid date only within 8,640,000,000,000,000 ms of the epoch
      ([Date_valid]).  What [Date.now()] returns is always within that
      range: an [Instant].
    - A string is a [string] of 8-bit characters; the case mapping and the
      regular-expression classes [\w] and [\s] are the ASCII ones.
    - A [Map] whose iteration order is observed is an association list in
      insertion order ([JsMap]); a [Map] that is only looked up is a [gmap].
    - Objects held by reference are named by their key in [_memories].
    - What the host provides ([Math.log], [JSON.stringify], [Date], the
      regular-expression extractors of the analyzer, the storage backend of
      the persistence layer) is the interface [Host]. *)

From Stdlib Require Import ZArith Ascii String Floats.PrimFloat Uint63 Reals Lra.
From stdpp Require Import base list gmap strings pretty.

(* decimal literals denote the nearest binary64, as in JavaScript *)
#[local] Set Warnings "-inexact-float,-clear-no-such-hyp".

#[local] Open Scope string_scope.
#[local] Open Scope list_scope.
#[local] Open Scope Z_scope.

(** ** JavaScript string primitives (ASCII) *)
Module Js.

Definition charCodeAt (c : ascii) : Z := Z.of_nat (nat_of_ascii c).

Definition is_upper (c : ascii) : bool :=
  (65 <=? charCodeAt c) && (charCodeAt c <=? 90).

Definition lower_char (c : ascii) : ascii :=
  if is_upper c then ascii_of_nat (nat_of_ascii c + 32) else c.

(** [String.prototype.toLowerCase] *)
Fixpoint toLowerCase (s : string) : string :=
  match s with
  | EmptyString => EmptyString
  | String c r => String (lower_char c) (toLowerCase r)
  end.

(** the class [\s]: tab, line feed, vertical tab, form feed, carriage
    return, space *)
Definition is_space (c : ascii) : bool :=
  ((9 <=? charCodeAt c) && (charCodeAt c <=? 13)) || (charCodeAt c =? 32).

(** the class [\w]: letters, digits, underscore *)
Definition is_word (c : ascii) : bool :=
  let n := charCodeAt c in
  ((48 <=? n) && (n <=? 57)) || ((65 <=? n) && (n <=? 90))
  || ((97 <=? n) && (n <=? 122)) || (n =? 95).

(** [s.replace(/[^\w\s]/g, ' ')] *)
Fixpoint replace_nonword (s : string) : string :=
  match s with
  | EmptyString => EmptyString
  | String c r =>
      String (if is_word c || is_space c then c else " "%char) (replace_nonword r)
  end.

(** [s.split(/\s+/)]: [cur] is the piece being read, [in_ws] tells that the
    previous character belonged to a separator.  The empty string gives
    one empty piece; a leading or trailing separator gives an empty piece. *)
Fixpoint split_go (s : string) (cur : string) (in_ws : bool) : list string :=
  match s with
  | EmptyString => [cur]
  | String c r =>
      if is_space c then
        if in_ws then split_go r cur true
        else cur :: split_go r EmptyString true
      else split_go r (cur +:+ String c EmptyString) false
  end.

Definition split_ws (s : string) : list string := split_go s EmptyString false.

(** [s.includes(t)] *)
Fixpoint includes (s t : string) : bool :=
  String.prefix t s ||
  match s with
  | EmptyString => false
  | String _ r => includes r t
  end.

(** [arr.includes(x)] on an array of strings *)
Definition arr_includes (l : list string) (x : string) : bool :=
  bool_decide (x ∈ l).

(** [ToInt32]: wrap-around to a signed 32-bit integer, as [x & x] does *)
Definition toInt32 (z : Z) : Z := (z + 2^31) mod 2^32 - 2^31.

(** [x << 5] on a 32-bit integer *)
Definition shl5 (z : Z) : Z := toInt32 (toInt32 z * 32).

(** an integer [number] as a binary64 *)
Definition num (z : Z) : float :=
  if z <? 0 then PrimFloat.opp (PrimFloat.of_uint63 (Uint63.of_Z (- z)))
  else PrimFloat.of_uint63 (Uint63.of_Z z).

(** [[...new Set(l)]]: first occurrences, in order *)
Fixpoint dedup_go (seen : list string) (l : list string) : list string :=
  match l with
  | [] => []
  | x :: r => if arr_includes seen x then dedup_go seen r
              else x :: dedup_go (seen ++ [x]) r
  end.

Definition set_spread (l : list string) : list string := dedup_go [] l.

(** [arr.slice(0, n)] for an integer [n]: a negative [n] counts from the end *)
Definition slice0 {A} (l : list A) (n : Z) : list A :=
  if n <? 0 then take (Z.to_nat (Z.of_nat (length l) + n)) l
  else take (Z.to_nat n) l.

(** [arr.sort(cmp)]: a stable sort; [x] goes before the first [y] that the
    comparator puts strictly after it *)
Fixpoint sort_insert {A} (cmp : A → A → float) (x : A) (l : list A) : list A :=
  match l with
  | [] => [x]
  | y :: r => if PrimFloat.ltb (cmp x y) 0 then x :: y :: r
              else y :: sort_insert cmp x r
  end.

Definition sort {A} (cmp : A → A → float) (l : list A) : list A :=
  fold_left (fun acc x => sort_insert cmp x acc) l [].

End Js.

(** ** Insertion-ordered maps with string keys *)
Module JsMap.

Abbreviation t V := (list (string * V)).

Fixpoint get {V} (m : t V) (k : string) : option V :=
  match m with
  | [] => None
  | (k', v) :: r => if String.eqb k' k then Some v else get r k
  end.

Definition has {V} (m : t V) (k : string) : bool :=
  match get m k with Some _ => true | None => false end.

(** [set] keeps the position of a key that is present and appends a new one *)
Fixpoint set {V} (m : t V) (k : string) (v : V) : t V :=
  match m with
  | [] => [(k, v)]
  | (k', v') :: r =>
      if String.eqb k' k then (k', v) :: r else (k', v') :: set r k v
  end.

Fixpoint delete {V} (m : t V) (k : string) : t V :=
  match m with
  | [] => []
  | (k', v') :: r =>
      if String.eqb k' k then r else (k', v') :: delete r k
  end.

Definition keys {V} (m : t V) : list string := map fst m.
Definition values {V} (m : t V) : list V := map snd m.

(** what a [Map] guarantees: no key occurs twice *)
Definition wf {V} (m : t V) : Prop := NoDup (keys m).

End JsMap.

(** ** Data model (types.ts) *)

Inductive MemoryType :=
  | conversation | code_analysis | decision | pattern | context | research.

#[global] Instance MemoryType_eq_dec : EqDecision MemoryType.
Proof. solve_decision. Defined.

(** the string each member of the union is at run time *)
Definition type_key (t : MemoryType) : string :=
  match t with
  | conversation => "conversation"
  | code_analysis => "code-analysis"
  | decision => "decision"
  | pattern => "pattern"
  | context => "context"
  | research => "research"
  end.

Record CodeReference := {
  filePath : string;
  startLine : option Z;
  endLine : option Z;
  functionName : option string;
  className : option string;
  language : string;
  snippet : string
}.

Record ExtractedEntity := {
  entity_type : string;
  entity_name : string;
  entity_context : string;
  entity_confidence : float
}.

Record MemoryMetadata := {
  source : string;
  projectId : option string;
  sessionId : option string;
  userId : option string;
  fileReferences : list string;
  codeReferences : list CodeReference;
  entities : list ExtractedEntity;
  summary : string;
  keywords : list string;
  confidence : float
}.

(** [Partial<MemoryMetadata>]: every field may be absent *)
Record PartialMetadata := {
  p_source : option string;
  p_projectId : option string;
  p_sessionId : option string;
  p_userId : option string;
  p_fileReferences : option (list string);
  p_codeReferences : option (list CodeReference);
  p_entities : option (list ExtractedEntity);
  p_summary : option string;
  p_keywords : option (list string);
  p_confidence : option float
}.

Record MemoryEntry := {
  id : string;
  type : MemoryType;
  content : string;
  metadata : MemoryMetadata;
  embedding : option (list float);
  createdAt : Z;
  updatedAt : Z;
  accessCount : Z;
  lastAccessed : Z;
  importance : float;
  tags : list string;
  relatedEntries : list string
}.

(** [memory.relatedEntries = related] *)
Definition set_relatedEntries (memory : MemoryEntry) (related : list string)
  : MemoryEntry :=
  {| id := id memory; type := type memory; content := content memory;
     metadata := metadata memory; embedding := embedding memory;
     createdAt := createdAt memory; updatedAt := updatedAt memory;
     accessCount := accessCount memory; lastAccessed := lastAccessed memory;
     importance := importance memory; tags := tags memory;
     relatedEntries := related |}.

(** [memory.accessCount++; memory.lastAccessed = Date.now()] *)
Definition touch (now : Z) (memory : MemoryEntry) : MemoryEntry :=
  {| id := id memory; type := type memory; content := content memory;
     metadata := metadata memory; embedding := embedding memory;
     createdAt := createdAt memory; updatedAt := updatedAt memory;
     accessCount := accessCount memory + 1; lastAccessed := now;
     importance := importance memory; tags := tags memory;
     relatedEntries := relatedEntries memory |}.

Record MemoryQuery := {
  q_text : option string;
  q_type : option MemoryType;
  q_tags : option (list string);
  q_projectId : option string;
  q_timeRange : option (Z * Z);
  q_entities : option (list string);
  q_keywords : option (list string);
  q_minImportance : option float;
  q_maxResults : option Z;
  q_includeRelated : bool;
  q_semanticSearch : bool
}.

(** [matchType]: the strings [exact], [semantic], [related], [temporal] *)
Inductive MatchType := Exact | Semantic | Related | Temporal.
#[global] Instance MatchType_eq_dec : EqDecision MatchType.
Proof. solve_decision. Defined.

(** A search result refers to its entry: [entry] is the key under which the
    entry object is held in [_memories]. *)
Record MemorySearchResult := {
  entry : string;
  score : float;
  relevance : float;
  matchType : MatchType;
  highlights : list string
}.

(** ** Time values *)

(** [new Date(t)] is a valid date exactly when [t] is a time value: at most
    100,000,000 days from the epoch.  On any other [t] the date is invalid
    and [toISOString] throws a [RangeError]. *)
Definition Date_valid (t : Z) : bool :=
  (-8640000000000000 <=? t) && (t <=? 8640000000000000).

(** what [Date.now()] returns: a time value *)
Record Instant := { time_of :> Z; time_valid : Date_valid time_of = true }.

(** the instant of a number of milliseconds in range, the epoch otherwise *)
Definition instant (t : Z) : Instant :=
  match Date_valid t as valid return Date_valid t = valid → Instant with
  | true => fun ok => {| time_of := t; time_valid := ok |}
  | false => fun _ => {| time_of := 0; time_valid := eq_refl |}
  end eq_refl.

(** ** Exceptions *)

Definition Error : Type := string.

Inductive Result (A : Type) : Type :=
  | Ok (a : A)
  | Throw (e : Error).
Arguments Ok {A} a.
Arguments Throw {A} e.

(** ** What the host environment provides *)
Class Host := {
  (** [Math.log] *)
  Math_log : float → float;
  (** [JSON.stringify] of a metadata object *)
  JSON_stringify : MemoryMetadata → string;
  (** [new Date(t).toISOString().split('T')[0]] and the local-time getters
      of [new Date(t)], for a time value [t] ([Date_valid]) *)
  Date_isoDay : Z → string;
  Date_getFullYear : Z → Z;
  Date_getDate : Z → Z;
  Date_getMonth : Z → Z;
  (** [content.match(pattern) || []] for the pattern of [KEYWORD_PATTERNS]
      named by the first argument *)
  match_keywords : string → string → list string;
  (** the other extractors of [ContextAnalyzer], which are built on regular
      expressions; [extractEntities] makes a [RegExp] of matched text and
      can throw *)
  extractEntities : string → Result (list ExtractedEntity);
  extractCodeReferences : string → list CodeReference;
  generateSummary : string → string;
  (** the storage backend of [MemoryPersistence] (IndexedDB or localStorage):
      a call changes the storage and may fail with an error *)
  Storage : Type;
  backend_put : MemoryEntry → Storage → Storage * option Error;
  backend_delete : string → Storage → Storage * option Error
}.

(** ** semantic-search.ts *)
Module SemanticSearch.

(** the embedding cache: the key is the decimal rendering of a 32-bit
    hash, which determines and is determined by the hash *)
Abbreviation Cache := (gmap Z (list float)).

Section WithHost.
Context `{Host}.

Definition EMBEDDING_DIMENSION : nat := 384.


Definition stopWords : list string :=
  ["the"; "a"; "an"; "and"; "or"; "but"; "in"; "on"; "at"; "to"; "for"; "of"; "with"; "by";
   "this"; "that"; "these"; "those"; "is"; "are"; "was"; "were"; "be"; "been"; "being";
   "have"; "has"; "had"; "do"; "does"; "did"; "will"; "would"; "could"; "should"; "may";
   "might"; "must"; "can"; "shall"; "it"; "its"; "they"; "them"; "their"; "we"; "us"; "our";
   "you"; "your"; "he"; "him"; "his"; "she"; "her"; "hers"; "me"; "my"; "mine"].

Definition isStopWord (word : string) : bool :=
  Js.arr_includes stopWords (Js.toLowerCase word).

Definition tokenize (text : string) : list string :=
  filter (fun word => negb (isStopWord word))
    (filter (fun word => (2 <? String.length word)%nat)
       (Js.split_ws (Js.replace_nonword (Js.toLowerCase text)))).

Definition computeWordFrequency (words : list string) : JsMap.t Z :=
  fold_left
    (fun freq word => JsMap.set freq word (default 0 (JsMap.get freq word) + 1))
    words [].

Definition getVocabulary : list string :=
  ["function"; "class"; "method"; "variable"; "constant"; "array"; "object"; "string";
   "number"; "boolean"; "null"; "undefined"; "true"; "false"; "if"; "else"; "for";
   "while"; "loop"; "condition"; "return"; "import"; "export"; "module"; "component";
   "react"; "vue"; "angular"; "node"; "javascript"; "typescript"; "python"; "java";
   "api"; "endpoint"; "route"; "controller"; "service"; "model"; "view"; "database";
   "query"; "insert"; "update"; "delete"; "select"; "join"; "table"; "column";
   "authentication"; "authorization"; "security"; "validation"; "error"; "exception";
   "test"; "testing"; "unit"; "integration"; "deployment"; "build"; "compile";
   "performance"; "optimization"; "cache"; "memory"; "storage"; "file"; "directory";
   "configuration"; "environment"; "development"; "production"; "staging"; "debug"].

(** [hash = ((hash << 5) - hash) + char; hash = hash & hash] over the string *)
Fixpoint hash_go (s : string) (hash : Z) : Z :=
  match s with
  | EmptyString => hash
  | String c r => hash_go r (Js.toInt32 (Js.shl5 hash - hash + Js.charCodeAt c))
  end.

Definition hashWordToDimension (word : string) : nat :=
  Z.to_nat (Z.abs (hash_go word 0) mod Z.of_nat EMBEDDING_DIMENSION).

Definition computeTFIDF (word : string) (termFreq totalTerms : Z) : float :=
  let tf := (Js.num termFreq / Js.num totalTerms)%float in
  let idf :=
    if Js.arr_includes getVocabulary word then 1%float
    else Math_log (1000 / (Js.num termFreq + 1))%float in
  (tf * idf)%float.

Definition normalizeVector (vector : list float) : list float :=
  let magnitude :=
    PrimFloat.sqrt (fold_left (fun sum val => (sum + val * val)%float) vector 0%float) in
  if (magnitude =? 0)%float then vector
  else map (fun val => (val / magnitude)%float) vector.

(** [embedding[dimension] += tfidf]; [dimension] is below the length of
    the array (lemma [hashWordToDimension_lt]) *)
Definition add_at (embedding : list float) (dimension : nat) (tfidf : float)
  : list float :=
  match embedding !! dimension with
  | Some v => <[dimension := (v + tfidf)%float]> embedding
  | None => embedding
  end.

Definition computeSimpleEmbedding (text : string) : list float :=
  let words := tokenize text in
  let wordFreq := computeWordFrequency words in
  let embedding :=
    fold_left
      (fun embedding '(word, freq) =>
         let dimension := hashWordToDimension word in
         let tfidf := computeTFIDF word freq (Z.of_nat (length words)) in
         add_at embedding dimension tfidf)
      wordFreq (replicate EMBEDDING_DIMENSION 0%float) in
  normalizeVector embedding.

Definition getCacheKey (text : string) : Z := hash_go text 0.

(** [generateEmbedding]: the cache is read first; a computed vector is
    cached under the key of its text.  The body of the [try] performs no
    operation that throws, so the fallback of the [catch] is never taken. *)
Definition generateEmbedding (text : string) (cache : Cache)
  : list float * Cache :=
  let cacheKey := getCacheKey text in
  match cache !! cacheKey with
  | Some cached => (cached, cache)
  | None =>
      let embedding := computeSimpleEmbedding text in
      (embedding, <[cacheKey := embedding]> cache)
  end.

Definition clearCache (cache : Cache) : Cache := ∅.

(** the loop of [calculateSimilarity]: dot product and the two squared
    magnitudes, accumulated index by index *)
Fixpoint similarity_loop (embedding1 embedding2 : list float)
    (acc : float * float * float) : float * float * float :=
  match embedding1, embedding2 with
  | x :: r1, y :: r2 =>
      let '(dotProduct, magnitude1, magnitude2) := acc in
      similarity_loop r1 r2
        ((dotProduct + x * y)%float,
         (magnitude1 + x * x)%float,
         (magnitude2 + y * y)%float)
  | _, _ => acc
  end.

Definition calculateSimilarity (embedding1 embedding2 : list float) : float :=
  if negb (length embedding1 =? length embedding2)%nat then 0%float
  else
    let '(dotProduct, magnitude1, magnitude2) :=
      similarity_loop embedding1 embedding2 (0, 0, 0)%float in
    let magnitude1 := PrimFloat.sqrt magnitude1 in
    let magnitude2 := PrimFloat.sqrt magnitude2 in
    if (magnitude1 =? 0)%float || (magnitude2 =? 0)%float then 0%float
    else (dotProduct / (magnitude1 * magnitude2))%float.

End WithHost.
End SemanticSearch.

(** ** context-analyzer.ts *)
Module ContextAnalyzer.
Section WithHost.
Context `{Host}.

(** [Math.min] on two numbers that are not NaN *)
Definition Math_min (a b : float) : float := if (a <? b)%float then a else b.

Definition LF : string := String (ascii_of_nat 10) EmptyString.

Definition calculateConfidence (content : string)
    (entities : list ExtractedEntity) (keywords : list string) : float :=
  let confidence := 0.5%float in
  let confidence :=
    if (100 <? String.length content)%nat then (confidence + 0.1)%float else confidence in
  let confidence :=
    if (500 <? String.length content)%nat then (confidence + 0.1)%float else confidence in
  let confidence :=
    (confidence + Math_min (Js.num (Z.of_nat (length entities)) * 0.05) 0.2)%float in
  let confidence :=
    (confidence + Math_min (Js.num (Z.of_nat (length keywords)) * 0.02) 0.1)%float in
  let confidence :=
    if Js.includes content "```" || Js.includes content "`"
    then (confidence + 0.1)%float else confidence in
  let confidence :=
    if Js.includes content (LF +:+ "-") || Js.includes content (LF +:+ "*")
       || Js.includes content (LF +:+ "1.")
    then (confidence + 0.05)%float else confidence in
  Math_min confidence 1.0%float.

Definition stopWords : list string :=
  ["the"; "a"; "an"; "and"; "or"; "but"; "in"; "on"; "at"; "to"; "for"; "of"; "with"; "by";
   "this"; "that"; "these"; "those"; "is"; "are"; "was"; "were"; "be"; "been"; "being";
   "have"; "has"; "had"; "do"; "does"; "did"; "will"; "would"; "could"; "should"; "may";
   "might"; "must"; "can"; "shall"; "it"; "its"; "they"; "them"; "their"; "we"; "us"; "our"].

Definition isStopWord (word : string) : bool :=
  Js.arr_includes stopWords (Js.toLowerCase word).

Definition is_letter (c : ascii) : bool :=
  let n := Js.charCodeAt c in
  ((65 <=? n) && (n <=? 90)) || ((97 <=? n) && (n <=? 122)).

(** [/^[a-zA-Z]+$/.test(word)] *)
Definition all_letters (word : string) : bool :=
  negb (String.eqb word "") && forallb is_letter (list_ascii_of_string word).

(** the keys of [KEYWORD_PATTERNS], in the order of [Object.entries] *)
Definition KEYWORD_PATTERNS : list string := ["action"; "priority"; "status"; "quality"].

Definition extractKeywords (content : string) : list string :=
  let keywords :=
    fold_left
      (fun keywords category =>
         keywords ++ map Js.toLowerCase (match_keywords category content))
      KEYWORD_PATTERNS [] in
  let importantWords :=
    filter (fun word => all_letters word)
      (filter (fun word => negb (isStopWord word))
         (filter (fun word => (3 <? String.length word)%nat)
            (Js.split_ws (Js.toLowerCase content)))) in
  Js.set_spread (keywords ++ importantWords).

(** [x || dflt] on an optional string: absent and empty are falsy *)
Definition or_str (x : option string) (dflt : string) : string :=
  match x with
  | Some s => if String.eqb s "" then dflt else s
  | None => dflt
  end.

(** [x || []] on an optional array: every array is truthy *)
Definition or_nil {A} (x : option (list A)) : list A := default [] x.

Definition analyzeContent (content : string) (existingMetadata : PartialMetadata)
  : Result MemoryMetadata :=
  match extractEntities content with
  | Throw e => Throw e
  | Ok entities =>
      let keywords := extractKeywords content in
      let codeReferences := extractCodeReferences content in
      let summary := generateSummary content in
      let confidence := calculateConfidence content entities keywords in
      Ok {| source := or_str (p_source existingMetadata) "user-input";
            projectId := p_projectId existingMetadata;
            sessionId := p_sessionId existingMetadata;
            userId := p_userId existingMetadata;
            fileReferences := or_nil (p_fileReferences existingMetadata);
            codeReferences :=
              or_nil (p_codeReferences existingMetadata) ++ codeReferences;
            entities := or_nil (p_entities existingMetadata) ++ entities;
            summary := summary;
            keywords :=
              Js.set_spread (or_nil (p_keywords existingMetadata) ++ keywords);
            confidence := confidence |}
  end.

End WithHost.
End ContextAnalyzer.

(** ** manager.ts: MemoryPersistence *)
Module MemoryPersistence.
Section WithHost.
Context `{Host}.

(** [saveMemory]: the backend call is tried; an error is logged and thrown
    again *)
Definition saveMemory (memory : MemoryEntry) (sto : Storage)
  : Storage * Result unit :=
  match backend_put memory sto with
  | (sto', None) => (sto', Ok tt)
  | (sto', Some error) => (sto', Throw error)
  end.

Definition deleteMemory (memoryId : string) (sto : Storage)
  : Storage * Result unit :=
  match backend_delete memoryId sto with
  | (sto', None) => (sto', Ok tt)
  | (sto', Some error) => (sto', Throw error)
  end.

End WithHost.
End MemoryPersistence.

(** ** manager.ts: MemoryManager *)

Record TemporalIndex := {
  byDay : gmap string (list string);
  byWeek : gmap string (list string);
  byMonth : gmap string (list string);
  recent : list string
}.

Record Cluster := { centroid : list float; members : list string }.

Record SemanticIndex := {
  embeddings : gmap string (list float);
  clusters : list Cluster;
  similarityThreshold : float
}.

Record MemoryIndex := {
  byType : gmap string (list string);
  byTag : gmap string (list string);
  byProject : gmap string (list string);
  byEntity : gmap string (list string);
  byKeyword : gmap string (list string);
  temporal : TemporalIndex;
  semanticIdx : SemanticIndex
}.

Record RecentActivity := { created : Z; accessed : Z; updated : Z }.

Record MemoryStats := {
  totalEntries : Z;
  entriesByType : gmap string Z;
  averageImportance : float;
  mostAccessedEntries : list string;
  recentActivity : RecentActivity;
  storageSize : Z;
  indexSize : Z;
  lastOptimized : Z
}.

Module MemoryManager.
Section WithHost.
Context `{Host}.

Record t := {
  _memories : JsMap.t MemoryEntry;
  _index : MemoryIndex;
  _persistence : Storage;
  _semanticSearch : SemanticSearch.Cache;
  _stats : MemoryStats
}.

Definition initializeIndex : MemoryIndex :=
  {| byType := ∅; byTag := ∅; byProject := ∅; byEntity := ∅; byKeyword := ∅;
     temporal := {| byDay := ∅; byWeek := ∅; byMonth := ∅; recent := [] |};
     semanticIdx :=
       {| embeddings := ∅; clusters := []; similarityThreshold := 0.7%float |} |}.

Definition initializeStats (now : Z) : MemoryStats :=
  {| totalEntries := 0; entriesByType := ∅; averageImportance := 0%float;
     mostAccessedEntries := [];
     recentActivity := {| created := 0; accessed := 0; updated := 0 |};
     storageSize := 0; indexSize := 0; lastOptimized := now |}.

(** [if (!map.has(k)) map.set(k, []); map.get(k).push(id)] *)
Definition bucket_push (map : gmap string (list string)) (k id : string)
  : gmap string (list string) :=
  <[k := default [] (map !! k) ++ [id]]> map.

Definition truthy (x : option string) : option string :=
  match x with
  | Some s => if String.eqb s "" then None else Some s
  | None => None
  end.

(** [Math.ceil(d / 7)] on an integer *)
Definition ceil_div7 (d : Z) : Z := - ((- d) / 7).

(** [String(n).padStart(2, '0')] *)
Definition padStart2 (s : string) : string :=
  match String.length s with
  | O => "00"
  | S O => "0" +:+ s
  | _ => s
  end.

Definition entityKey (entity : ExtractedEntity) : string :=
  entity_type entity +:+ ":" +:+ entity_name entity.

Definition dayKey (createdAt : Z) : string := Date_isoDay createdAt.
Definition weekKey (createdAt : Z) : string :=
  pretty (Date_getFullYear createdAt) +:+ "-W"
  +:+ pretty (ceil_div7 (Date_getDate createdAt)).
Definition monthKey (createdAt : Z) : string :=
  pretty (Date_getFullYear createdAt) +:+ "-"
  +:+ padStart2 (pretty (Date_getMonth createdAt + 1)).

(** [recent.unshift(id); if (recent.length > 100) recent = recent.slice(0, 100)] *)
Definition recent_push (recent : list string) (id : string) : list string :=
  let recent := id :: recent in
  if (100 <? length recent)%nat then Js.slice0 recent 100 else recent.

(** [updateIndex]: the index is updated in place, step by step.  The date
    of [createdAt] is read after the five loops over type, tags, project,
    entities and keywords: [toISOString] throws on an invalid date, and the
    buckets filled so far stay as they are. *)
Definition updateIndex (memory : MemoryEntry) (index : MemoryIndex)
  : MemoryIndex * Result unit :=
  let byType := bucket_push (byType index) (type_key (type memory)) (id memory) in
  let byTag :=
    fold_left (fun m tag => bucket_push m tag (id memory)) (tags memory) (byTag index) in
  let byProject :=
    match truthy (projectId (metadata memory)) with
    | Some project => bucket_push (byProject index) project (id memory)
    | None => byProject index
    end in
  let byEntity :=
    fold_left (fun m entity => bucket_push m (entityKey entity) (id memory))
      (entities (metadata memory)) (byEntity index) in
  let byKeyword :=
    fold_left (fun m keyword => bucket_push m keyword (id memory))
      (keywords (metadata memory)) (byKeyword index) in
  if Date_valid (createdAt memory) then
    let tmp := temporal index in
    let temporal :=
      {| byDay := bucket_push (byDay tmp) (dayKey (createdAt memory)) (id memory);
         byWeek := bucket_push (byWeek tmp) (weekKey (createdAt memory)) (id memory);
         byMonth := bucket_push (byMonth tmp) (monthKey (createdAt memory)) (id memory);
         recent := recent_push (recent tmp) (id memory) |} in
    let sem := semanticIdx index in
    let semanticIdx :=
      match embedding memory with
      | Some e =>
          {| embeddings := <[id memory := e]> (embeddings sem);
             clusters := clusters sem;
             similarityThreshold := similarityThreshold sem |}
      | None => sem
      end in
    ({| byType := byType; byTag := byTag; byProject := byProject;
        byEntity := byEntity; byKeyword := byKeyword;
        temporal := temporal; semanticIdx := semanticIdx |}, Ok tt)
  else
    ({| byType := byType; byTag := byTag; byProject := byProject;
        byEntity := byEntity; byKeyword := byKeyword;
        temporal := temporal index; semanticIdx := semanticIdx index |},
     Throw "RangeError").

Definition updateStats (memories : JsMap.t MemoryEntry) (index : MemoryIndex)
    (stats : MemoryStats) : MemoryStats :=
  let size := Z.of_nat (length memories) in
  let importanceSum :=
    fold_left (fun sum memory => (sum + importance memory)%float)
      (JsMap.values memories) 0%float in
  {| totalEntries := size;
     entriesByType := (fun ids : list string => Z.of_nat (length ids)) <$> byType index;
     averageImportance :=
       if 0 <? size then (importanceSum / Js.num size)%float else 0%float;
     mostAccessedEntries :=
       map id
         (Js.slice0
            (Js.sort (fun a b => Js.num (accessCount b - accessCount a))
               (JsMap.values memories)) 10);
     recentActivity := recentActivity stats;
     storageSize := storageSize stats;
     indexSize := indexSize stats;
     lastOptimized := lastOptimized stats |}.

Definition bump_created (stats : MemoryStats) : MemoryStats :=
  let ra := recentActivity stats in
  {| totalEntries := totalEntries stats; entriesByType := entriesByType stats;
     averageImportance := averageImportance stats;
     mostAccessedEntries := mostAccessedEntries stats;
     recentActivity :=
       {| created := created ra + 1; accessed := accessed ra; updated := updated ra |};
     storageSize := storageSize stats; indexSize := indexSize stats;
     lastOptimized := lastOptimized stats |}.

Definition bump_accessed (stats : MemoryStats) : MemoryStats :=
  let ra := recentActivity stats in
  {| totalEntries := totalEntries stats; entriesByType := entriesByType stats;
     averageImportance := averageImportance stats;
     mostAccessedEntries := mostAccessedEntries stats;
     recentActivity :=
       {| created := created ra; accessed := accessed ra + 1; updated := updated ra |};
     storageSize := storageSize stats; indexSize := indexSize stats;
     lastOptimized := lastOptimized stats |}.

Definition set_lastOptimized (now : Z) (stats : MemoryStats) : MemoryStats :=
  {| totalEntries := totalEntries stats; entriesByType := entriesByType stats;
     averageImportance := averageImportance stats;
     mostAccessedEntries := mostAccessedEntries stats;
     recentActivity := recentActivity stats;
     storageSize := storageSize stats; indexSize := indexSize stats;
     lastOptimized := now |}.

(** *** findRelatedMemories *)

Definition sharedEntities (memory existingMemory : MemoryEntry) : list ExtractedEntity :=
  filter
    (fun entity =>
       existsb
         (fun e => String.eqb (entity_name e) (entity_name entity)
                   && String.eqb (entity_type e) (entity_type entity))
         (entities (metadata existingMemory)))
    (entities (metadata memory)).

Definition sharedKeywords (memory existingMemory : MemoryEntry) : list string :=
  filter (fun keyword => Js.arr_includes (keywords (metadata existingMemory)) keyword)
    (keywords (metadata memory)).

(** first loop: entries with a shared entity *)
Definition related_pass1 (memory : MemoryEntry) (memories : JsMap.t MemoryEntry)
    (related : list string) : list string :=
  fold_left
    (fun related '(k, existingMemory) =>
       if String.eqb k (id memory) then related
       else if (0 <? length (sharedEntities memory existingMemory))%nat
            then related ++ [k] else related)
    memories related.

(** second loop: entries not yet related with two shared keywords *)
Definition related_pass2 (memory : MemoryEntry) (memories : JsMap.t MemoryEntry)
    (related : list string) : list string :=
  fold_left
    (fun related '(k, existingMemory) =>
       if String.eqb k (id memory) || Js.arr_includes related k then related
       else if (2 <=? length (sharedKeywords memory existingMemory))%nat
            then related ++ [k] else related)
    memories related.

Definition findRelatedMemories (memory : MemoryEntry) (memories : JsMap.t MemoryEntry)
  : list string :=
  Js.slice0 (related_pass2 memory memories (related_pass1 memory memories [])) 10.

(** *** storeMemory *)

(** [`memory-${now}-${Math.random().toString(36).substr(2, 9)}`]; [rnd] is
    the random suffix *)
Definition memoryId (now : Z) (rnd : string) : string :=
  "memory-" +:+ pretty now +:+ "-" +:+ rnd.

(** the object literal of [storeMemory] *)
Definition newMemory (memoryId : string) (type : MemoryType) (content : string)
    (analyzedMetadata : MemoryMetadata) (embedding : list float)
    (now : Z) (importance : float) : MemoryEntry :=
  {| id := memoryId; type := type; content := content;
     metadata := analyzedMetadata;
     embedding := Some embedding;
     createdAt := now; updatedAt := now;
     accessCount := 0; lastAccessed := now;
     importance := importance;
     tags := keywords analyzedMetadata;
     relatedEntries := [] |}.

(** [storeMemory(type, content, metadata, importance = 0.5)]; [now] is
    what [Date.now()] returns.
    Every key of the analysed metadata is present, so the spread
    [{ source: 'user-input', ..., ...analyzedMetadata }] is the analysed
    metadata, and [analyzedMetadata.keywords || []] is its keyword array.
    The result tells whether the promise is fulfilled or rejected; the
    state is the one left behind in either case. *)
Definition storeMemory (type : MemoryType) (content : string)
    (metadata : PartialMetadata) (importance : option float)
    (now : Instant) (rnd : string) (st : t) : t * Result MemoryEntry :=
  let importance := default 0.5%float importance in
  let memoryId := memoryId now rnd in
  match ContextAnalyzer.analyzeContent content metadata with
  | Throw e => (st, Throw e)
  | Ok analyzedMetadata =>
      let '(embedding, cache) :=
        SemanticSearch.generateEmbedding content (_semanticSearch st) in
      let memory :=
        newMemory memoryId type content analyzedMetadata embedding now importance in
      let memory :=
        set_relatedEntries memory (findRelatedMemories memory (_memories st)) in
      let memories := JsMap.set (_memories st) memoryId memory in
      match updateIndex memory (_index st) with
      | (index, Throw e) =>
          ({| _memories := memories; _index := index;
              _persistence := _persistence st;
              _semanticSearch := cache; _stats := _stats st |}, Throw e)
      | (index, Ok _) =>
          match MemoryPersistence.saveMemory memory (_persistence st) with
          | (sto, Throw e) =>
              ({| _memories := memories; _index := index; _persistence := sto;
                  _semanticSearch := cache; _stats := _stats st |}, Throw e)
          | (sto, Ok _) =>
              ({| _memories := memories; _index := index; _persistence := sto;
                  _semanticSearch := cache;
                  _stats := bump_created (updateStats memories index (_stats st)) |},
               Ok memory)
          end
      end
  end.

(** *** searchMemories *)

(** the two scoring loops of [performTextSearch] for one entry *)
Definition text_score (searchTerms : list string) (memory : MemoryEntry)
  : float * list string :=
  let content := Js.toLowerCase (content memory) in
  let metadata := Js.toLowerCase (JSON_stringify (metadata memory)) in
  let after_terms :=
    fold_left
      (fun '(score, highlights) term =>
         let '(score, highlights) :=
           if Js.includes content term
           then ((score + 1)%float, highlights ++ [term])
           else (score, highlights) in
         if Js.includes metadata term
         then ((score + 0.5)%float, highlights) else (score, highlights))
      searchTerms (0%float, []) in
  fold_left
    (fun '(score, highlights) tag =>
       if existsb (fun term => Js.includes (Js.toLowerCase tag) term) searchTerms
       then ((score + 0.8)%float, highlights ++ [tag])
       else (score, highlights))
    (tags memory) after_terms.

Definition performTextSearch (text : string) (memories : JsMap.t MemoryEntry)
  : list MemorySearchResult :=
  let searchTerms := Js.split_ws (Js.toLowerCase text) in
  let n := Js.num (Z.of_nat (length searchTerms)) in
  fold_left
    (fun results '(k, memory) =>
       let '(score, highlights) := text_score searchTerms memory in
       if (0 <? score)%float
       then results ++ [{| entry := k; score := (score / n)%float;
                           relevance := (score / n)%float;
                           matchType := Exact; highlights := highlights |}]
       else results)
    memories [].

Definition performSemanticSearch (text : string) (st : t)
  : list MemorySearchResult * SemanticSearch.Cache :=
  let '(queryEmbedding, cache) :=
    SemanticSearch.generateEmbedding text (_semanticSearch st) in
  let threshold := similarityThreshold (semanticIdx (_index st)) in
  (fold_left
     (fun results '(k, memory) =>
        match embedding memory with
        | None => results
        | Some e =>
            let similarity := SemanticSearch.calculateSimilarity queryEmbedding e in
            if (threshold <=? similarity)%float
            then results ++ [{| entry := k; score := similarity;
                                relevance := similarity;
                                matchType := Semantic; highlights := [] |}]
            else results
        end)
     (_memories st) [],
   cache).

(** the entry object a result refers to *)
Definition deref (memories : JsMap.t MemoryEntry) (r : MemorySearchResult)
  : option MemoryEntry := JsMap.get memories (entry r).

(** a predicate on [r.entry] *)
Definition on_entry (memories : JsMap.t MemoryEntry) (p : MemoryEntry → bool)
    (r : MemorySearchResult) : bool :=
  match deref memories r with Some e => p e | None => false end.

(** the inner loop of [getRelatedMemories] for one result *)
Definition related_of_result (memories : JsMap.t MemoryEntry)
    (result : MemorySearchResult)
    (acc : list MemorySearchResult * list string)
  : list MemorySearchResult * list string :=
  fold_left
    (fun '(relatedResults, processedIds) relatedId =>
       if Js.arr_includes processedIds relatedId
       then (relatedResults, processedIds)
       else match JsMap.get memories relatedId with
            | Some relatedMemory =>
                (relatedResults ++
                   [{| entry := relatedId;
                       score := (score result * 0.7)%float;
                       relevance := (relevance result * 0.7)%float;
                       matchType := Related; highlights := [] |}],
                 processedIds ++ [relatedId])
            | None => (relatedResults, processedIds)
            end)
    (default [] (relatedEntries <$> deref memories result)) acc.

Definition getRelatedMemories (memories : JsMap.t MemoryEntry)
    (results : list MemorySearchResult) : list MemorySearchResult :=
  let processedIds := omap (fun r => id <$> deref memories r) results in
  fst (fold_left (fun acc result => related_of_result memories result acc)
         results ([], processedIds)).

(** [score * entry.importance] *)
Definition rank (memories : JsMap.t MemoryEntry) (r : MemorySearchResult) : float :=
  (score r * default PrimFloat.nan (importance <$> deref memories r))%float.

(** the chain of [filter] calls of [searchMemories] *)
Definition apply_filters (query : MemoryQuery) (memories : JsMap.t MemoryEntry)
    (results : list MemorySearchResult) : list MemorySearchResult :=
  let filteredResults := results in
  let filteredResults :=
    match q_type query with
    | Some ty =>
        filter (on_entry memories (fun e => bool_decide (type e = ty))) filteredResults
    | None => filteredResults
    end in
  let filteredResults :=
    match q_tags query with
    | Some (tag :: more) =>
        filter
          (on_entry memories
             (fun e => existsb (fun tag => Js.arr_includes (tags e) tag) (tag :: more)))
          filteredResults
    | _ => filteredResults
    end in
  let filteredResults :=
    match truthy (q_projectId query) with
    | Some project =>
        filter
          (on_entry memories
             (fun e => bool_decide (projectId (metadata e) = Some project)))
          filteredResults
    | None => filteredResults
    end in
  let filteredResults :=
    match q_timeRange query with
    | Some (start, end_) =>
        filter
          (on_entry memories
             (fun e => (start <=? createdAt e) && (createdAt e <=? end_)))
          filteredResults
    | None => filteredResults
    end in
  match q_minImportance query with
  | Some minImportance =>
      filter (on_entry memories (fun e => (minImportance <=? importance e)%float))
        filteredResults
  | None => filteredResults
  end.

(** [query.maxResults || 20] *)
Definition maxResults (query : MemoryQuery) : Z :=
  match q_maxResults query with
  | Some n => if n =? 0 then 20 else n
  | None => 20
  end.

(** one step of the final [forEach]: the entry object is updated in place *)
Definition touch_entry (now : Z) (memories : JsMap.t MemoryEntry) (k : string)
  : JsMap.t MemoryEntry :=
  match JsMap.get memories k with
  | Some memory => JsMap.set memories k (touch now memory)
  | None => memories
  end.

Definition update_access (now : Z) (results : list MemorySearchResult)
    (memories : JsMap.t MemoryEntry) : JsMap.t MemoryEntry :=
  fold_left (fun memories result => touch_entry now memories (entry result))
    results memories.

Definition searchMemories (query : MemoryQuery) (now : Z) (st : t)
  : t * list MemorySearchResult :=
  let memories := _memories st in
  let text := truthy (q_text query) in
  let results :=
    match text with
    | Some text => performTextSearch text memories
    | None => []
    end in
  let '(results, cache) :=
    match q_semanticSearch query, text with
    | true, Some text =>
        let '(semanticResults, cache) := performSemanticSearch text st in
        (results ++ semanticResults, cache)
    | _, _ => (results, _semanticSearch st)
    end in
  let filteredResults := apply_filters query memories results in
  let filteredResults :=
    Js.sort (fun a b => (rank memories b - rank memories a)%float) filteredResults in
  let filteredResults := Js.slice0 filteredResults (maxResults query) in
  let filteredResults :=
    if q_includeRelated query
    then filteredResults ++ getRelatedMemories memories filteredResults
    else filteredResults in
  ({| _memories := update_access now filteredResults memories;
      _index := _index st;
      _persistence := _persistence st;
      _semanticSearch := cache;
      _stats := fold_left (fun stats _ => bump_accessed stats)
                  filteredResults (_stats st) |},
   filteredResults).

(** *** getMemory *)
Definition getMemory (k : string) (now : Z) (st : t) : t * option MemoryEntry :=
  match JsMap.get (_memories st) k with
  | Some memory =>
      ({| _memories := JsMap.set (_memories st) k (touch now memory);
          _index := _index st;
          _persistence := _persistence st;
          _semanticSearch := _semanticSearch st;
          _stats := bump_accessed (_stats st) |},
       Some (touch now memory))
  | None => (st, None)
  end.

(** *** optimizeMemory *)

Definition cutoffDate (now : Z) : Z := now - 30 * 24 * 60 * 60 * 1000.

(** the test that marks an entry for removal *)
Definition evictable (now : Z) (memory : MemoryEntry) : bool :=
  (importance memory <? 0.3)%float
  && (lastAccessed memory <? cutoffDate now)
  && (accessCount memory <? 3).

Definition toRemove (now : Z) (memories : JsMap.t MemoryEntry) : list string :=
  fold_left
    (fun toRemove '(k, memory) =>
       if evictable now memory then toRemove ++ [k] else toRemove)
    memories [].

(** the removal loop: the table first, then the awaited delete of the
    persistence layer, whose failure ends the loop and the call *)
Fixpoint remove_loop (ids : list string) (memories : JsMap.t MemoryEntry)
    (sto : Storage) : JsMap.t MemoryEntry * Storage * Result unit :=
  match ids with
  | [] => (memories, sto, Ok tt)
  | k :: rest =>
      let memories := JsMap.delete memories k in
      match MemoryPersistence.deleteMemory k sto with
      | (sto, Throw e) => (memories, sto, Throw e)
      | (sto, Ok _) => remove_loop rest memories sto
      end
  end.

(** the loop of the rebuild over the values of the table; a throw of
    [updateIndex] leaves it, with the index as far as it was built *)
Fixpoint rebuild_loop (values : list MemoryEntry) (index : MemoryIndex)
  : MemoryIndex * Result unit :=
  match values with
  | [] => (index, Ok tt)
  | memory :: rest =>
      match updateIndex memory index with
      | (index, Throw e) => (index, Throw e)
      | (index, Ok _) => rebuild_loop rest index
      end
  end.

(** [this._index = this.initializeIndex(); for (memory of values) updateIndex(memory)] *)
Definition rebuildIndex (memories : JsMap.t MemoryEntry) : MemoryIndex * Result unit :=
  rebuild_loop (JsMap.values memories) initializeIndex.

(** [optimizeMemory]; [now] is what [Date.now()] returns.  Nothing is
    caught: a failed delete and a throw of the rebuild reject the call
    where they occur. *)
Definition optimizeMemory (now : Z) (st : t) : t * Result unit :=
  match remove_loop (toRemove now (_memories st)) (_memories st) (_persistence st) with
  | (memories, sto, Throw e) =>
      ({| _memories := memories; _index := _index st; _persistence := sto;
          _semanticSearch := _semanticSearch st; _stats := _stats st |},
       Throw e)
  | (memories, sto, Ok _) =>
      match rebuildIndex memories with
      | (index, Throw e) =>
          ({| _memories := memories; _index := index; _persistence := sto;
              _semanticSearch := _semanticSearch st; _stats := _stats st |},
           Throw e)
      | (index, Ok _) =>
          ({| _memories := memories; _index := index; _persistence := sto;
              _semanticSearch := _semanticSearch st;
              _stats := set_lastOptimized now (updateStats memories index (_stats st)) |},
           Ok tt)
      end
  end.

(** *** construction and loadMemories *)

(** the loop of [loadMemories] over what the persistence layer returned:
    an entry is put in the table, then indexed; a throw of [updateIndex]
    leaves the loop *)
Fixpoint load_entries (loaded : list MemoryEntry) (memories : JsMap.t MemoryEntry)
    (index : MemoryIndex) : JsMap.t MemoryEntry * MemoryIndex * Result unit :=
  match loaded with
  | [] => (memories, index, Ok tt)
  | memory :: rest =>
      let memories := JsMap.set memories (id memory) memory in
      match updateIndex memory index with
      | (index, Throw e) => (memories, index, Throw e)
      | (index, Ok _) => load_entries rest memories index
      end
  end.

(** [loadMemories], given what the persistence layer returned: the
    statistics are refreshed after the loop; an error is caught and
    logged, and what the loop had done by then stays *)
Definition loadMemories (loaded : list MemoryEntry) (st : t) : t :=
  match load_entries loaded (_memories st) (_index st) with
  | (memories, index, Ok _) =>
      {| _memories := memories; _index := index; _persistence := _persistence st;
         _semanticSearch := _semanticSearch st;
         _stats := updateStats memories index (_stats st) |}
  | (memories, index, Throw _) =>
      {| _memories := memories; _index := index; _persistence := _persistence st;
         _semanticSearch := _semanticSearch st;
         _stats := _stats st |}
  end.

Definition init (sto : Storage) (now : Z) : t :=
  {| _memories := []; _index := initializeIndex; _persistence := sto;
     _semanticSearch := ∅; _stats := initializeStats now |}.

End WithHost.
End MemoryManager.

(** ** A concrete host, for running the model *)
Module Sample.

(** a storage that keeps what it is given while it is online and fails
    with the same error while it is not *)
Record Store := { online : bool; items : list string }.

Definition put (memory : MemoryEntry) (s : Store) : Store * option Error :=
  if online s
  then ({| online := true; items := items s ++ [id memory] |}, None)
  else (s, Some "QuotaExceededError").

Definition del (k : string) (s : Store) : Store * option Error :=
  if online s
  then ({| online := true; items := filter (fun i => negb (String.eqb i k)) (items s) |},
        None)
  else (s, Some "InvalidStateError").

(** no keyword pattern matches and no entity is extracted; the
    serialisation of a metadata object shows its summary; every instant
    is rendered as the first day of 1970 *)
#[local] Instance host : Host := {
  Math_log := fun x => x;
  JSON_stringify := fun m => "{" +:+ summary m +:+ "}";
  Date_isoDay := fun _ => "1970-01-01";
  Date_getFullYear := fun _ => 1970;
  Date_getDate := fun _ => 1;
  Date_getMonth := fun _ => 0;
  match_keywords := fun _ _ => [];
  extractEntities := fun _ => Ok [];
  extractCodeReferences := fun _ => [];
  generateSummary := fun content => content;
  Storage := Store;
  backend_put := put;
  backend_delete := del
}.

Definition noMetadata : PartialMetadata :=
  {| p_source := None; p_projectId := None; p_sessionId := None; p_userId := None;
     p_fileReferences := None; p_codeReferences := None; p_entities := None;
     p_summary := None; p_keywords := None; p_confidence := None |}.

Definition meta (kw : list string) : MemoryMetadata :=
  {| source := "user-input"; projectId := None; sessionId := None; userId := None;
     fileReferences := []; codeReferences := []; entities := [];
     summary := ""; keywords := kw; confidence := 1%float |}.

(** an entry with the given bookkeeping fields *)
Definition mk (k : string) (ty : MemoryType) (text : string) (imp : float)
    (count last : Z) (tgs : list string) : MemoryEntry :=
  {| id := k; type := ty; content := text; metadata := meta tgs;
     embedding := None; createdAt := 0; updatedAt := 0;
     accessCount := count; lastAccessed := last; importance := imp;
     tags := tgs; relatedEntries := [] |}.

(** an entry with the given tags and no keyword in its metadata *)
Definition mkTagged (k : string) (text : string) (tgs : list string) : MemoryEntry :=
  {| id := k; type := pattern; content := text; metadata := meta [];
     embedding := None; createdAt := 0; updatedAt := 0;
     accessCount := 0; lastAccessed := 0; importance := 0.5%float;
     tags := tgs; relatedEntries := [] |}.

Definition query (text : string) (sem rel : bool) : MemoryQuery :=
  {| q_text := Some text; q_type := None; q_tags := None; q_projectId := None;
     q_timeRange := None; q_entities := None; q_keywords := None;
     q_minImportance := None; q_maxResults := None;
     q_includeRelated := rel; q_semanticSearch := sem |}.

Definition day : Z := 24 * 60 * 60 * 1000.

(** the three entries of the eviction scenario, at time [40 * day]:
    high importance; low importance, never accessed; often accessed *)
Definition scenario : JsMap.t MemoryEntry :=
  [("m1", mk "m1" research "notes" 0.9 0 0 []);
   ("m2", mk "m2" conversation "chat" 0.1 0 0 []);
   ("m3", mk "m3" code_analysis "code" 0.5 5 0 [])].

Definition manager (memories : JsMap.t MemoryEntry) : MemoryManager.t :=
  {| MemoryManager._memories := memories;
     MemoryManager._index := (MemoryManager.rebuildIndex memories).1;
     MemoryManager._persistence := {| online := true; items := JsMap.keys memories |};
     MemoryManager._semanticSearch := ∅;
     MemoryManager._stats := MemoryManager.initializeStats 0 |}.

(** the manager as constructed, over an empty online storage *)
Definition fresh : MemoryManager.t :=
  MemoryManager.init (H := host) {| online := true; items := [] |} 0.

Definition ent (ty name : string) : ExtractedEntity :=
  {| entity_type := ty; entity_name := name; entity_context := "";
     entity_confidence := 1%float |}.

(** an entry with the given entities and keywords *)
Definition mkRel (k : string) (ents : list ExtractedEntity) (kw : list string)
  : MemoryEntry :=
  {| id := k; type := context; content := "";
     metadata :=
       {| source := "user-input"; projectId := None; sessionId := None;
          userId := None; fileReferences := []; codeReferences := [];
          entities := ents; summary := ""; keywords := kw; confidence := 1%float |};
     embedding := None; createdAt := 0; updatedAt := 0;
     accessCount := 0; lastAccessed := 0; importance := 0.5%float;
     tags := kw; relatedEntries := [] |}.

(** three entries: three keywords; one entity; one keyword *)
Definition library : JsMap.t MemoryEntry :=
  [("k1", mkRel "k1" [] ["react"; "hooks"; "state"]);
   ("k2", mkRel "k2" [ent "technology" "React"] []);
   ("k3", mkRel "k3" [] ["react"])].

(** the manager over a storage that is offline *)
Definition offline : MemoryManager.t :=
  MemoryManager.init (H := host) {| online := false; items := [] |} 0.

Definition withKeywords (kw : list string) : PartialMetadata :=
  {| p_source := None; p_projectId := None; p_sessionId := None; p_userId := None;
     p_fileReferences := None; p_codeReferences := None; p_entities := None;
     p_summary := None; p_keywords := Some kw; p_confidence := None |}.

(** an entry created one millisecond after the last time value *)
Definition far : MemoryEntry :=
  {| id := "far"; type := context; content := "far"; metadata := meta ["late"];
     embedding := None; createdAt := 8640000000000001; updatedAt := 0;
     accessCount := 0; lastAccessed := 0; importance := 0.5%float;
     tags := ["late"]; relatedEntries := [] |}.

(** what a storage returns that holds it between two ordinary entries *)
Definition batch : list MemoryEntry :=
  [mk "ok1" research "one" 0.5 0 0 ["x"]; far; mk "ok2" research "two" 0.5 0 0 ["x"]].


End Sample.

(** ** Notions used by the statements *)
Module Spec.
Section WithHost.
Context `{Host}.
Import MemoryManager.

(** the table invariant of the manager: every entry is held under its id *)
Definition keyed (memories : JsMap.t MemoryEntry) : Prop :=
  ∀ k memory, (k, memory) ∈ memories → id memory = k.

(** the rebuild of [optimizeMemory] (the index is discarded and
    [updateIndex] replayed over the table) as a step of its own: the state
    it leaves, whether it runs to its end or not *)
Definition rebuild (st : t) : t :=
  {| _memories := _memories st;
     _index := (rebuildIndex (_memories st)).1;
     _persistence := _persistence st;
     _semanticSearch := _semanticSearch st;
     _stats := _stats st |}.

(** two bucket maps with the same keys and the same members under each key *)
Definition same_buckets (m1 m2 : gmap string (list string)) : Prop :=
  dom m1 = dom m2
  ∧ ∀ key i, i ∈ default [] (m1 !! key) ↔ i ∈ default [] (m2 !! key).

Definition same_index (i1 i2 : MemoryIndex) : Prop :=
  same_buckets (byType i1) (byType i2)
  ∧ same_buckets (byTag i1) (byTag i2)
  ∧ same_buckets (byProject i1) (byProject i2)
  ∧ same_buckets (byEntity i1) (byEntity i2)
  ∧ same_buckets (byKeyword i1) (byKeyword i2)
  ∧ same_buckets (byDay (temporal i1)) (byDay (temporal i2))
  ∧ same_buckets (byWeek (temporal i1)) (byWeek (temporal i2))
  ∧ same_buckets (byMonth (temporal i1)) (byMonth (temporal i2))
  ∧ (∀ i, i ∈ recent (temporal i1) ↔ i ∈ recent (temporal i2))
  ∧ embeddings (semanticIdx i1) = embeddings (semanticIdx i2).

(** the entry object [storeMemory] creates once the analysis has returned
    [analyzedMetadata]: the object literal, then its related entries *)
Definition stored (type : MemoryType) (content : string)
    (analyzedMetadata : MemoryMetadata) (importance : option float)
    (now : Instant) (rnd : string) (st : t) : MemoryEntry :=
  let embedding :=
    (SemanticSearch.generateEmbedding content (_semanticSearch st)).1 in
  let memory :=
    newMemory (memoryId now rnd) type content analyzedMetadata embedding now
      (default 0.5%float importance) in
  set_relatedEntries memory (findRelatedMemories memory (_memories st)).

(** the new entry and an existing one share an entity: some entity of the
    new entry has the name and the type of some entity of the existing one *)
Definition shares_entity (memory existingMemory : MemoryEntry) : Prop :=
  Exists
    (fun entity =>
       Exists
         (fun e => entity_name e = entity_name entity
                   ∧ entity_type e = entity_type entity)
         (entities (metadata existingMemory)))
    (entities (metadata memory)).

#[global] Instance shares_entity_dec memory existingMemory :
  Decision (shares_entity memory existingMemory).
Proof. unfold shares_entity. apply _. Defined.

(** the keywords of the new entry that the existing one has too *)
Definition shared_keywords (memory existingMemory : MemoryEntry) : list string :=
  filter (fun keyword => keyword ∈ keywords (metadata existingMemory))
    (keywords (metadata memory)).

(** first pass of the relation finder: the other entries sharing an entity *)
Definition entity_matches (memory : MemoryEntry) (memories : JsMap.t MemoryEntry)
  : JsMap.t MemoryEntry :=
  filter (fun p => p.1 ≠ id memory ∧ shares_entity memory p.2) memories.

(** second pass: the other entries not found by the first that share two keywords *)
Definition keyword_matches (memory : MemoryEntry) (memories : JsMap.t MemoryEntry)
  : JsMap.t MemoryEntry :=
  filter
    (fun p => p.1 ≠ id memory ∧ ¬ shares_entity memory p.2
              ∧ (2 ≤ length (shared_keywords memory p.2))%nat)
    memories.

(** a number between -1 and 1; NaN is not *)
Definition in_unit_range (x : float) : bool :=
  ((-1 <=? x) && (x <=? 1))%float.

(** the squared magnitude as [calculateSimilarity] accumulates it *)
Definition sum_squares (v : list float) : float :=
  fold_left (fun sum val => (sum + val * val)%float) v 0%float.

(** the dot product as [calculateSimilarity] accumulates it, over the
    indices that both vectors have *)
Definition dot_product (v w : list float) : float :=
  fold_left (fun sum '(x, y) => (sum + x * y)%float) (zip v w) 0%float.

(** the arithmetic that [calculateSimilarity] is written over: the number
    0, the sum, the product, the quotient, the square root and the test
    [=== 0] *)
Record Arithmetic (N : Type) := {
  num_zero : N;
  num_add : N → N → N;
  num_mul : N → N → N;
  num_div : N → N → N;
  num_sqrt : N → N;
  num_is_zero : N → bool
}.
Arguments num_zero {N}.
Arguments num_add {N}.
Arguments num_mul {N}.
Arguments num_div {N}.
Arguments num_sqrt {N}.
Arguments num_is_zero {N}.

(** the code of [calculateSimilarity], line by line, over any arithmetic *)
Fixpoint similarity_loop_over {N} (ar : Arithmetic N) (embedding1 embedding2 : list N)
    (acc : N * N * N) : N * N * N :=
  match embedding1, embedding2 with
  | x :: r1, y :: r2 =>
      let '(dotProduct, magnitude1, magnitude2) := acc in
      similarity_loop_over ar r1 r2
        (num_add ar dotProduct (num_mul ar x y),
         num_add ar magnitude1 (num_mul ar x x),
         num_add ar magnitude2 (num_mul ar y y))
  | _, _ => acc
  end.

Definition similarity_over {N} (ar : Arithmetic N) (embedding1 embedding2 : list N) : N :=
  if negb (length embedding1 =? length embedding2)%nat then num_zero ar
  else
    let '(dotProduct, magnitude1, magnitude2) :=
      similarity_loop_over ar embedding1 embedding2
        (num_zero ar, num_zero ar, num_zero ar) in
    let magnitude1 := num_sqrt ar magnitude1 in
    let magnitude2 := num_sqrt ar magnitude2 in
    if num_is_zero ar magnitude1 || num_is_zero ar magnitude2 then num_zero ar
    else num_div ar dotProduct (num_mul ar magnitude1 magnitude2).

(** the arithmetic of JavaScript numbers: binary64, rounded to nearest *)
Definition doubles : Arithmetic float :=
  {| num_zero := 0%float; num_add := PrimFloat.add; num_mul := PrimFloat.mul;
     num_div := PrimFloat.div; num_sqrt := PrimFloat.sqrt;
     num_is_zero := fun x => (x =? 0)%float |}.

(** the arithmetic of the real numbers *)
Definition reals : Arithmetic R :=
  {| num_zero := 0%R; num_add := Rplus; num_mul := Rmult;
     num_div := Rdiv; num_sqrt := sqrt;
     num_is_zero := fun x => if Req_dec_T x 0 then true else false |}.

(** [calculateSimilarity] in exact arithmetic: the same loop and the same
    tests over the real numbers *)
Fixpoint similarity_loop_exact (embedding1 embedding2 : list R) (acc : R * R * R)
  : R * R * R :=
  match embedding1, embedding2 with
  | x :: r1, y :: r2 =>
      let '(dotProduct, magnitude1, magnitude2) := acc in
      similarity_loop_exact r1 r2
        ((dotProduct + x * y)%R, (magnitude1 + x * x)%R, (magnitude2 + y * y)%R)
  | _, _ => acc
  end.

Definition calculateSimilarity_exact (embedding1 embedding2 : list R) : R :=
  if negb (length embedding1 =? length embedding2)%nat then 0%R
  else
    let '(dotProduct, magnitude1, magnitude2) :=
      similarity_loop_exact embedding1 embedding2 (0, 0, 0)%R in
    let magnitude1 := sqrt magnitude1 in
    let magnitude2 := sqrt magnitude2 in
    if Req_dec_T magnitude1 0 then 0%R
    else if Req_dec_T magnitude2 0 then 0%R
    else (dotProduct / (magnitude1 * magnitude2))%R.

(** a cache as the engine builds it holds vectors of the embedding dimension *)
Definition cache_ok (cache : SemanticSearch.Cache) : Prop :=
  ∀ key v, cache !! key = Some v → length v = SemanticSearch.EMBEDDING_DIMENSION.

(** the cache after embedding each of a list of texts in turn *)
Definition embed_all (texts : list string) (cache : SemanticSearch.Cache)
  : SemanticSearch.Cache :=
  fold_left (fun cache text => (SemanticSearch.generateEmbedding text cache).2)
    texts cache.

(** the sum of a list of contributions, added from left to right to [s] *)
Definition sum_from (s : float) (l : list float) : float :=
  fold_left (fun s x => (s + x)%float) l s.

(** what each search term contributes to the text score of an entry:
    1 when the lower-cased content contains it, then 0.5 when the lower-cased
    serialised metadata contains it *)
Definition term_contributions (content metadata : string) (searchTerms : list string)
  : list float :=
  concat
    (map (fun term =>
            (if Js.includes content term then [1%float] else [])
            ++ (if Js.includes metadata term then [0.5%float] else []))
       searchTerms).

(** a tag matches when it contains one of the search terms *)
Definition tag_matches (searchTerms : list string) (tag : string) : bool :=
  existsb (fun term => Js.includes (Js.toLowerCase tag) term) searchTerms.

(** what the tags contribute: 0.8 for each matching tag, once per tag *)
Definition tag_contributions (searchTerms tags : list string) : list float :=
  concat (map (fun tag => if tag_matches searchTerms tag then [0.8%float] else []) tags).

Definition score_amended (searchTerms : list string) (memory : MemoryEntry) : float :=
  sum_from 0%float
    (term_contributions (Js.toLowerCase (content memory))
       (Js.toLowerCase (JSON_stringify (metadata memory))) searchTerms
     ++ tag_contributions searchTerms (tags memory)).

Definition highlights_amended (searchTerms : list string) (memory : MemoryEntry)
  : list string :=
  filter (fun term => Js.includes (Js.toLowerCase (content memory)) term) searchTerms
  ++ filter (fun tag => tag_matches searchTerms tag) (tags memory).

(** the result of the text search for one entry of the table, if any *)
Definition text_result (searchTerms : list string) (p : string * MemoryEntry)
  : option MemorySearchResult :=
  let s := score_amended searchTerms p.2 in
  let n := Js.num (Z.of_nat (length searchTerms)) in
  if (0 <? s)%float
  then Some {| entry := p.1; score := (s / n)%float; relevance := (s / n)%float;
               matchType := Exact;
               highlights := highlights_amended searchTerms p.2 |}
  else None.

(** the score as the claim words it: for each term, 1 for the content, 0.5
    for the metadata, and 0.8 for every tag that contains that term *)
Definition score_claimed (searchTerms : list string) (memory : MemoryEntry) : float :=
  sum_from 0%float
    (concat
       (map (fun term =>
               (if Js.includes (Js.toLowerCase (content memory)) term
                then [1%float] else [])
               ++ (if Js.includes (Js.toLowerCase (JSON_stringify (metadata memory))) term
                   then [0.5%float] else [])
               ++ concat
                    (map (fun tag =>
                            if Js.includes (Js.toLowerCase tag) term
                            then [0.8%float] else [])
                       (tags memory)))
          searchTerms)).

(** two entry objects that differ at most in their access bookkeeping *)
Definition same_but_access (memory memory' : MemoryEntry) : Prop :=
  id memory' = id memory ∧ type memory' = type memory
  ∧ content memory' = content memory ∧ metadata memory' = metadata memory
  ∧ embedding memory' = embedding memory
  ∧ createdAt memory' = createdAt memory ∧ updatedAt memory' = updatedAt memory
  ∧ importance memory' = importance memory ∧ tags memory' = tags memory
  ∧ relatedEntries memory' = relatedEntries memory.

(** the result of the semantic search for one entry of the table, if any *)
Definition semantic_result (threshold : float) (queryEmbedding : list float)
    (p : string * MemoryEntry) : option MemorySearchResult :=
  match embedding p.2 with
  | None => None
  | Some e =>
      let similarity := SemanticSearch.calculateSimilarity queryEmbedding e in
      if (threshold <=? similarity)%float
      then Some {| entry := p.1; score := similarity; relevance := similarity;
                   matchType := Semantic; highlights := [] |}
      else None
  end.

(** how many of the results refer to the entry held under [k] *)
Definition count_refs (k : string) (results : list MemorySearchResult) : nat :=
  length (filter (fun r => entry r = k) results).

(** the results of the text and the semantic search, before the filters *)
Definition matched (query : MemoryQuery) (st : t) : list MemorySearchResult :=
  match truthy (q_text query) with
  | Some text =>
      performTextSearch text (_memories st)
      ++ (if q_semanticSearch query then (performSemanticSearch text st).1 else [])
  | None => []
  end.

(** the results after filtering, sorting and truncation *)
Definition ranked (query : MemoryQuery) (st : t) : list MemorySearchResult :=
  Js.slice0
    (Js.sort (fun a b => (rank (_memories st) b - rank (_memories st) a)%float)
       (apply_filters query (_memories st) (matched query st)))
    (maxResults query).

(** the invariant of the loop of [calculateSimilarity_exact]: the
    Cauchy-Schwarz inequality for the part of the vectors read so far *)
Definition cs_inv (acc : R * R * R) : Prop :=
  let '(d, m1, m2) := acc in (0 <= m1 ∧ 0 <= m2 ∧ d * d <= m1 * m2)%R.

(** the invariant of the two loops of [getRelatedMemories]: the processed
    ids are the initial ones followed by the related ones found so far,
    which are distinct, new, and entries of the table *)
Definition related_inv (m : JsMap.t MemoryEntry) (processed0 : list string)
    (acc : list MemorySearchResult * list string) : Prop :=
  acc.2 = processed0 ++ map entry acc.1
  ∧ NoDup (map entry acc.1)
  ∧ Forall (fun r => (entry r ∉ processed0) ∧ matchType r = Related
                     ∧ is_Some (JsMap.get m (entry r))) acc.1.

(** the operations of a history of insertions and lookups *)
Inductive Op :=
| OpLoad (loaded : list MemoryEntry)
| OpStore (type : MemoryType) (content : string) (metadata : PartialMetadata)
    (importance : option float) (now : Instant) (rnd : string)
| OpGet (k : string) (now : Z)
| OpSearch (query : MemoryQuery) (now : Z).

Definition step (op : Op) (st : t) : t :=
  match op with
  | OpLoad loaded => loadMemories loaded st
  | OpStore type content metadata importance now rnd =>
      (storeMemory type content metadata importance now rnd st).1
  | OpGet k now => (getMemory k now st).1
  | OpSearch query now => (searchMemories query now st).1
  end.

Definition run (ops : list Op) (st : t) : t :=
  fold_left (fun st op => step op st) ops st.

(** the entries of a list before the first whose creation time is not a
    time value: the ones a loop of [updateIndex] over the list gets through *)
Fixpoint indexed_prefix (es : list MemoryEntry) : list MemoryEntry :=
  match es with
  | [] => []
  | e :: rest => if Date_valid (createdAt e) then e :: indexed_prefix rest else []
  end.

(** the entries of a list that a loop of [updateIndex] reaches: all up to
    and including the first whose creation time is not a time value *)
Fixpoint reached (es : list MemoryEntry) : list MemoryEntry :=
  match es with
  | [] => []
  | e :: rest => e :: (if Date_valid (createdAt e) then reached rest else [])
  end.

(** every creation time in a list of entries is a time value *)
Definition dated (es : list MemoryEntry) : bool :=
  forallb (fun e => Date_valid (createdAt e)) es.

(** the ids an operation inserts, oldest first: a store inserts its new id
    unless the analysis throws before anything is created; a load inserts
    the ids of the entries it gets through *)
Definition inserted_by (op : Op) : list string :=
  match op with
  | OpLoad loaded => map id (indexed_prefix loaded)
  | OpStore _ content metadata _ now rnd =>
      match ContextAnalyzer.analyzeContent content metadata with
      | Ok _ => [memoryId now rnd]
      | Throw _ => []
      end
  | OpGet _ _ | OpSearch _ _ => []
  end.

Definition inserted (ops : list Op) : list string :=
  concat (map inserted_by ops).

End WithHost.
End Spec.

(** ** Notions used by the further properties *)
Module Notions.
Section WithHost.
Context `{Host}.
Import MemoryManager.

(** filing, for each entry in turn, its id under each of the keys [keys_of]
    gives for it: the shape of every bucket map that [updateIndex] maintains *)
Definition file_all (keys_of : MemoryEntry → list string) (es : list MemoryEntry)
    (m : gmap string (list string)) : gmap string (list string) :=
  fold_left
    (fun m e => fold_left (fun m k => bucket_push m k (id e)) (keys_of e) m) es m.

(** the keys under which [updateIndex] files an entry in the project index *)
Definition project_keys (memory : MemoryEntry) : list string :=
  match truthy (projectId (metadata memory)) with
  | Some project => [project]
  | None => []
  end.

(** the operations of a history of the manager, the optimisation included *)
Inductive Call :=
| CallLoad (loaded : list MemoryEntry)
| CallStore (type : MemoryType) (content : string) (metadata : PartialMetadata)
    (importance : option float) (now : Instant) (rnd : string)
| CallGet (k : string) (now : Z)
| CallSearch (query : MemoryQuery) (now : Z)
| CallOptimize (now : Z).

Definition call (c : Call) (st : t) : t :=
  match c with
  | CallLoad loaded => loadMemories loaded st
  | CallStore type content metadata importance now rnd =>
      (storeMemory type content metadata importance now rnd st).1
  | CallGet k now => (getMemory k now st).1
  | CallSearch query now => (searchMemories query now st).1
  | CallOptimize now => (optimizeMemory now st).1
  end.

Definition calls (cs : list Call) (st : t) : t :=
  fold_left (fun st c => call c st) cs st.

(** [map.get(key) || []] *)
Definition bucket (m : gmap string (list string)) (key : string) : list string :=
  default [] (m !! key).

(** the keys under which [updateIndex] files an entry, index by index *)
Definition type_keys (memory : MemoryEntry) : list string := [type_key (type memory)].
Definition entity_keys (memory : MemoryEntry) : list string :=
  map entityKey (entities (metadata memory)).
Definition keyword_keys (memory : MemoryEntry) : list string :=
  keywords (metadata memory).
Definition day_keys (memory : MemoryEntry) : list string := [dayKey (createdAt memory)].
Definition week_keys (memory : MemoryEntry) : list string :=
  [weekKey (createdAt memory)].
Definition month_keys (memory : MemoryEntry) : list string :=
  [monthKey (createdAt memory)].

(** the eight bucket maps of the index, each with the keys it files under *)
Definition indexes
  : list ((MemoryIndex → gmap string (list string)) * (MemoryEntry → list string)) :=
  [(byType, type_keys); (byTag, tags); (byProject, project_keys);
   (byEntity, entity_keys); (byKeyword, keyword_keys);
   (fun index => byDay (temporal index), day_keys);
   (fun index => byWeek (temporal index), week_keys);
   (fun index => byMonth (temporal index), month_keys)].

(** the ids filed under [key] by a list of entries, in order: the id of an
    entry once for every occurrence of [key] among its keys *)
Definition filings (keys_of : MemoryEntry → list string) (key : string)
    (es : list MemoryEntry) : list string :=
  flat_map (fun e => map (fun _ => id e) (filter (fun k => k = key) (keys_of e))) es.

(** an entry can be found through every index: its id is in the bucket of
    each of its keys *)
Definition filed (memory : MemoryEntry) (index : MemoryIndex) : Prop :=
  ∀ proj keys_of, (proj, keys_of) ∈ indexes →
    ∀ key, key ∈ keys_of memory → id memory ∈ bucket (proj index) key.

(** the index covers the table *)
Definition indexed (memories : JsMap.t MemoryEntry) (index : MemoryIndex) : Prop :=
  ∀ k memory, (k, memory) ∈ memories → filed memory index.

(** the five bucket maps that [updateIndex] fills before it reads the date
    of creation, and the three it fills after *)
Definition entry_indexes
  : list ((MemoryIndex → gmap string (list string)) * (MemoryEntry → list string)) :=
  [(byType, type_keys); (byTag, tags); (byProject, project_keys);
   (byEntity, entity_keys); (byKeyword, keyword_keys)].
Definition date_indexes
  : list ((MemoryIndex → gmap string (list string)) * (MemoryEntry → list string)) :=
  [(fun index => byDay (temporal index), day_keys);
   (fun index => byWeek (temporal index), week_keys);
   (fun index => byMonth (temporal index), month_keys)].

(** the creation time of every entry of the table is a time value *)
Definition table_dated (memories : JsMap.t MemoryEntry) : Prop :=
  ∀ k memory, (k, memory) ∈ memories → Date_valid (createdAt memory) = true.

(** the creation time of every entry that the loads of a history bring in
    is a time value *)
Definition dated_call (c : Call) : bool :=
  match c with
  | CallLoad loaded => Spec.dated loaded
  | _ => true
  end.
Definition dated_calls (cs : list Call) : bool := forallb dated_call cs.

(** every bucket of the first index is within the same bucket of the second *)
Definition grows (index index' : MemoryIndex) : Prop :=
  ∀ proj keys_of, (proj, keys_of) ∈ indexes →
    ∀ key i, i ∈ bucket (proj index) key → i ∈ bucket (proj index') key.

(** the deletes of a list of keys, sent to the storage one after the other *)
Definition delete_all (ids : list string) (sto : Storage) : Storage :=
  fold_left (fun sto k => (backend_delete k sto).1) ids sto.

End WithHost.

(** the scenario over a storage that has gone offline *)
Definition stranded : MemoryManager.t (H := Sample.host) :=
  MemoryManager.Build_t (H := Sample.host) Sample.scenario
    (MemoryManager.rebuildIndex (H := Sample.host) Sample.scenario).1
    {| Sample.online := false; Sample.items := ["m1"; "m2"; "m3"] |}
    ∅ (MemoryManager.initializeStats 0).

End Notions.


(** ** semantic-search.ts: neighbours and clusters *)
Module SemanticSearchMore.
Import SemanticSearch.

(** [findSimilarEmbeddings(queryEmbedding, candidateEmbeddings, threshold = 0.7,
    maxResults = 10)]; a result is a pair of an id and its similarity *)
Definition findSimilarEmbeddings (queryEmbedding : list float)
    (candidateEmbeddings : JsMap.t (list float))
    (threshold : option float) (maxResults : option Z) : list (string * float) :=
  let threshold := default 0.7%float threshold in
  let maxResults := default 10 maxResults in
  let similarities :=
    fold_left
      (fun similarities '(k, embedding) =>
         let similarity := calculateSimilarity queryEmbedding embedding in
         if (threshold <=? similarity)%float
         then similarities ++ [(k, similarity)] else similarities)
      candidateEmbeddings [] in
  Js.slice0 (Js.sort (fun a b => (b.2 - a.2)%float) similarities) maxResults.

(** the inner loop of the assignment: the index of the first centroid of
    greatest similarity above -1, or 0 *)
Definition bestCluster (centroids : list (list float)) (embedding : list float) : nat :=
  (fold_left
     (fun '(bestCluster, bestSimilarity, i) centroid =>
        let similarity := calculateSimilarity embedding centroid in
        if (bestSimilarity <? similarity)%float
        then (i, similarity, S i) else (bestCluster, bestSimilarity, S i))
     centroids (0%nat, (-1)%float, 0%nat)).1.1.

(** [clusters[bestCluster].members.push(id)]; the member access throws on
    an index that has no cluster *)
Definition push_member (cls : list Cluster) (i : nat) (k : string)
  : Result (list Cluster) :=
  match cls !! i with
  | Some c => Ok (<[i := {| centroid := centroid c; members := members c ++ [k] |}]> cls)
  | None => Throw "TypeError"
  end.

(** the assignment of the points to the clusters of the centroids *)
Definition assign (centroids : list (list float))
    (embeddingArray : list (string * list float)) : Result (list Cluster) :=
  fold_left
    (fun acc '(k, embedding) =>
       match acc with
       | Ok cls => push_member cls (bestCluster centroids embedding) k
       | Throw e => Throw e
       end)
    embeddingArray
    (Ok (map (fun centroid => {| centroid := centroid; members := [] |}) centroids)).

(** [embeddings.find(([id]) => id === memberId)?.[1]] *)
Definition find_embedding (embeddingArray : list (string * list float))
    (memberId : string) : option (list float) :=
  snd <$> List.find (fun p => String.eqb p.1 memberId) embeddingArray.

(** the mean of the members of a cluster, component by component; a
    component that a member lacks reads as [undefined] and gives NaN *)
Definition newCentroid (dimension : nat) (embeddingArray : list (string * list float))
    (mems : list string) : list float :=
  let sum :=
    fold_left
      (fun newCentroid memberId =>
         match find_embedding embeddingArray memberId with
         | Some memberEmbedding =>
             imap (fun j x => (x + default PrimFloat.nan (memberEmbedding !! j))%float)
               newCentroid
         | None => newCentroid
         end)
      mems (replicate dimension 0%float) in
  map (fun x => (x / Js.num (Z.of_nat (length mems)))%float) sum.

(** the update of cluster [i]; both arrays have [k] elements, so the
    index is one of theirs *)
Definition update_one (dimension : nat) (embeddingArray : list (string * list float))
    (st : list (list float) * list Cluster * bool) (i : nat)
  : list (list float) * list Cluster * bool :=
  let '(centroids, cls, converged) := st in
  match centroids !! i, cls !! i with
  | Some old, Some c =>
      match members c with
      | [] => st
      | _ :: _ =>
          let new := newCentroid dimension embeddingArray (members c) in
          let similarity := calculateSimilarity old new in
          (<[i := new]> centroids,
           <[i := {| centroid := new; members := members c |}]> cls,
           if (similarity <? 0.99)%float then false else converged)
      end
  | _, _ => st
  end.

Definition update_centroids (k : nat) (dimension : nat)
    (embeddingArray : list (string * list float))
    (centroids : list (list float)) (cls : list Cluster)
  : list (list float) * list Cluster * bool :=
  fold_left (update_one dimension embeddingArray) (seq 0 k) (centroids, cls, true).

(** the iterations that remain, at most [n]; [cls] is the value of
    [clusters] when the loop is entered *)
Fixpoint iterate (n : nat) (k : nat) (dimension : nat)
    (embeddingArray : list (string * list float))
    (centroids : list (list float)) (cls : list Cluster) : Result (list Cluster) :=
  match n with
  | O => Ok cls
  | S n =>
      match assign centroids embeddingArray with
      | Throw e => Throw e
      | Ok cls =>
          let '(centroids, cls, converged) :=
            update_centroids k dimension embeddingArray centroids cls in
          if converged then Ok cls
          else iterate n k dimension embeddingArray centroids cls
      end
  end.

(** the initial centroids; [random i] is the index that
    [Math.floor(Math.random() * embeddings.length)] gives at draw [i];
    reading the vector of an index without element throws *)
Definition initial_centroids (k : nat) (embeddingArray : list (string * list float))
    (random : nat → nat) : Result (list (list float)) :=
  fold_left
    (fun acc i =>
       match acc with
       | Throw e => Throw e
       | Ok centroids =>
           match embeddingArray !! random i with
           | Some p => Ok (centroids ++ [p.2])
           | None => Throw "TypeError"
           end
       end)
    (seq 0 k) (Ok []).

(** [kMeansClustering(embeddings, k, maxIterations = 100)]; reading the
    dimension of the first vector throws when there is none *)
Definition kMeansClustering (embeddingArray : list (string * list float)) (k : Z)
    (random : nat → nat) : Result (list Cluster) :=
  match embeddingArray with
  | [] => Throw "TypeError"
  | (_, first) :: _ =>
      let dimension := length first in
      match initial_centroids (Z.to_nat k) embeddingArray random with
      | Throw e => Throw e
      | Ok centroids =>
          match iterate 100 (Z.to_nat k) dimension embeddingArray centroids [] with
          | Throw e => Throw e
          | Ok cls =>
              Ok (filter (fun cluster => (0 <? length (members cluster))%nat) cls)
          end
      end
  end.

(** [clusterEmbeddings(embeddings, numClusters = 5)] *)
Definition clusterEmbeddings (embs : JsMap.t (list float)) (numClusters : option Z)
    (random : nat → nat) : Result (list Cluster) :=
  let numClusters := default 5 numClusters in
  let embeddingArray := embs in
  if Z.of_nat (length embeddingArray) <? numClusters
  then Ok (map (fun '(k, embedding) => {| centroid := embedding; members := [k] |})
             embeddingArray)
  else kMeansClustering embeddingArray numClusters random.

End SemanticSearchMore.


(** ** context-analyzer.ts: helpers of the extractors *)
Module ContextAnalyzerMore.

(** the key of [deduplicateEntities]: [`${entity.type}:${entity.name.toLowerCase()}`] *)
Definition dedup_key (entity : ExtractedEntity) : string :=
  entity_type entity +:+ ":" +:+ Js.toLowerCase (entity_name entity).

(** the filter of [deduplicateEntities]; [seen] is the set of keys met *)
Fixpoint dedup_filter (seen : list string) (entities : list ExtractedEntity)
  : list ExtractedEntity :=
  match entities with
  | [] => []
  | entity :: rest =>
      let key := dedup_key entity in
      if Js.arr_includes seen key then dedup_filter seen rest
      else entity :: dedup_filter (seen ++ [key]) rest
  end.

Definition deduplicateEntities (entities : list ExtractedEntity) : list ExtractedEntity :=
  dedup_filter [] entities.

Definition detectLanguage (code : string) : string :=
  if Js.includes code "function" || Js.includes code "const" || Js.includes code "let"
  then "javascript"
  else if Js.includes code "def " || Js.includes code "import "
  then "python"
  else if Js.includes code "public class" || Js.includes code "private "
  then "java"
  else if Js.includes code "fn " || Js.includes code "let mut"
  then "rust"
  else if Js.includes code "func " || Js.includes code "package "
  then "go"
  else "unknown".

End ContextAnalyzerMore.


(** ** manager.ts: the typed front ends of storeMemory *)
Module StoreHelpers.

(** the fields of the context objects of types.ts that the front ends read *)
Record FunctionInfo := { fn_name : string; fn_purpose : string }.
Record ClassInfo := { cls_name : string; cls_purpose : string }.

Record CodeContext := {
  cc_filePath : string;
  cc_language : string;
  cc_framework : option string;
  cc_purpose : string;
  cc_dependencies : list string;
  cc_functions : list FunctionInfo;
  cc_classes : list ClassInfo
}.

Record FileContext := { fc_path : string }.

(** [cv_projectId] is [projectContext.id] *)
Record ConversationContext := {
  cv_chatId : string;
  cv_role : string;
  cv_content : string;
  cv_intent : string;
  cv_entities : list ExtractedEntity;
  cv_codeContext : list CodeContext;
  cv_fileContext : list FileContext;
  cv_projectId : string
}.

Record ResearchFinding := {
  rf_type : string;
  rf_content : string;
  rf_confidence : float
}.

Record ResearchContext := {
  rc_query : string;
  rc_domain : string;
  rc_findings : list ResearchFinding;
  rc_synthesis : string;
  rc_confidence : float
}.

(** [arr.join(sep)] *)
Fixpoint join (sep : string) (l : list string) : string :=
  match l with
  | [] => ""
  | [x] => x
  | x :: r => x +:+ sep +:+ join sep r
  end.

(** [s.split(' ')]: the pieces between single spaces; [cur] is the piece
    being read *)
Fixpoint split_space (s : string) (cur : string) : list string :=
  match s with
  | EmptyString => [cur]
  | String c r =>
      if Ascii.eqb c " "%char then cur :: split_space r EmptyString
      else split_space r (cur +:+ String c EmptyString)
  end.

(** [arr.filter(Boolean)] on strings that may be undefined: the empty
    string and [undefined] are dropped *)
Definition filter_Boolean (l : list (option string)) : list string :=
  omap (fun x => match x with
                 | Some s => if String.eqb s "" then None else Some s
                 | None => None
                 end) l.

Definition LF : string := String (ascii_of_nat 10) EmptyString.

(** the code reference both front ends make of a code context *)
Definition codeReference (c : CodeContext) : CodeReference :=
  {| filePath := cc_filePath c;
     startLine := None; endLine := None;
     functionName := fn_name <$> head (cc_functions c);
     className := cls_name <$> head (cc_classes c);
     language := cc_language c;
     snippet := join ", " (map fn_name (cc_functions c)) |}.

Section WithHost.
Context `{Host}.
Import MemoryManager.

Definition conversationMetadata (context : ConversationContext) : PartialMetadata :=
  {| p_source := Some "chat";
     p_projectId := Some (cv_projectId context);
     p_sessionId := Some (cv_chatId context);
     p_userId := None;
     p_fileReferences := Some (map fc_path (cv_fileContext context));
     p_codeReferences := Some (map codeReference (cv_codeContext context));
     p_entities := Some (cv_entities context);
     p_summary := Some (cv_intent context);
     p_keywords := Some (map entity_name (cv_entities context));
     p_confidence := None |}.

Definition storeConversationContext (context : ConversationContext)
    (now : Instant) (rnd : string) (st : t) : t * Result MemoryEntry :=
  let text := cv_role context +:+ ": " +:+ cv_content context in
  storeMemory conversation text (conversationMetadata context) (Some 0.7%float)
    now rnd st.

Definition codeEntities (analysis : CodeContext) : list ExtractedEntity :=
  map (fun f => {| entity_type := "function"; entity_name := fn_name f;
                   entity_context := fn_purpose f;
                   entity_confidence := 0.9%float |})
    (cc_functions analysis)
  ++ map (fun c => {| entity_type := "function"; entity_name := cls_name c;
                      entity_context := cls_purpose c;
                      entity_confidence := 0.9%float |})
       (cc_classes analysis).

Definition codeMetadata (analysis : CodeContext) : PartialMetadata :=
  {| p_source := Some "code";
     p_projectId := None; p_sessionId := None; p_userId := None;
     p_fileReferences := Some [cc_filePath analysis];
     p_codeReferences := Some [codeReference analysis];
     p_entities := Some (codeEntities analysis);
     p_summary := Some (cc_purpose analysis);
     p_keywords :=
       Some (filter_Boolean
               (Some (cc_language analysis) :: cc_framework analysis
                :: map Some (cc_dependencies analysis)));
     p_confidence := None |}.

Definition storeCodeAnalysis (analysis : CodeContext)
    (now : Instant) (rnd : string) (st : t) : t * Result MemoryEntry :=
  let text :=
    "Code analysis for " +:+ cc_filePath analysis +:+ ": " +:+ cc_purpose analysis in
  storeMemory code_analysis text (codeMetadata analysis) (Some 0.8%float) now rnd st.

Definition researchMetadata (researchContext : ResearchContext) : PartialMetadata :=
  {| p_source := Some "research";
     p_projectId := None; p_sessionId := None; p_userId := None;
     p_fileReferences := None;
     p_codeReferences := None;
     p_entities :=
       Some (map (fun f => {| entity_type := "concept"; entity_name := rf_type f;
                              entity_context := rf_content f;
                              entity_confidence := rf_confidence f |})
               (rc_findings researchContext));
     p_summary := Some (rc_synthesis researchContext);
     p_keywords := Some (split_space (rc_domain researchContext) EmptyString);
     p_confidence := Some (rc_confidence researchContext) |}.

Definition storeResearch (researchContext : ResearchContext)
    (now : Instant) (rnd : string) (st : t) : t * Result MemoryEntry :=
  let text :=
    "Research: " +:+ rc_query researchContext +:+ LF +:+ LF +:+ "Findings:" +:+ LF
    +:+ join LF (map rf_content (rc_findings researchContext)) in
  storeMemory research text (researchMetadata researchContext) (Some (rc_confidence researchContext))
    now rnd st.

End WithHost.
End StoreHelpers.


(** ** manager.ts: MemoryPersistence over localStorage *)
Module LocalStorage.

(** what the browser provides to the localStorage path: [JSON.stringify]
    and [JSON.parse] on the two kinds of values the class stores, and the
    quota of the storage.  The item under the index key is written by this
    class only: its text parses to an array of strings or fails to parse. *)
Class Browser := {
  stringify_memory : MemoryEntry → string;
  parse_memory : string → Result MemoryEntry;
  stringify_ids : list string → string;
  parse_ids : string → Result (list string);
  (** whether a content of the storage is within the quota *)
  fits : gmap string string → bool
}.

Section WithBrowser.
Context `{Browser}.

Definition MEM_FOLDER : string := ".mem".

Definition memoryKey (memoryId : string) : string :=
  MEM_FOLDER +:+ "-memory-" +:+ memoryId.

Definition indexKey : string := MEM_FOLDER +:+ "-index".

(** [localStorage.setItem]: throws when the item does not fit *)
Definition setItem (k v : string) (ls : gmap string string)
  : Result (gmap string string) :=
  if fits (<[k := v]> ls) then Ok (<[k := v]> ls) else Throw "QuotaExceededError".

(** a value read from the storage used as a condition: [null] and the
    empty string are falsy *)
Definition truthy_item (x : option string) : option string :=
  match x with
  | Some s => if String.eqb s "" then None else Some s
  | None => None
  end.

Definition getMemoryIndex (ls : gmap string string) : list string :=
  match truthy_item (ls !! indexKey) with
  | Some indexData =>
      match parse_ids indexData with
      | Ok memoryIndex => memoryIndex
      | Throw _ => []
      end
  | None => []
  end.

Definition saveMemoryToLocalStorage (memory : MemoryEntry) (ls : gmap string string)
  : gmap string string * Result unit :=
  match setItem (memoryKey (id memory)) (stringify_memory memory) ls with
  | Throw error => (ls, Throw error)
  | Ok ls =>
      let memoryIndex := getMemoryIndex ls in
      if Js.arr_includes memoryIndex (id memory) then (ls, Ok tt)
      else
        match setItem indexKey (stringify_ids (memoryIndex ++ [id memory])) ls with
        | Throw error => (ls, Throw error)
        | Ok ls => (ls, Ok tt)
        end
  end.

(** the loop of [loadMemoriesFromLocalStorage]; a parse error leaves it *)
Fixpoint load_loop (memoryIndex : list string) (ls : gmap string string)
    (memories : list MemoryEntry) : Result (list MemoryEntry) :=
  match memoryIndex with
  | [] => Ok memories
  | memoryId :: rest =>
      match truthy_item (ls !! memoryKey memoryId) with
      | Some memoryData =>
          match parse_memory memoryData with
          | Ok memory => load_loop rest ls (memories ++ [memory])
          | Throw error => Throw error
          end
      | None => load_loop rest ls memories
      end
  end.

(** the [catch] returns the empty array *)
Definition loadMemoriesFromLocalStorage (ls : gmap string string) : list MemoryEntry :=
  match load_loop (getMemoryIndex ls) ls [] with
  | Ok memories => memories
  | Throw _ => []
  end.

Definition deleteMemoryFromLocalStorage (memoryId : string) (ls : gmap string string)
  : gmap string string * Result unit :=
  let ls := delete (memoryKey memoryId) ls in
  let memoryIndex := getMemoryIndex ls in
  let updatedIndex := filter (fun i => i ≠ memoryId) memoryIndex in
  match setItem indexKey (stringify_ids updatedIndex) ls with
  | Throw error => (ls, Throw error)
  | Ok ls => (ls, Ok tt)
  end.

Definition clearMemoriesLocalStorage (ls : gmap string string) : gmap string string :=
  let memoryIndex := getMemoryIndex ls in
  let ls :=
    fold_left (fun ls memoryId => delete (memoryKey memoryId) ls) memoryIndex ls in
  delete indexKey ls.

End WithBrowser.

(** a browser for running the model: an index is rendered as its ids, each
    followed by a semicolon, after an opening bracket; an entry is rendered
    as its id and read back as an entry of that id without content; the
    storage holds four items at most *)
Fixpoint sample_pieces (s cur : string) : list string :=
  match s with
  | EmptyString => []
  | String c r =>
      if Ascii.eqb c ";"%char then cur :: sample_pieces r EmptyString
      else sample_pieces r (cur +:+ String c EmptyString)
  end.

Definition sample : Browser := {|
  stringify_memory := fun memory => "#" +:+ id memory;
  parse_memory := fun s =>
    match s with
    | String "#"%char k => Ok (Sample.mk k pattern "" 0.5%float 0 0 [])
    | _ => Throw "SyntaxError"
    end;
  stringify_ids := fun l => "[" +:+ String.concat "" (map (fun i => i +:+ ";") l);
  parse_ids := fun s =>
    match s with
    | String "["%char r => Ok (sample_pieces r EmptyString)
    | _ => Throw "SyntaxError"
    end;
  fits := fun ls => bool_decide (size ls ≤ 4)%nat
|}.

End LocalStorage.


(** ** Notions used by the statements about the localStorage path *)
Module StorageNotions.
Section WithBrowser.
Context `{LocalStorage.Browser}.
Import LocalStorage.

(** the entry that the storage holds for an id, if it holds one that can
    be read *)
Definition held (ls : gmap string string) (memoryId : string) : option MemoryEntry :=
  match truthy_item (ls !! memoryKey memoryId) with
  | Some memoryData =>
      match parse_memory memoryData with
      | Ok memory => Some memory
      | Throw _ => None
      end
  | None => None
  end.

(** the item of an id is there and cannot be parsed *)
Definition corrupt (ls : gmap string string) (memoryId : string) : Prop :=
  ∃ memoryData error,
    truthy_item (ls !! memoryKey memoryId) = Some memoryData
    ∧ parse_memory memoryData = Throw error.

(** an index can be written and read back *)
Definition index_round_trip (memoryIndex : list string) : Prop :=
  stringify_ids memoryIndex ≠ ""
  ∧ parse_ids (stringify_ids memoryIndex) = Ok memoryIndex.

End WithBrowser.
End StorageNotions.


(** * Verification *)

(** ** Facts about insertion-ordered maps *)
Module JsMapFacts.
Section Facts.
Context {V : Type}.
Implicit Types (m : JsMap.t V) (k : string) (v : V).

Lemma get_None m k : JsMap.get m k = None ↔ k ∉ JsMap.keys m.
Proof.
  induction m as [|[k' v'] m IH]; simpl.
  - split; [intros _; apply not_elem_of_nil | done].
  - rewrite not_elem_of_cons. destruct (String.eqb_spec k' k) as [->|Hne].
    + split; [done | intros [? _]; done].
    + rewrite IH. split; [intros ?; split; [congruence | done] | tauto].
Qed.

Lemma get_Some_elem m k v : JsMap.get m k = Some v → (k, v) ∈ m.
Proof.
  induction m as [|[k' v'] m IH]; simpl; [done|].
  destruct (String.eqb_spec k' k) as [->|Hne].
  - intros [= ->]. apply list_elem_of_here.
  - intros Hg. apply list_elem_of_further, IH, Hg.
Qed.

Lemma elem_key m k v : (k, v) ∈ m → k ∈ JsMap.keys m.
Proof. intros Hin. apply (list_elem_of_fmap_2 fst) in Hin. exact Hin. Qed.

Lemma elem_get m k v : JsMap.wf m → (k, v) ∈ m → JsMap.get m k = Some v.
Proof.
  unfold JsMap.wf. induction m as [|[k' v'] m IH]; simpl.
  - intros _ Hin. by apply elem_of_nil in Hin.
  - rewrite NoDup_cons. intros [Hnot Hnd] Hin.
    apply elem_of_cons in Hin as [[= -> ->]|Hin].
    + by rewrite String.eqb_refl.
    + destruct (String.eqb_spec k' k) as [->|Hne]; [|by apply IH].
      exfalso. apply Hnot. eapply elem_key, Hin.
Qed.

Lemma keys_delete_subseteq m k : JsMap.keys (JsMap.delete m k) ⊆ JsMap.keys m.
Proof.
  induction m as [|[k' v'] m IH]; simpl; [done|].
  destruct (String.eqb k' k); simpl.
  - by apply list_subseteq_cons.
  - by apply list_subseteq_skip.
Qed.

Lemma wf_delete m k : JsMap.wf m → JsMap.wf (JsMap.delete m k).
Proof.
  unfold JsMap.wf. induction m as [|[k' v'] m IH]; simpl; [done|].
  rewrite NoDup_cons. intros [Hnot Hnd].
  destruct (String.eqb k' k); simpl; [done|].
  apply NoDup_cons. split; [|by apply IH].
  intros Hin. apply Hnot. eapply keys_delete_subseteq, Hin.
Qed.

Lemma get_delete_eq m k : JsMap.wf m → JsMap.get (JsMap.delete m k) k = None.
Proof.
  unfold JsMap.wf. induction m as [|[k' v'] m IH]; simpl; [done|].
  rewrite NoDup_cons. intros [Hnot Hnd].
  destruct (String.eqb_spec k' k) as [->|Hne].
  - by apply get_None.
  - simpl. destruct (String.eqb_spec k' k); [done|]. by apply IH.
Qed.

Lemma get_delete_ne m k k' :
  k ≠ k' → JsMap.get (JsMap.delete m k') k = JsMap.get m k.
Proof.
  intros Hne. induction m as [|[k0 v0] m IH]; simpl; [done|].
  destruct (String.eqb_spec k0 k') as [->|Hne'].
  - destruct (String.eqb_spec k' k); [congruence | done].
  - simpl. by rewrite IH.
Qed.

Lemma get_set_eq m k v : JsMap.get (JsMap.set m k v) k = Some v.
Proof.
  induction m as [|[k' v'] m IH]; simpl.
  - by rewrite String.eqb_refl.
  - destruct (String.eqb_spec k' k) as [->|Hne]; simpl.
    + by rewrite String.eqb_refl.
    + destruct (String.eqb_spec k' k); [done | apply IH].
Qed.

Lemma get_set_ne m k k' v :
  k ≠ k' → JsMap.get (JsMap.set m k' v) k = JsMap.get m k.
Proof.
  intros Hne. induction m as [|[k0 v0] m IH]; simpl.
  - destruct (String.eqb_spec k' k); [congruence | done].
  - destruct (String.eqb_spec k0 k') as [->|Hne']; simpl.
    + destruct (String.eqb_spec k' k); [congruence | done].
    + by rewrite IH.
Qed.

(** updating the value of a key that is present keeps the keys *)
Lemma keys_set_present m k v :
  k ∈ JsMap.keys m → JsMap.keys (JsMap.set m k v) = JsMap.keys m.
Proof.
  induction m as [|[k' v'] m IH]; simpl.
  - intros Hin. by apply elem_of_nil in Hin.
  - intros Hin. destruct (String.eqb_spec k' k) as [->|Hne]; simpl; [done|].
    f_equal. apply IH. apply elem_of_cons in Hin as [->|Hin]; [done | exact Hin].
Qed.

Lemma keys_set_fresh m k v :
  k ∉ JsMap.keys m → JsMap.keys (JsMap.set m k v) = JsMap.keys m ++ [k].
Proof.
  induction m as [|[k' v'] m IH]; simpl; [done|].
  rewrite not_elem_of_cons. intros [Hne Hnot].
  destruct (String.eqb_spec k' k) as [->|_]; [done|]. simpl. f_equal. by apply IH.
Qed.

Lemma wf_set m k v : JsMap.wf m → JsMap.wf (JsMap.set m k v).
Proof.
  unfold JsMap.wf. intros Hnd.
  destruct (decide (k ∈ JsMap.keys m)) as [Hin|Hnot].
  - by rewrite keys_set_present.
  - rewrite keys_set_fresh by done. apply NoDup_app. split; [done|].
    split; [|apply NoDup_singleton].
    intros x Hx Hx'. apply list_elem_of_singleton in Hx'. by subst.
Qed.

End Facts.
End JsMapFacts.

(** ** The eviction policy of [optimizeMemory] *)
Module Eviction.
Section WithHost.
Context `{Host}.
Import MemoryManager.

Lemma toRemove_acc now (m : JsMap.t MemoryEntry) (acc : list string) :
  fold_left
    (fun toRemove '(k, memory) =>
       if evictable now memory then toRemove ++ [k] else toRemove) m acc
  = acc ++ JsMap.keys (filter (fun p => evictable now p.2) m).
Proof.
  revert acc. induction m as [|[k e] m IH]; intros acc.
  - simpl. by rewrite app_nil_r.
  - cbn [fold_left]. rewrite IH, filter_cons. cbn [snd].
    destruct (evictable now e); simpl.
    + by rewrite <- app_assoc.
    + done.
Qed.

Lemma toRemove_spec now (m : JsMap.t MemoryEntry) :
  toRemove now m = JsMap.keys (filter (fun p => evictable now p.2) m).
Proof. unfold toRemove. by rewrite toRemove_acc. Qed.

(** with distinct keys, a key is marked exactly when its entry passes the test *)
Lemma elem_toRemove now (m : JsMap.t MemoryEntry) k memory :
  JsMap.wf m → JsMap.get m k = Some memory →
  k ∈ toRemove now m ↔ evictable now memory = true.
Proof.
  intros Hwf Hget. rewrite toRemove_spec. unfold JsMap.keys.
  rewrite list_elem_of_fmap. split.
  - intros [[k' e] [-> Hin]]. apply list_elem_of_filter in Hin as [Hev Hin].
    simpl in *. rewrite (JsMapFacts.elem_get _ _ _ Hwf Hin) in Hget.
    injection Hget as <-. by apply Is_true_true.
  - intros Hev. exists (k, memory). split; [done|].
    apply list_elem_of_filter. split; [by apply Is_true_true|].
    by apply JsMapFacts.get_Some_elem.
Qed.

Lemma wf_deletes (ids : list string) (m : JsMap.t MemoryEntry) :
  JsMap.wf m → JsMap.wf (fold_left JsMap.delete ids m).
Proof.
  revert m. induction ids as [|i ids IH]; intros m Hwf; simpl; [done|].
  by apply IH, JsMapFacts.wf_delete.
Qed.

Lemma get_deletes (ids : list string) (m : JsMap.t MemoryEntry) k :
  JsMap.wf m →
  JsMap.get (fold_left JsMap.delete ids m) k
  = if decide (k ∈ ids) then None else JsMap.get m k.
Proof.
  revert m. induction ids as [|i ids IH]; intros m Hwf; simpl.
  - destruct (decide (k ∈ [])) as [Hin|]; [by apply elem_of_nil in Hin | done].
  - rewrite IH by by apply JsMapFacts.wf_delete.
    destruct (decide (k ∈ ids)) as [Hin|Hnot].
    + rewrite decide_True; [done | by apply list_elem_of_further].
    + destruct (decide (k = i)) as [->|Hne].
      * rewrite decide_True by apply list_elem_of_here.
        by apply JsMapFacts.get_delete_eq.
      * rewrite decide_False.
        -- by apply JsMapFacts.get_delete_ne.
        -- rewrite elem_of_cons. tauto.
Qed.

(** what the removal loop has deleted when it stops: the marked keys up
    to the first failing delete, all of them when none fails *)
Lemma remove_loop_deleted (ids : list string) (m : JsMap.t MemoryEntry) sto :
  ∃ deleted,
    deleted ⊆ ids
    ∧ (remove_loop ids m sto).1.1 = fold_left JsMap.delete deleted m
    ∧ ((remove_loop ids m sto).2 = Ok tt → deleted = ids).
Proof.
  revert m sto. induction ids as [|i ids IH]; intros m sto; simpl.
  - exists []. done.
  - unfold MemoryPersistence.deleteMemory.
    destruct (backend_delete i sto) as [sto' [e|]]; simpl.
    + exists [i]. split; [by apply list_subseteq_skip, list_subseteq_nil|].
      split; [done | discriminate].
    + destruct (IH (JsMap.delete m i) sto') as (deleted & Hsub & Heq & Hall).
      exists (i :: deleted). split; [by apply list_subseteq_skip|].
      split; [done|]. intros Hok. by rewrite Hall.
Qed.

(** the removal loop completes when the backend accepts every delete *)
Lemma remove_loop_completes (ids : list string) (m : JsMap.t MemoryEntry) sto :
  (∀ k sto, (backend_delete k sto).2 = None) →
  (remove_loop ids m sto).2 = Ok tt.
Proof.
  intros Hnofail. revert m sto.
  induction ids as [|i ids IH]; intros m sto; simpl; [done|].
  unfold MemoryPersistence.deleteMemory.
  specialize (Hnofail i sto).
  destruct (backend_delete i sto) as [sto' [e|]]; simpl in *; [done | apply IH].
Qed.

(** the table that [optimizeMemory] leaves is the one the removal loop
    leaves; the call fails where the removal loop fails or, after it, where
    the rebuild fails *)
Lemma optimizeMemory_memories now (st : t) :
  let r := remove_loop (toRemove now (_memories st)) (_memories st) (_persistence st) in
  _memories (optimizeMemory now st).1 = r.1.1
  ∧ (optimizeMemory now st).2
    = match r.2 with
      | Throw e => Throw e
      | Ok _ => (rebuildIndex r.1.1).2
      end.
Proof.
  unfold optimizeMemory.
  destruct (remove_loop _ _ _) as [[m' sto'] [[]|e]]; cbn [fst snd]; [|done].
  by destruct (rebuildIndex m') as [index [[]|e]].
Qed.

(** a call that completes has got through both loops *)
Lemma optimizeMemory_Ok_inv now (st : t) :
  (optimizeMemory now st).2 = Ok tt →
  ∃ m sto index,
    remove_loop (toRemove now (_memories st)) (_memories st) (_persistence st)
    = (m, sto, Ok tt)
    ∧ rebuildIndex m = (index, Ok tt)
    ∧ optimizeMemory now st
      = ({| _memories := m; _index := index; _persistence := sto;
            _semanticSearch := _semanticSearch st;
            _stats := set_lastOptimized now (updateStats m index (_stats st)) |},
         Ok tt).
Proof.
  unfold optimizeMemory.
  destruct (remove_loop _ _ _) as [[m sto] [[]|e]]; [|done].
  destruct (rebuildIndex m) as [index [[]|e]] eqn:Hre; [|done].
  intros _. by exists m, sto, index.
Qed.

Lemma optimizeMemory_Ok now (st : t) :
  (optimizeMemory now st).2 = Ok tt →
  (remove_loop (toRemove now (_memories st)) (_memories st) (_persistence st)).2 = Ok tt.
Proof.
  rewrite (proj2 (optimizeMemory_memories now st)).
  by destruct (remove_loop _ _ _) as [[m' sto'] [[]|e]].
Qed.

(** the test is the conjunction of the three comparisons *)
Lemma evictable_true now memory :
  evictable now memory = true ↔
  (importance memory <? 0.3)%float = true
  ∧ lastAccessed memory < now - 30 * 24 * 60 * 60 * 1000
  ∧ accessCount memory < 3.
Proof.
  unfold evictable, cutoffDate. rewrite !andb_true_iff, !Z.ltb_lt. tauto.
Qed.

Lemma evictable_false now memory :
  evictable now memory = false ↔
  (importance memory <? 0.3)%float = false
  ∨ now - 30 * 24 * 60 * 60 * 1000 ≤ lastAccessed memory
  ∨ 3 ≤ accessCount memory.
Proof.
  unfold evictable, cutoffDate. rewrite !andb_false_iff, !Z.ltb_ge. tauto.
Qed.

(** C1: an entry of the table is removed by [optimizeMemory] if and only
    if its importance is below 0.3, its last access is older than the
    cutoff of thirty days before now, and its access count is below 3.
    An entry for which one of the three comparisons fails is retained,
    unchanged, also when a delete of the persistence layer fails; the
    equivalence is that of a call that completes. *)
Theorem optimize_removes_iff now (st : t) k memory :
  JsMap.wf (_memories st) →
  JsMap.get (_memories st) k = Some memory →
  ((importance memory <? 0.3)%float = false
   ∨ now - 30 * 24 * 60 * 60 * 1000 ≤ lastAccessed memory
   ∨ 3 ≤ accessCount memory →
   JsMap.get (_memories (optimizeMemory now st).1) k = Some memory)
  ∧ ((optimizeMemory now st).2 = Ok tt →
     (JsMap.get (_memories (optimizeMemory now st).1) k = None ↔
      (importance memory <? 0.3)%float = true
      ∧ lastAccessed memory < now - 30 * 24 * 60 * 60 * 1000
      ∧ accessCount memory < 3)).
Proof.
  intros Hwf Hget.
  pose proof (optimizeMemory_Ok now st) as Hloop.
  rewrite (proj1 (optimizeMemory_memories now st)).
  destruct (remove_loop_deleted (toRemove now (_memories st)) (_memories st)
              (_persistence st)) as (deleted & Hsub & -> & Hall).
  rewrite get_deletes by done.
  pose proof (elem_toRemove now _ _ _ Hwf Hget) as Hmark.
  split.
  - intros Hfail. apply evictable_false in Hfail.
    rewrite decide_False; [done|].
    intros Hin. apply Hsub, Hmark in Hin. congruence.
  - intros Hok. rewrite (Hall (Hloop Hok)), <- evictable_true, <- Hmark.
    destruct (decide (k ∈ toRemove now (_memories st))); [done|].
    rewrite Hget. split; [discriminate | done].
Qed.

End WithHost.

(** the scenario of three entries: only the second is removed *)
Lemma optimize_removes_iff_witness :
  let st := Sample.manager Sample.scenario in
  let st' := (MemoryManager.optimizeMemory (40 * Sample.day) st).1 in
  JsMap.get (MemoryManager._memories st') "m2" = None
  ∧ JsMap.get (MemoryManager._memories st') "m1"
    = JsMap.get (MemoryManager._memories st) "m1"
  ∧ JsMap.get (MemoryManager._memories st') "m3"
    = JsMap.get (MemoryManager._memories st) "m3".
Proof.
  assert (Hwf : JsMap.wf (MemoryManager._memories (Sample.manager Sample.scenario))).
  { apply (bool_decide_unpack _). vm_compute. exact I. }
  split; [|split].
  - apply (optimize_removes_iff (40 * Sample.day) (Sample.manager Sample.scenario)
             "m2" (Sample.mk "m2" conversation "chat" 0.1 0 0 []) Hwf eq_refl).
    + vm_compute. reflexivity.
    + vm_compute. repeat split.
  - apply (optimize_removes_iff (40 * Sample.day) (Sample.manager Sample.scenario)
             "m1" (Sample.mk "m1" research "notes" 0.9 0 0 []) Hwf eq_refl).
    left. vm_compute. reflexivity.
  - apply (optimize_removes_iff (40 * Sample.day) (Sample.manager Sample.scenario)
             "m3" (Sample.mk "m3" code_analysis "code" 0.5 5 0 []) Hwf eq_refl).
    right. right. vm_compute. discriminate.
Defined.

End Eviction.

(** ** Rebuilding the indexes *)
Module Rebuild.
Section WithHost.
Context `{Host}.
Import MemoryManager Spec.

Lemma same_buckets_refl (m : gmap string (list string)) : same_buckets m m.
Proof. split; [done | intros; done]. Qed.

Lemma same_index_refl (i : MemoryIndex) : same_index i i.
Proof. unfold same_index. repeat split; auto using same_buckets_refl. Qed.

(** the rebuilt index is a function of the table alone *)
Lemma rebuild_index_of_table (st1 st2 : t) :
  _memories st1 = _memories st2 → _index (rebuild st1) = _index (rebuild st2).
Proof. unfold rebuild; simpl. by intros ->. Qed.

(** what survives a list of deletions *)
Lemma elem_deletes (ids : list string) (m : JsMap.t MemoryEntry) k e :
  JsMap.wf m →
  (k, e) ∈ fold_left JsMap.delete ids m → (k, e) ∈ m ∧ k ∉ ids.
Proof.
  intros Hwf Hin.
  pose proof (Eviction.wf_deletes ids m Hwf) as Hwf'.
  pose proof (JsMapFacts.elem_get _ _ _ Hwf' Hin) as Hget.
  rewrite Eviction.get_deletes in Hget by done.
  destruct (decide (k ∈ ids)); [done|].
  split; [by apply JsMapFacts.get_Some_elem | done].
Qed.

(** after a completed optimisation no entry of the table is evictable *)
Lemma toRemove_after now (st : t) :
  JsMap.wf (_memories st) →
  (optimizeMemory now st).2 = Ok tt →
  toRemove now (_memories (optimizeMemory now st).1) = [].
Proof.
  intros Hwf Hok. apply Eviction.optimizeMemory_Ok in Hok.
  rewrite (proj1 (Eviction.optimizeMemory_memories now st)).
  destruct (Eviction.remove_loop_deleted (toRemove now (_memories st)) (_memories st)
              (_persistence st)) as (deleted & _ & -> & Hall).
  rewrite (Hall Hok), Eviction.toRemove_spec.
  destruct (filter _ _) as [|[k e] rest] eqn:Hf; [done|]. exfalso.
  assert (Hin : (k, e) ∈ (k, e) :: rest) by apply list_elem_of_here.
  rewrite <- Hf in Hin. apply list_elem_of_filter in Hin as [Hev Hin].
  apply (elem_deletes _ _ _ _ Hwf) in Hin as [Hin Hnot].
  apply Hnot. apply (Eviction.elem_toRemove now _ k e Hwf).
  - by apply JsMapFacts.elem_get.
  - by apply Is_true_true.
Qed.

(** C3: rebuilding the secondary indexes from the table is idempotent.
    The rebuilt index depends on the table alone, not on the index it
    replaces; the rebuild step run twice leaves the state it left the first
    time, so every bucket has the same members; and a second completed
    [optimizeMemory] at the same instant leaves the table and every index
    of the first unchanged. *)
Theorem rebuild_idempotent now (st : t) :
  JsMap.wf (_memories st) →
  rebuild (rebuild st) = rebuild st
  ∧ same_index (_index (rebuild (rebuild st))) (_index (rebuild st))
  ∧ (∀ st0, _memories st0 = _memories st → _index (rebuild st0) = _index (rebuild st))
  ∧ ((optimizeMemory now st).2 = Ok tt →
     let st1 := (optimizeMemory now st).1 in
     let st2 := (optimizeMemory now st1).1 in
     _index st1 = (rebuildIndex (_memories st1)).1
     ∧ (optimizeMemory now st1).2 = Ok tt
     ∧ _memories st2 = _memories st1
     ∧ _index st2 = _index st1
     ∧ same_index (_index st2) (_index st1)).
Proof.
  intros Hwf. split; [done|]. split; [apply same_index_refl|].
  split; [intros st0; apply rebuild_index_of_table|].
  intros Hok st1 st2.
  pose proof (toRemove_after now st Hwf Hok) as Hnone. fold st1 in Hnone.
  destruct (Eviction.optimizeMemory_Ok_inv now st Hok)
    as (m & sto & index & _ & Hre & Hst1).
  assert (Hm1 : _memories st1 = m) by (subst st1; by rewrite Hst1).
  assert (Hidx1 : _index st1 = index) by (subst st1; by rewrite Hst1).
  assert (Hst2 : optimizeMemory now st1
                 = ({| _memories := m; _index := index;
                       _persistence := _persistence st1;
                       _semanticSearch := _semanticSearch st1;
                       _stats := set_lastOptimized now
                                   (updateStats m index (_stats st1)) |},
                    Ok tt)).
  { unfold optimizeMemory. rewrite Hnone. cbn [remove_loop]. by rewrite Hm1, Hre. }
  subst st2. rewrite Hst2. cbn [fst snd _memories _index].
  rewrite Hm1, Hidx1, Hre.
  repeat split; auto using same_index_refl.
Qed.

End WithHost.

Lemma sample_scenario_wf :
  JsMap.wf (MemoryManager._memories (Sample.manager Sample.scenario)).
Proof. apply (bool_decide_unpack _). vm_compute. exact I. Defined.

(** the scenario: rebuilt twice, and optimised twice at day 40 *)
Lemma rebuild_idempotent_witness :
  let st := Sample.manager Sample.scenario in
  let st1 := (MemoryManager.optimizeMemory (40 * Sample.day) st).1 in
  let st2 := (MemoryManager.optimizeMemory (40 * Sample.day) st1).1 in
  Spec.rebuild (Spec.rebuild st) = Spec.rebuild st
  ∧ MemoryManager._index st2 = MemoryManager._index st1.
Proof.
  destruct (rebuild_idempotent (40 * Sample.day) (Sample.manager Sample.scenario)
              sample_scenario_wf) as (Hstep & _ & _ & Hopt).
  split; [exact Hstep|].
  assert (Hok : (MemoryManager.optimizeMemory (40 * Sample.day)
                   (Sample.manager Sample.scenario)).2 = Ok tt)
    by (vm_compute; reflexivity).
  exact (proj1 (proj2 (proj2 (proj2 (Hopt Hok))))).
Defined.

End Rebuild.

(** ** The list of recent entries *)
Module Recent.
Section WithHost.
Context `{Host}.
Import MemoryManager Spec.

Lemma recent_push_take (l : list string) (i : string) :
  recent_push l i = take 100 (i :: l).
Proof.
  unfold recent_push. destruct (100 <? length (i :: l))%nat eqn:Hlen.
  - reflexivity.
  - apply Nat.ltb_ge in Hlen. symmetry. by apply take_ge.
Qed.

Lemma take_app_take {A} (n : nat) (a b : list A) :
  take n (a ++ take n b) = take n (a ++ b).
Proof.
  rewrite !take_app. f_equal. rewrite take_take. f_equal. lia.
Qed.

(** [updateIndex] throws exactly on an entry whose creation time is not a
    time value *)
Lemma updateIndex_result (memory : MemoryEntry) (index : MemoryIndex) :
  (updateIndex memory index).2
  = if Date_valid (createdAt memory) then Ok tt else Throw "RangeError".
Proof. unfold updateIndex. by destruct (Date_valid _). Qed.

Lemma updateIndex_valid (memory : MemoryEntry) (index : MemoryIndex) :
  Date_valid (createdAt memory) = true →
  updateIndex memory index = ((updateIndex memory index).1, Ok tt).
Proof.
  intros Hv. rewrite (surjective_pairing (updateIndex memory index)) at 1.
  by rewrite updateIndex_result, Hv.
Qed.

Lemma updateIndex_invalid (memory : MemoryEntry) (index : MemoryIndex) :
  Date_valid (createdAt memory) = false →
  updateIndex memory index = ((updateIndex memory index).1, Throw "RangeError").
Proof.
  intros Hv. rewrite (surjective_pairing (updateIndex memory index)) at 1.
  by rewrite updateIndex_result, Hv.
Qed.

Lemma recent_updateIndex (memory : MemoryEntry) (index : MemoryIndex) :
  recent (temporal (updateIndex memory index).1)
  = if Date_valid (createdAt memory)
    then take 100 (id memory :: recent (temporal index))
    else recent (temporal index).
Proof.
  unfold updateIndex. destruct (Date_valid _); [|done]. simpl. apply recent_push_take.
Qed.

Lemma dated_Forall (es : list MemoryEntry) :
  dated es = true ↔ ∀ e, e ∈ es → Date_valid (createdAt e) = true.
Proof.
  unfold dated. rewrite forallb_forall. by setoid_rewrite list_elem_of_In.
Qed.

Lemma dated_false (es : list MemoryEntry) :
  dated es = false ↔ ∃ e, e ∈ es ∧ Date_valid (createdAt e) = false.
Proof.
  induction es as [|e es IH]; cbn [dated forallb].
  - split; [done|]. intros (e & Hin & _). by apply elem_of_nil in Hin.
  - destruct (Date_valid (createdAt e)) eqn:Hv; cbn [andb].
    + unfold dated in IH. rewrite IH. split.
      * intros (x & Hin & Hx). exists x. split; [by apply list_elem_of_further | done].
      * intros (x & Hin & Hx). apply elem_of_cons in Hin as [->|Hin]; [congruence|].
        by exists x.
    + split; [|done]. intros _. exists e. split; [apply list_elem_of_here | done].
Qed.

Lemma dated_reached (es : list MemoryEntry) : dated es = true → reached es = es.
Proof.
  induction es as [|e es IH]; [done|]. cbn [dated forallb reached].
  destruct (Date_valid _); [|done]. cbn [andb]. intros Hd. f_equal. by apply IH.
Qed.

Lemma dated_indexed_prefix (es : list MemoryEntry) :
  dated es = true → indexed_prefix es = es.
Proof.
  induction es as [|e es IH]; [done|]. cbn [dated forallb indexed_prefix].
  destruct (Date_valid _); [|done]. cbn [andb]. intros Hd. f_equal. by apply IH.
Qed.

(** the loop of the rebuild, as far as it gets *)
Lemma rebuild_loop_fold (es : list MemoryEntry) (index : MemoryIndex) :
  rebuild_loop es index
  = (fold_left (fun index memory => (updateIndex memory index).1) (reached es) index,
     if dated es then Ok tt else Throw "RangeError").
Proof.
  revert index. induction es as [|e es IH]; intros index; [done|].
  cbn [rebuild_loop reached dated forallb].
  destruct (Date_valid (createdAt e)) eqn:Hv.
  - rewrite (updateIndex_valid e index Hv), IH. done.
  - by rewrite (updateIndex_invalid e index Hv).
Qed.

(** the loop of a load, as far as it gets *)
Lemma load_entries_fold (loaded : list MemoryEntry) memories (index : MemoryIndex) :
  load_entries loaded memories index
  = (fold_left (fun m e => JsMap.set m (id e) e) (reached loaded) memories,
     fold_left (fun index memory => (updateIndex memory index).1) (reached loaded) index,
     if dated loaded then Ok tt else Throw "RangeError").
Proof.
  revert memories index. induction loaded as [|e loaded IH]; intros memories index; [done|].
  cbn [load_entries reached dated forallb].
  destruct (Date_valid (createdAt e)) eqn:Hv.
  - rewrite (updateIndex_valid e index Hv), IH. done.
  - by rewrite (updateIndex_invalid e index Hv).
Qed.

Lemma stored_createdAt type content analyzed importance (now : Instant) rnd (st : t) :
  createdAt (stored type content analyzed importance now rnd st) = now.
Proof. reflexivity. Qed.

Lemma stored_valid type content analyzed importance (now : Instant) rnd (st : t) :
  Date_valid (createdAt (stored type content analyzed importance now rnd st)) = true.
Proof. rewrite stored_createdAt. apply time_valid. Qed.

Lemma getMemory_index k now (st : t) : _index (getMemory k now st).1 = _index st.
Proof. unfold getMemory. by destruct (JsMap.get _ _). Qed.

Lemma searchMemories_index query now (st : t) :
  _index (searchMemories query now st).1 = _index st.
Proof.
  unfold searchMemories.
  destruct (q_semanticSearch query), (truthy (q_text query)); simpl;
    try destruct (performSemanticSearch _ _); done.
Qed.

Lemma storeMemory_index type content md importance now rnd (st : t) :
  _index (storeMemory type content md importance now rnd st).1
  = match ContextAnalyzer.analyzeContent content md with
    | Ok analyzed =>
        (updateIndex (stored type content analyzed importance now rnd st) (_index st)).1
    | Throw _ => _index st
    end.
Proof.
  unfold storeMemory, stored.
  destruct (ContextAnalyzer.analyzeContent content md) as [analyzed|e]; [|done].
  destruct (SemanticSearch.generateEmbedding _ _) as [emb cache]. cbn [fst].
  destruct (updateIndex _ _) as [index [[]|e]]; [|done].
  by destruct (MemoryPersistence.saveMemory _ _) as [sto [[]|e]].
Qed.

Lemma loadMemories_index (loaded : list MemoryEntry) (st : t) :
  _index (loadMemories loaded st)
  = (load_entries loaded (_memories st) (_index st)).1.2.
Proof. unfold loadMemories. by destruct (load_entries _ _ _) as [[m index] [[]|e]]. Qed.

(** the loop of a load puts in front the ids of the entries it gets through *)
Lemma load_entries_recent (loaded : list MemoryEntry) memories (index : MemoryIndex) :
  (length (recent (temporal index)) ≤ 100)%nat →
  recent (temporal (load_entries loaded memories index).1.2)
  = take 100 (reverse (map id (indexed_prefix loaded)) ++ recent (temporal index)).
Proof.
  revert memories index.
  induction loaded as [|e loaded IH]; intros memories index Hlen;
    cbn [load_entries indexed_prefix].
  - simpl. symmetry. by apply take_ge.
  - pose proof (recent_updateIndex e index) as Hrec.
    destruct (Date_valid (createdAt e)) eqn:Hv.
    + rewrite (updateIndex_valid e index Hv). rewrite IH.
      * rewrite Hrec. cbn [map]. rewrite reverse_cons, <- app_assoc.
        apply take_app_take.
      * rewrite Hrec, length_take. lia.
    + rewrite (updateIndex_invalid e index Hv). cbn [fst snd map reverse app].
      rewrite Hrec. symmetry. by apply take_ge.
Qed.

(** one operation puts the ids it inserts in front, newest first *)
Lemma step_recent (op : Op) (st : t) :
  (length (recent (temporal (_index st))) ≤ 100)%nat →
  recent (temporal (_index (step op st)))
  = take 100 (reverse (inserted_by op) ++ recent (temporal (_index st))).
Proof.
  intros Hlen. destruct op as [loaded|type content metadata importance now rnd|k now|q now];
    simpl.
  - rewrite loadMemories_index. by apply load_entries_recent.
  - rewrite storeMemory_index.
    destruct (ContextAnalyzer.analyzeContent content metadata).
    + by rewrite recent_updateIndex, stored_valid.
    + simpl. symmetry. by apply take_ge.
  - rewrite getMemory_index. symmetry. by apply take_ge.
  - rewrite searchMemories_index. symmetry. by apply take_ge.
Qed.

Lemma run_recent (ops : list Op) (st : t) :
  (length (recent (temporal (_index st))) ≤ 100)%nat →
  recent (temporal (_index (run ops st)))
  = take 100 (reverse (inserted ops) ++ recent (temporal (_index st))).
Proof.
  revert st. induction ops as [|op ops IH]; intros st Hlen.
  - simpl. symmetry. by apply take_ge.
  - unfold run in *. cbn [fold_left]. rewrite IH.
    + rewrite (step_recent op st Hlen). unfold inserted. cbn [map concat].
      rewrite reverse_app, <- app_assoc. apply take_app_take.
    + rewrite (step_recent op st Hlen). rewrite length_take. lia.
Qed.

(** C8: after any history of insertions, lookups and searches, the list of
    recent entries holds at most 100 ids, the newest inserted first: it is
    the first 100 of the ids inserted by the history, in reverse order of
    insertion, followed by the ids it held before.  A lookup or a search
    leaves it, and the whole index, as it was. *)
Theorem recent_newest_first (ops : list Op) (st : t) :
  (length (recent (temporal (_index st))) ≤ 100)%nat →
  recent (temporal (_index (run ops st)))
  = take 100 (reverse (inserted ops) ++ recent (temporal (_index st)))
  ∧ (length (recent (temporal (_index (run ops st)))) ≤ 100)%nat
  ∧ (∀ k now, _index (getMemory k now (run ops st)).1 = _index (run ops st))
  ∧ (∀ query now,
       _index (searchMemories query now (run ops st)).1 = _index (run ops st)).
Proof.
  intros Hlen. split; [by apply run_recent|]. split.
  - rewrite run_recent by done. rewrite length_take. lia.
  - split; intros; [apply getMemory_index | apply searchMemories_index].
Qed.

End WithHost.

(** two stores with a lookup and a search in between *)
Lemma recent_newest_first_witness :
  let ops :=
    [Spec.OpStore conversation "react hooks" Sample.noMetadata None (instant 1) "a";
     Spec.OpGet "memory-1-a" 2;
     Spec.OpSearch (Sample.query "react" false true) 3;
     Spec.OpStore research "react state" Sample.noMetadata None (instant 4) "b"] in
  recent (temporal (MemoryManager._index (Spec.run ops Sample.fresh)))
  = ["memory-4-b"; "memory-1-a"].
Proof.
  intros ops.
  assert (Hlen : (length (recent (temporal (MemoryManager._index Sample.fresh)))
                  ≤ 100)%nat) by (simpl; lia).
  rewrite (proj1 (recent_newest_first ops _ Hlen)).
  vm_compute. reflexivity.
Defined.

End Recent.

(** ** Ingestion: [storeMemory] *)
Module Store.
Section WithHost.
Context `{Host}.
Import MemoryManager Spec.

(** [storeMemory] after a successful analysis, in terms of the entry it creates *)
Lemma storeMemory_analyzed type content md importance now rnd (st : t) analyzed :
  ContextAnalyzer.analyzeContent content md = Ok analyzed →
  let memory := stored type content analyzed importance now rnd st in
  let memories := JsMap.set (_memories st) (memoryId now rnd) memory in
  let index := (updateIndex memory (_index st)).1 in
  let cache := (SemanticSearch.generateEmbedding content (_semanticSearch st)).2 in
  storeMemory type content md importance now rnd st
  = match backend_put memory (_persistence st) with
    | (sto, Some e) =>
        ({| _memories := memories; _index := index; _persistence := sto;
            _semanticSearch := cache; _stats := _stats st |}, Throw e)
    | (sto, None) =>
        ({| _memories := memories; _index := index; _persistence := sto;
            _semanticSearch := cache;
            _stats := bump_created (updateStats memories index (_stats st)) |},
         Ok memory)
    end.
Proof.
  intros Han memory.
  pose proof (Recent.updateIndex_valid memory (_index st)
                (Recent.stored_valid _ _ _ _ _ _ _)) as Hidx.
  revert Hidx. subst memory.
  unfold storeMemory, stored, MemoryPersistence.saveMemory. rewrite Han.
  destruct (SemanticSearch.generateEmbedding _ _) as [emb cache]. cbn [fst snd].
  intros ->. cbn [fst snd].
  destruct (backend_put _ _) as [sto [e|]]; reflexivity.
Qed.

Lemma lookup_bucket_push (m : gmap string (list string)) (k i key : string) :
  default [] (bucket_push m k i !! key)
  = default [] (m !! key) ++ (if decide (key = k) then [i] else []).
Proof.
  unfold bucket_push. rewrite lookup_insert.
  destruct (decide (k = key)) as [->|Hne].
  - by rewrite decide_True.
  - rewrite decide_False by congruence. by rewrite app_nil_r.
Qed.

(** filing an id under each of a list of distinct keys *)
Lemma lookup_bucket_push_all (l : list string) (m : gmap string (list string))
    (i key : string) :
  NoDup l →
  default [] (fold_left (fun m k => bucket_push m k i) l m !! key)
  = default [] (m !! key) ++ (if decide (key ∈ l) then [i] else []).
Proof.
  revert m. induction l as [|k l IH]; intros m Hnd; cbn [fold_left].
  - case_decide as Hin; [by apply elem_of_nil in Hin | by rewrite app_nil_r].
  - apply NoDup_cons in Hnd as [Hnot Hnd].
    rewrite IH, lookup_bucket_push by done. rewrite <- app_assoc. f_equal.
    destruct (decide (key = k)) as [->|Hne].
    + rewrite (decide_False (P := k ∈ l)) by done.
      by rewrite (decide_True (P := k ∈ k :: l)) by apply list_elem_of_here.
    + destruct (decide (key ∈ l)) as [Hin|Hnin].
      * rewrite decide_True; [done | by apply list_elem_of_further].
      * rewrite decide_False; [done|]. rewrite elem_of_cons. tauto.
Qed.

Lemma dedup_go_spec (seen l : list string) :
  NoDup (Js.dedup_go seen l)
  ∧ ∀ x, x ∈ Js.dedup_go seen l ↔ x ∈ l ∧ x ∉ seen.
Proof.
  revert seen. induction l as [|y l IH]; intros seen; simpl.
  - split; [apply NoDup_nil_2|]. intros x. rewrite elem_of_nil. naive_solver.
  - unfold Js.arr_includes. destruct (bool_decide_reflect (y ∈ seen)) as [Hin|Hnot].
    + destruct (IH seen) as [Hnd Hel]. split; [done|].
      intros x. rewrite Hel, elem_of_cons. naive_solver.
    + destruct (IH (seen ++ [y])) as [Hnd Hel]. split.
      * apply NoDup_cons. split; [|done].
        rewrite Hel, elem_of_app, list_elem_of_singleton. naive_solver.
      * intros x. rewrite !elem_of_cons, Hel, elem_of_app, list_elem_of_singleton.
        destruct (decide (x = y)); naive_solver.
Qed.

(** [[...new Set(l)]] has the elements of [l], each once *)
Lemma set_spread_spec (l : list string) :
  NoDup (Js.set_spread l) ∧ ∀ x, x ∈ Js.set_spread l ↔ x ∈ l.
Proof.
  destruct (dedup_go_spec [] l) as [Hnd Hel]. split; [done|].
  intros x. rewrite Hel, elem_of_nil. tauto.
Qed.

Lemma analyzeContent_keywords content md analyzed :
  ContextAnalyzer.analyzeContent content md = Ok analyzed →
  keywords analyzed
  = Js.set_spread
      (ContextAnalyzer.or_nil (p_keywords md) ++ ContextAnalyzer.extractKeywords content).
Proof.
  unfold ContextAnalyzer.analyzeContent.
  destruct (extractEntities content); [|discriminate]. by intros [= <-].
Qed.

(** C10: the entry that [storeMemory] creates has as its tags the very
    list that is its [metadata.keywords]: the caller's keywords followed by
    the extracted ones, each kept once, in order of first occurrence.  The
    tag index and the keyword index therefore file the new id under the
    same keys: under each member of that list, once, and under no other. *)
Theorem store_tags_are_keywords type content md importance now rnd (st : t) analyzed :
  ContextAnalyzer.analyzeContent content md = Ok analyzed →
  let memory := stored type content analyzed importance now rnd st in
  let st' := (storeMemory type content md importance now rnd st).1 in
  JsMap.get (_memories st') (memoryId now rnd) = Some memory
  ∧ (∀ created, (storeMemory type content md importance now rnd st).2 = Ok created →
       created = memory)
  ∧ tags memory = keywords (metadata memory)
  ∧ keywords (metadata memory)
    = Js.set_spread
        (ContextAnalyzer.or_nil (p_keywords md)
         ++ ContextAnalyzer.extractKeywords content)
  ∧ NoDup (tags memory)
  ∧ (∀ key,
       default [] (byTag (_index st') !! key)
       = default [] (byTag (_index st) !! key)
         ++ (if decide (key ∈ tags memory) then [id memory] else []))
  ∧ (∀ key,
       default [] (byKeyword (_index st') !! key)
       = default [] (byKeyword (_index st) !! key)
         ++ (if decide (key ∈ tags memory) then [id memory] else [])).
Proof.
  intros Han memory st'.
  pose proof (analyzeContent_keywords _ _ _ Han) as Hkw.
  assert (Hnd : NoDup (keywords analyzed)).
  { rewrite Hkw. apply set_spread_spec. }
  assert (Hst : _memories st' = JsMap.set (_memories st) (memoryId now rnd) memory
                ∧ _index st' = (updateIndex memory (_index st)).1
                ∧ ∀ created,
                    (storeMemory type content md importance now rnd st).2 = Ok created →
                    created = memory).
  { subst st'. rewrite (storeMemory_analyzed _ _ _ _ _ _ _ _ Han). fold memory.
    destruct (backend_put _ _) as [sto [e|]]; simpl; repeat split; try done.
    by intros created [= <-]. }
  destruct Hst as (Hmem & Hidx & Hres).
  split; [rewrite Hmem; apply JsMapFacts.get_set_eq|].
  split; [exact Hres|].
  split; [reflexivity|]. split; [exact Hkw|]. split; [exact Hnd|].
  rewrite Hidx. split; intros key.
  - unfold updateIndex. destruct (Date_valid _); cbn [fst byTag];
      by apply lookup_bucket_push_all.
  - unfold updateIndex. destruct (Date_valid _); cbn [fst byKeyword];
      by apply lookup_bucket_push_all.
Qed.

(** C7: when the write of the persistence layer fails, [storeMemory]
    rejects with that same error; the entry it created is in the table and
    in the indexes, where a lookup finds it; the storage is as the single
    failed write left it, no second write is attempted, and the statistics
    are not updated. *)
Theorem store_persistence_failure type content md importance now rnd (st : t)
    analyzed sto' err :
  ContextAnalyzer.analyzeContent content md = Ok analyzed →
  let memory := stored type content analyzed importance now rnd st in
  backend_put memory (_persistence st) = (sto', Some err) →
  let st' := (storeMemory type content md importance now rnd st).1 in
  (storeMemory type content md importance now rnd st).2 = Throw err
  ∧ JsMap.get (_memories st') (memoryId now rnd) = Some memory
  ∧ _index st' = (updateIndex memory (_index st)).1
  ∧ memoryId now rnd ∈ default [] (byType (_index st') !! type_key type)
  ∧ head (recent (temporal (_index st'))) = Some (memoryId now rnd)
  ∧ embeddings (semanticIdx (_index st')) !! memoryId now rnd = embedding memory
  ∧ (∀ later, (getMemory (memoryId now rnd) later st').2 = Some (touch later memory))
  ∧ _persistence st' = sto'
  ∧ _stats st' = _stats st.
Proof.
  intros Han memory Hput st'. subst st'.
  rewrite (storeMemory_analyzed _ _ _ _ _ _ _ _ Han). fold memory. rewrite Hput.
  cbn [fst snd _memories _index _persistence _stats].
  assert (Hget : JsMap.get (JsMap.set (_memories st) (memoryId now rnd) memory)
                   (memoryId now rnd) = Some memory) by apply JsMapFacts.get_set_eq.
  repeat split; try done.
  - unfold updateIndex. destruct (Date_valid _); cbn [fst byType];
      rewrite lookup_bucket_push, decide_True by done;
      apply elem_of_app; right; apply list_elem_of_here.
  - rewrite Recent.recent_updateIndex. subst memory.
    by rewrite Recent.stored_valid.
  - unfold updateIndex. subst memory. rewrite Recent.stored_valid.
    cbn [fst semanticIdx embeddings embedding stored
      set_relatedEntries newMemory]. apply lookup_insert_eq.
  - intros later. unfold getMemory. cbn [_memories]. by rewrite Hget.
Qed.

End WithHost.

(** a store with two keywords of the caller, one of them also extracted *)
Lemma store_tags_are_keywords_witness :
  let st' :=
    (MemoryManager.storeMemory conversation "react hooks"
       (Sample.withKeywords ["hooks"; "ui"]) None (instant 1) "a" Sample.fresh).1 in
  ∃ memory,
    JsMap.get (MemoryManager._memories st') "memory-1-a" = Some memory
    ∧ tags memory = ["hooks"; "ui"; "react"]
    ∧ keywords (metadata memory) = ["hooks"; "ui"; "react"].
Proof.
  destruct (store_tags_are_keywords (H := Sample.host) conversation "react hooks"
              (Sample.withKeywords ["hooks"; "ui"]) None (instant 1) "a" Sample.fresh _ eq_refl)
    as (Hget & _ & Htags & Hkw & _).
  eexists. split; [exact Hget|]. split.
  - rewrite Htags, Hkw. vm_compute. reflexivity.
  - rewrite Hkw. vm_compute. reflexivity.
Defined.

(** a store while the storage is offline *)
Lemma store_persistence_failure_witness :
  let r := MemoryManager.storeMemory research "react state" Sample.noMetadata None (instant 7) "x"
             Sample.offline in
  r.2 = Throw "QuotaExceededError"
  ∧ (∃ memory, JsMap.get (MemoryManager._memories r.1) "memory-7-x" = Some memory
               ∧ content memory = "react state")
  ∧ MemoryManager._persistence r.1 = MemoryManager._persistence Sample.offline.
Proof.
  destruct (store_persistence_failure (H := Sample.host) research "react state"
              Sample.noMetadata None (instant 7) "x" Sample.offline _
              (MemoryManager._persistence Sample.offline) "QuotaExceededError"
              eq_refl eq_refl)
    as (Hres & Hget & _ & _ & _ & _ & _ & Hsto & _).
  split; [exact Hres|]. split; [|exact Hsto].
  eexists. split; [exact Hget | reflexivity].
Defined.

End Store.

(** ** The relation finder *)
Module Relations.
Section WithHost.
Context `{Host}.
Import MemoryManager Spec.

Lemma filter_ext_in {A} (P1 P2 : A → Prop) `{∀ x, Decision (P1 x)}
    `{∀ x, Decision (P2 x)} (l : list A) :
  (∀ x, x ∈ l → (P1 x ↔ P2 x)) → filter P1 l = filter P2 l.
Proof.
  induction l as [|x l IH]; intros Hext; [done|].
  rewrite !filter_cons.
  assert (Hx : P1 x ↔ P2 x) by apply Hext, list_elem_of_here.
  assert (Hl : filter P1 l = filter P2 l).
  { apply IH. intros y Hy. by apply Hext, list_elem_of_further. }
  destruct (decide (P1 x)), (decide (P2 x)); rewrite ?Hl; tauto.
Qed.

Lemma sharedEntities_nonempty (memory existingMemory : MemoryEntry) :
  (0 <? length (sharedEntities memory existingMemory))%nat = true
  ↔ shares_entity memory existingMemory.
Proof.
  unfold sharedEntities, shares_entity. rewrite Nat.ltb_lt.
  induction (entities (metadata memory)) as [|entity l IH].
  - rewrite Exists_nil. simpl. lia.
  - rewrite filter_cons, Exists_cons.
    assert (Hone : existsb
                     (fun e => String.eqb (entity_name e) (entity_name entity)
                               && String.eqb (entity_type e) (entity_type entity))
                     (entities (metadata existingMemory))
                   ↔ Exists (fun e => entity_name e = entity_name entity
                                      ∧ entity_type e = entity_type entity)
                       (entities (metadata existingMemory))).
    { rewrite existb_True. apply Exists_proper; [|done]. intros e.
      rewrite andb_True, !Is_true_true, !String.eqb_eq. done. }
    destruct (decide _) as [Hyes|Hno].
    + split; [intros _; left; by apply Hone | simpl; lia].
    + rewrite IH. split; [by right | intros [Hx|Hl]; [|done]].
      exfalso. by apply Hno, Hone.
Qed.

Lemma sharedKeywords_shared (memory existingMemory : MemoryEntry) :
  sharedKeywords memory existingMemory = shared_keywords memory existingMemory.
Proof.
  unfold sharedKeywords, shared_keywords, Js.arr_includes.
  apply list_filter_iff. intros keyword. apply bool_decide_spec.
Qed.

Lemma related_pass1_spec (memory : MemoryEntry) (m : JsMap.t MemoryEntry)
    (acc : list string) :
  related_pass1 memory m acc = acc ++ JsMap.keys (entity_matches memory m).
Proof.
  unfold related_pass1, entity_matches. revert acc.
  induction m as [|[k e] m IH]; intros acc.
  - simpl. by rewrite app_nil_r.
  - cbn [fold_left]. rewrite IH, filter_cons. cbn [fst snd].
    destruct (String.eqb_spec k (id memory)) as [Heq|Hne].
    + rewrite decide_False; [done | tauto].
    + destruct (0 <? length (sharedEntities memory e))%nat eqn:Hs.
      * apply sharedEntities_nonempty in Hs.
        rewrite decide_True by done. simpl. by rewrite <- app_assoc.
      * rewrite decide_False; [done|]. intros [_ Hs'].
        apply sharedEntities_nonempty in Hs'. congruence.
Qed.

(** the second loop, for an accumulator that agrees with the result [r1]
    of the first on the keys still to come *)
Lemma related_pass2_acc (memory : MemoryEntry) (r1 : list string)
    (m : JsMap.t MemoryEntry) (acc : list string) :
  NoDup (JsMap.keys m) →
  (∀ k, k ∈ JsMap.keys m → (k ∈ acc ↔ k ∈ r1)) →
  related_pass2 memory m acc
  = acc ++ JsMap.keys
             (filter (fun p => p.1 ≠ id memory ∧ (p.1 ∉ r1)
                               ∧ (2 ≤ length (shared_keywords memory p.2))%nat) m).
Proof.
  unfold related_pass2. revert acc.
  induction m as [|[k e] m IH]; intros acc Hnd Hacc.
  - simpl. by rewrite app_nil_r.
  - cbn [fold_left]. cbn [JsMap.keys map fst] in Hnd, Hacc.
    apply NoDup_cons in Hnd as [Hk Hnd].
    rewrite filter_cons. cbn [fst snd].
    assert (Hkacc : k ∈ acc ↔ k ∈ r1) by apply Hacc, list_elem_of_here.
    rewrite sharedKeywords_shared. unfold Js.arr_includes.
    destruct (String.eqb_spec k (id memory)) as [Heq|Hne]; cbn [orb].
    { rewrite decide_False by tauto. apply IH; [done|].
      intros k' Hk'. by apply Hacc, list_elem_of_further. }
    destruct (bool_decide_reflect (k ∈ acc)) as [Hin|Hnin].
    { rewrite decide_False by tauto. apply IH; [done|].
      intros k' Hk'. by apply Hacc, list_elem_of_further. }
    destruct (2 <=? length (shared_keywords memory e))%nat eqn:Hkw.
    + apply Nat.leb_le in Hkw. rewrite decide_True by tauto.
      rewrite IH; [simpl; by rewrite <- app_assoc | done |].
      intros k' Hk'. rewrite elem_of_app, list_elem_of_singleton.
      rewrite <- (Hacc k') by by apply list_elem_of_further.
      split; [intros [?| ->]; [done | by exfalso] | by left].
    + apply Nat.leb_gt in Hkw. rewrite decide_False by lia. apply IH; [done|].
      intros k' Hk'. by apply Hacc, list_elem_of_further.
Qed.

(** with distinct keys, an entry's key is among the entity matches exactly
    when the entry is another one and shares an entity *)
Lemma elem_entity_matches (memory : MemoryEntry) (m : JsMap.t MemoryEntry) k e :
  JsMap.wf m → (k, e) ∈ m →
  k ∈ JsMap.keys (entity_matches memory m)
  ↔ k ≠ id memory ∧ shares_entity memory e.
Proof.
  intros Hwf Hin. unfold JsMap.keys, entity_matches. rewrite list_elem_of_fmap. split.
  - intros [[k' e'] [-> Hf]]. apply list_elem_of_filter in Hf as [Hp Hin'].
    cbn [fst snd] in *.
    pose proof (JsMapFacts.elem_get _ _ _ Hwf Hin) as Hg.
    pose proof (JsMapFacts.elem_get _ _ _ Hwf Hin') as Hg'.
    rewrite Hg in Hg'. injection Hg' as ->. done.
  - intros Hp. exists (k, e). split; [done|]. by apply list_elem_of_filter.
Qed.

(** C5: the relation finder scans the table twice, leaving out the entry
    under the new entry's own id.  The first scan collects, in table order,
    every entry that shares an entity (same name and same type) with the
    new entry; the second collects, in table order, every entry not found
    by the first of which at least two of the new entry's keywords are
    keywords too.  The result is the first ten of the first scan's matches
    followed by the second's: no ranking takes place.  The shared keywords
    are counted in the new entry's list, which has no repetition when the
    entry comes from [storeMemory]. *)
Theorem findRelatedMemories_spec (memory : MemoryEntry) (memories : JsMap.t MemoryEntry) :
  JsMap.wf memories →
  findRelatedMemories memory memories
  = take 10 (JsMap.keys (entity_matches memory memories)
             ++ JsMap.keys (keyword_matches memory memories))
  ∧ (length (findRelatedMemories memory memories) ≤ 10)%nat
  ∧ (id memory ∉ findRelatedMemories memory memories)
  ∧ (∀ existingMemory keyword,
       keyword ∈ shared_keywords memory existingMemory
       ↔ (keyword ∈ keywords (metadata memory)
          ∧ keyword ∈ keywords (metadata existingMemory)))
  ∧ (NoDup (keywords (metadata memory)) →
     ∀ existingMemory, NoDup (shared_keywords memory existingMemory)).
Proof.
  intros Hwf.
  assert (Heq : findRelatedMemories memory memories
                = take 10 (JsMap.keys (entity_matches memory memories)
                           ++ JsMap.keys (keyword_matches memory memories))).
  { unfold findRelatedMemories, Js.slice0. cbn [Z.ltb Z.compare Z.to_nat Pos.to_nat].
    change (Pos.iter_op Init.Nat.add 10 1%nat) with 10%nat. f_equal.
    rewrite related_pass1_spec, app_nil_l.
    rewrite (related_pass2_acc memory (JsMap.keys (entity_matches memory memories)));
      [|done|done].
    f_equal. unfold keyword_matches. f_equal. apply filter_ext_in.
    intros [k e] Hin. cbn [fst snd].
    rewrite (elem_entity_matches memory memories k e Hwf Hin). tauto. }
  split; [exact Heq|]. split; [|split; [|split]].
  - rewrite Heq, length_take. lia.
  - rewrite Heq. intros Hin. apply (subseteq_take 10) in Hin.
    apply elem_of_app in Hin as [Hin|Hin];
      apply list_elem_of_fmap in Hin as [[k e] [Hk Hf]];
      apply list_elem_of_filter in Hf as [Hp _]; cbn [fst] in *; subst; tauto.
  - intros existingMemory keyword. unfold shared_keywords.
    rewrite list_elem_of_filter. tauto.
  - intros Hnd existingMemory. by apply NoDup_filter.
Qed.

End WithHost.

(** a new entry with one entity and two keywords against the library: the
    entity match comes first, then the entry sharing both keywords *)
Lemma findRelatedMemories_spec_witness :
  MemoryManager.findRelatedMemories
    (Sample.mkRel "new" [Sample.ent "technology" "React"] ["react"; "hooks"])
    Sample.library
  = ["k2"; "k1"].
Proof.
  assert (Hwf : JsMap.wf Sample.library).
  { apply (bool_decide_unpack _). vm_compute. exact I. }
  rewrite (proj1 (findRelatedMemories_spec _ _ Hwf)).
  vm_compute. reflexivity.
Defined.

End Relations.

(** ** Cosine similarity *)
Module Similarity.
Import SemanticSearch Spec.

Lemma similarity_loop_magnitude1 (a b : list float) (d m1 m2 : float) :
  length a = length b →
  (similarity_loop a b (d, m1, m2)).1.2
  = fold_left (fun sum val => (sum + val * val)%float) a m1.
Proof.
  revert b d m1 m2. induction a as [|x a IH]; intros [|y b] d m1 m2 Hlen;
    simpl in *; try done.
  apply IH. lia.
Qed.

Lemma similarity_loop_magnitude2 (a b : list float) (d m1 m2 : float) :
  length a = length b →
  (similarity_loop a b (d, m1, m2)).2
  = fold_left (fun sum val => (sum + val * val)%float) b m2.
Proof.
  revert b d m1 m2. induction a as [|x a IH]; intros [|y b] d m1 m2 Hlen;
    simpl in *; try done.
  apply IH. lia.
Qed.

Lemma calculateSimilarity_mismatch (a b : list float) :
  length a ≠ length b → calculateSimilarity a b = 0%float.
Proof.
  intros Hne. unfold calculateSimilarity.
  destruct (Nat.eqb_spec (length a) (length b)); [done | reflexivity].
Qed.

Lemma calculateSimilarity_zero_magnitude (a b : list float) :
  (PrimFloat.sqrt (sum_squares a) =? 0)%float = true
  ∨ (PrimFloat.sqrt (sum_squares b) =? 0)%float = true →
  calculateSimilarity a b = 0%float.
Proof.
  intros Hzero. unfold calculateSimilarity.
  destruct (Nat.eqb_spec (length a) (length b)) as [Hlen|]; [|reflexivity].
  cbn [negb].
  pose proof (similarity_loop_magnitude1 a b 0 0 0 Hlen) as H1.
  pose proof (similarity_loop_magnitude2 a b 0 0 0 Hlen) as H2.
  destruct (similarity_loop a b (0, 0, 0)%float) as [[d m1] m2]. simpl in H1, H2.
  subst m1 m2. fold (sum_squares a). fold (sum_squares b).
  destruct Hzero as [-> | ->]; [reflexivity|].
  by rewrite orb_true_r.
Qed.

Lemma similarity_loop_dot (a b : list float) (d m1 m2 : float) :
  (similarity_loop a b (d, m1, m2)).1.1
  = fold_left (fun sum '(x, y) => (sum + x * y)%float) (zip a b) d.
Proof.
  revert b d m1 m2. induction a as [|x a IH]; intros [|y b] d m1 m2;
    simpl in *; done.
Qed.

(** what [calculateSimilarity] returns, case by case *)
Lemma calculateSimilarity_cases (a b : list float) :
  calculateSimilarity a b
  = if negb (length a =? length b)%nat then 0%float
    else if (PrimFloat.sqrt (sum_squares a) =? 0)%float
            || (PrimFloat.sqrt (sum_squares b) =? 0)%float then 0%float
    else (dot_product a b
          / (PrimFloat.sqrt (sum_squares a) * PrimFloat.sqrt (sum_squares b)))%float.
Proof.
  unfold calculateSimilarity.
  destruct (Nat.eqb_spec (length a) (length b)) as [Hlen|]; [|reflexivity].
  cbn [negb].
  pose proof (similarity_loop_magnitude1 a b 0 0 0 Hlen) as H1.
  pose proof (similarity_loop_magnitude2 a b 0 0 0 Hlen) as H2.
  pose proof (similarity_loop_dot a b 0 0 0) as H0.
  destruct (similarity_loop a b (0, 0, 0)%float) as [[d m1] m2].
  cbn [fst snd] in H0, H1, H2. subst d m1 m2. reflexivity.
Qed.

(** the code over the two arithmetics is the code of the two functions *)
Lemma similarity_over_doubles (a b : list float) :
  similarity_over doubles a b = calculateSimilarity a b.
Proof.
  unfold similarity_over, calculateSimilarity.
  assert (Hloop : ∀ (v w : list float) acc,
            similarity_loop_over doubles v w acc = similarity_loop v w acc).
  { induction v as [|x v IH]; intros [|y w] [[d m1] m2]; simpl; done. }
  by rewrite Hloop.
Qed.

Lemma similarity_over_reals (x y : list R) :
  similarity_over reals x y = calculateSimilarity_exact x y.
Proof.
  unfold similarity_over, calculateSimilarity_exact.
  assert (Hloop : ∀ (v w : list R) acc,
            similarity_loop_over reals v w acc = similarity_loop_exact v w acc).
  { induction v as [|a v IH]; intros [|b w] [[d m1] m2]; simpl; done. }
  rewrite Hloop. cbn [num_sqrt num_is_zero num_zero num_div num_mul reals].
  destruct (negb _); [done|].
  destruct (similarity_loop_exact x y (0%R, 0%R, 0%R)) as [[d m1] m2].
  by destruct (Req_dec_T (sqrt m1) 0), (Req_dec_T (sqrt m2) 0).
Qed.

(** a vector of zeros has magnitude zero *)
Lemma sum_squares_zeros (n : nat) :
  sum_squares (replicate n 0%float) = 0%float.
Proof.
  unfold sum_squares. induction n as [|n IH]; [reflexivity|]. simpl. exact IH.
Qed.

(** *** The bound in exact arithmetic *)

#[local] Open Scope R_scope.

Lemma cs_step (d m1 m2 x y : R) :
  cs_inv (d, m1, m2) → cs_inv (d + x * y, m1 + x * x, m2 + y * y).
Proof.
  unfold cs_inv. intros (H1 & H2 & Hd).
  split; [nra|]. split; [nra|].
  assert (Hu : 0 <= m1 * (y * y) + m2 * (x * x)).
  { apply Rplus_le_le_0_compat; apply Rmult_le_pos; try done; apply Rle_0_sqr. }
  set (u := m1 * (y * y) + m2 * (x * x)) in *.
  set (v := 2 * d * x * y).
  set (w := m1 * (y * y) - m2 * (x * x)).
  assert (Hid : u * u - v * v
                = w * w + 4 * ((m1 * m2 - d * d) * ((x * y) * (x * y)))).
  { unfold u, v, w. ring. }
  assert (Hw : 0 <= w * w) by apply Rle_0_sqr.
  assert (Hp : 0 <= (m1 * m2 - d * d) * ((x * y) * (x * y))).
  { apply Rmult_le_pos; [lra | apply Rle_0_sqr]. }
  assert (Hsq : v * v <= u * u) by lra.
  assert (Hle : v <= u).
  { destruct (Rle_lt_dec v u) as [|Hgt]; [done|]. exfalso.
    assert (u * u < v * v); [|lra].
    apply Rle_lt_trans with (u * v).
    - apply Rmult_le_compat_l; lra.
    - apply Rmult_lt_compat_r; lra. }
  replace ((d + x * y) * (d + x * y)) with (d * d + v + (x * y) * (x * y))
    by (unfold v; ring).
  replace ((m1 + x * x) * (m2 + y * y)) with (m1 * m2 + u + (x * y) * (x * y))
    by (unfold u; ring).
  lra.
Qed.

Lemma cs_loop (a b : list R) (acc : R * R * R) :
  cs_inv acc → cs_inv (similarity_loop_exact a b acc).
Proof.
  revert b acc. induction a as [|x a IH]; intros [|y b] [[d m1] m2] Hinv;
    simpl; try done.
  apply IH. by apply cs_step.
Qed.

Lemma calculateSimilarity_exact_bounds (a b : list R) :
  -1 <= calculateSimilarity_exact a b <= 1.
Proof.
  unfold calculateSimilarity_exact.
  destruct (negb _); [lra|].
  assert (Hinv : cs_inv (similarity_loop_exact a b (0, 0, 0))).
  { apply cs_loop. unfold cs_inv. lra. }
  destruct (similarity_loop_exact a b (0, 0, 0)) as [[d m1] m2].
  destruct Hinv as (H1 & H2 & Hd).
  destruct (Req_dec_T (sqrt m1) 0) as [|Hn1]; [lra|].
  destruct (Req_dec_T (sqrt m2) 0) as [|Hn2]; [lra|].
  pose proof (sqrt_pos m1) as Hp1. pose proof (sqrt_pos m2) as Hp2.
  pose proof (sqrt_sqrt m1 H1) as Hs1. pose proof (sqrt_sqrt m2 H2) as Hs2.
  set (s1 := sqrt m1) in *. set (s2 := sqrt m2) in *.
  assert (Hpos : 0 < s1 * s2) by nra.
  assert (Hdd : d * d <= (s1 * s2) * (s1 * s2)) by nra.
  assert (Hup : d <= s1 * s2) by nra.
  assert (Hlo : - (s1 * s2) <= d) by nra.
  split.
  - apply (Rmult_le_reg_r (s1 * s2)); [done|].
    unfold Rdiv. rewrite Rmult_assoc, Rinv_l by lra. lra.
  - apply (Rmult_le_reg_r (s1 * s2)); [done|].
    unfold Rdiv. rewrite Rmult_assoc, Rinv_l by lra. lra.
Qed.

#[local] Close Scope R_scope.

(** C6 as stated fails: for two equal vectors of three ones the rounded
    quotient is the next binary64 above 1, and for components whose squares
    overflow the quotient of two infinities is NaN. *)
Lemma similarity_out_of_range :
  calculateSimilarity [1; 1; 1]%float [1; 1; 1]%float = 1.0000000000000002%float
  ∧ in_unit_range (calculateSimilarity [1; 1; 1]%float [1; 1; 1]%float) = false
  ∧ PrimFloat.is_nan (calculateSimilarity [1e200]%float [1e200]%float) = true
  ∧ in_unit_range (calculateSimilarity [1e200]%float [1e200]%float) = false.
Proof. vm_compute. repeat split. Qed.

(** C6, amended: [calculateSimilarity] is a total function of two vectors
    and returns exactly 0 when their lengths differ and when the magnitude
    computed for either of them is zero, as it is for a vector of zeros.
    In every other case it returns the binary64 quotient of the dot product
    it accumulated by the product of the two magnitudes, the square roots
    of the sums of squares it accumulated.  The function is its code run
    over binary64 numbers; the same code run over the real numbers returns
    a value between -1 and 1, and 0 when the lengths differ.  The binary64
    value is the rounded one and carries no such bound. *)
Theorem calculateSimilarity_degrades (a b : list float) :
  (length a ≠ length b → calculateSimilarity a b = 0%float)
  ∧ ((PrimFloat.sqrt (sum_squares a) =? 0)%float = true
     ∨ (PrimFloat.sqrt (sum_squares b) =? 0)%float = true →
     calculateSimilarity a b = 0%float)
  ∧ calculateSimilarity (replicate (length b) 0%float) b = 0%float
  ∧ calculateSimilarity a (replicate (length a) 0%float) = 0%float
  ∧ (∀ x y : list R,
       (-1 <= calculateSimilarity_exact x y <= 1)%R
       ∧ (length x ≠ length y → calculateSimilarity_exact x y = 0%R))
  ∧ (length a = length b →
     (PrimFloat.sqrt (sum_squares a) =? 0)%float = false →
     (PrimFloat.sqrt (sum_squares b) =? 0)%float = false →
     calculateSimilarity a b
     = (dot_product a b
        / (PrimFloat.sqrt (sum_squares a) * PrimFloat.sqrt (sum_squares b)))%float)
  ∧ calculateSimilarity a b = similarity_over doubles a b
  ∧ (∀ x y : list R,
       calculateSimilarity_exact x y = similarity_over reals x y
       ∧ (-1 <= similarity_over reals x y <= 1)%R).
Proof.
  split; [apply calculateSimilarity_mismatch|].
  split; [apply calculateSimilarity_zero_magnitude|].
  split; [|split; [|split; [|split; [|split]]]].
  - apply calculateSimilarity_zero_magnitude. left.
    by rewrite sum_squares_zeros.
  - apply calculateSimilarity_zero_magnitude. right.
    by rewrite sum_squares_zeros.
  - intros x y. split; [apply calculateSimilarity_exact_bounds|].
    intros Hne. unfold calculateSimilarity_exact.
    destruct (Nat.eqb_spec (length x) (length y)); [done | reflexivity].
  - intros Hlen Hz1 Hz2. rewrite calculateSimilarity_cases, Hz1, Hz2.
    by rewrite (proj2 (Nat.eqb_eq _ _) Hlen).
  - symmetry. apply similarity_over_doubles.
  - intros x y. rewrite similarity_over_reals.
    split; [done | apply calculateSimilarity_exact_bounds].
Qed.

End Similarity.

(** ** Embedding generation and its cache *)
Module Embedding.
Section WithHost.
Context `{Host}.
Import SemanticSearch Spec.

Lemma normalizeVector_length (v : list float) :
  length (normalizeVector v) = length v.
Proof.
  unfold normalizeVector. destruct (_ =? _)%float; [done | apply length_map].
Qed.

Lemma add_at_length (v : list float) (i : nat) (x : float) :
  length (add_at v i x) = length v.
Proof. unfold add_at. destruct (v !! i); [apply length_insert | done]. Qed.

Lemma computeSimpleEmbedding_length (text : string) :
  length (computeSimpleEmbedding text) = EMBEDDING_DIMENSION.
Proof.
  unfold computeSimpleEmbedding. rewrite normalizeVector_length.
  generalize (computeWordFrequency (tokenize text)).
  generalize (Z.of_nat (length (tokenize text))). intros total wordFreq.
  assert (Hfold : ∀ v,
    length (fold_left
              (fun embedding '(word, freq) =>
                 add_at embedding (hashWordToDimension word)
                   (computeTFIDF word freq total)) wordFreq v) = length v).
  { induction wordFreq as [|[w f] l IH]; intros v; simpl; [done|].
    by rewrite IH, add_at_length. }
  rewrite Hfold. apply length_replicate.
Qed.

(** the dimension a word is hashed to is an index of the vector *)
Lemma hashWordToDimension_lt (word : string) :
  (hashWordToDimension word < EMBEDDING_DIMENSION)%nat.
Proof.
  unfold hashWordToDimension, EMBEDDING_DIMENSION.
  pose proof (Z.mod_pos_bound (Z.abs (hash_go word 0)) (Z.of_nat 384)). lia.
Qed.

Lemma generateEmbedding_hit (text : string) (cache : Cache) v :
  cache !! getCacheKey text = Some v → generateEmbedding text cache = (v, cache).
Proof. unfold generateEmbedding. by intros ->. Qed.

Lemma generateEmbedding_miss (text : string) (cache : Cache) :
  cache !! getCacheKey text = None →
  generateEmbedding text cache
  = (computeSimpleEmbedding text,
     <[getCacheKey text := computeSimpleEmbedding text]> cache).
Proof. unfold generateEmbedding. by intros ->. Qed.

(** the key of a text is cached after the call, with the vector returned *)
Lemma generateEmbedding_cached (text : string) (cache : Cache) :
  (generateEmbedding text cache).2 !! getCacheKey text
  = Some (generateEmbedding text cache).1.
Proof.
  unfold generateEmbedding. destruct (cache !! getCacheKey text) eqn:Hc; cbn [fst snd].
  - done.
  - apply lookup_insert_eq.
Qed.

(** a call never replaces what is cached *)
Lemma generateEmbedding_keeps (text : string) (cache : Cache) key v :
  cache !! key = Some v → (generateEmbedding text cache).2 !! key = Some v.
Proof.
  intros Hk. unfold generateEmbedding.
  destruct (cache !! getCacheKey text) eqn:Hc; cbn [snd]; [done|].
  rewrite lookup_insert_ne; [done|]. intros <-. congruence.
Qed.

Lemma embed_all_keeps (texts : list string) (cache : Cache) key v :
  cache !! key = Some v → embed_all texts cache !! key = Some v.
Proof.
  unfold embed_all. revert cache. induction texts as [|t texts IH]; intros cache Hk.
  - done.
  - simpl. by apply IH, generateEmbedding_keeps.
Qed.

Lemma generateEmbedding_cache_ok (text : string) (cache : Cache) :
  cache_ok cache →
  length (generateEmbedding text cache).1 = EMBEDDING_DIMENSION
  ∧ cache_ok (generateEmbedding text cache).2.
Proof.
  intros Hok. unfold generateEmbedding.
  destruct (cache !! getCacheKey text) as [v|] eqn:Hc; cbn [fst snd].
  - split; [by apply (Hok _ _ Hc) | done].
  - split; [apply computeSimpleEmbedding_length|].
    intros key v. rewrite lookup_insert. case_decide.
    + intros [= <-]. apply computeSimpleEmbedding_length.
    + apply Hok.
Qed.

(** What holds of the cache: a second call of [generateEmbedding] on the
    same text returns the vector of the first, whatever texts are embedded
    in between, as long as the cache is not cleared.  On a cache miss the
    vector is [computeSimpleEmbedding] of the text, a function of the text
    alone, of the fixed length 384; on a hit it is the vector cached under
    the 32-bit hash of the text. *)
Theorem generateEmbedding_repeatable (text : string) (cache : Cache)
    (between : list string) :
  (generateEmbedding text (embed_all between (generateEmbedding text cache).2)).1
  = (generateEmbedding text cache).1
  ∧ (cache !! getCacheKey text = None →
     (generateEmbedding text cache).1 = computeSimpleEmbedding text)
  ∧ length (computeSimpleEmbedding text) = 384%nat
  ∧ (∀ v, cache !! getCacheKey text = Some v → (generateEmbedding text cache).1 = v)
  ∧ (cache_ok cache →
     length (generateEmbedding text cache).1 = 384%nat
     ∧ cache_ok (embed_all between (generateEmbedding text cache).2)).
Proof.
  split; [|split; [|split; [|split]]].
  - erewrite generateEmbedding_hit; [done|].
    apply embed_all_keeps, generateEmbedding_cached.
  - intros Hmiss. by rewrite generateEmbedding_miss.
  - apply computeSimpleEmbedding_length.
  - intros v Hhit. by rewrite (generateEmbedding_hit _ _ _ Hhit).
  - intros Hok. destruct (generateEmbedding_cache_ok text cache Hok) as [Hlen Hok'].
    split; [exact Hlen|].
    generalize dependent (generateEmbedding text cache).2. clear.
    intros c Hc. unfold embed_all. revert c Hc.
    induction between as [|t ts IH]; intros c Hc; simpl; [done|].
    by apply IH, generateEmbedding_cache_ok.
Qed.

End WithHost.

(** C9: embedding generation is meant to be deterministic, the vector
    depending on the text alone, and [computeSimpleEmbedding] is; the cache
    in front of it is keyed by a 32-bit hash of the text and breaks this on
    a collision.  The texts [ar+] and [api] have the same cache key; the
    first has no token and embeds to the zero vector.  After it, a call on
    [api] returns that zero vector, where a call on [api] with an empty
    cache, or the next call once the cache is cleared, returns the unit
    vector of the word.  Neither text reaches [Math.log]. *)
Lemma embedding_depends_on_cache :
  let c1 := (SemanticSearch.generateEmbedding (H := Sample.host) "ar+" ∅).2 in
  let first := SemanticSearch.generateEmbedding (H := Sample.host) "api" c1 in
  let second :=
    SemanticSearch.generateEmbedding (H := Sample.host) "api"
      (SemanticSearch.clearCache first.2) in
  SemanticSearch.getCacheKey "ar+" = SemanticSearch.getCacheKey "api"
  ∧ first.1 = replicate 384 0%float
  ∧ second.1 = <[26%nat := 1%float]> (replicate 384 0%float)
  ∧ first.1 ≠ second.1
  ∧ (SemanticSearch.generateEmbedding (H := Sample.host) "api" ∅).1 ≠ first.1.
Proof.
  assert (Hne : ∀ a b : list float,
            match a !! 26%nat with Some z => (z <? 0.5)%float | None => false end
            ≠ match b !! 26%nat with Some z => (z <? 0.5)%float | None => false end →
            a ≠ b) by (intros a b Hd Heq; subst; done).
  cbv zeta. split; [|split; [|split; [|split]]].
  - vm_compute. reflexivity.
  - vm_compute. reflexivity.
  - vm_compute. reflexivity.
  - apply Hne. vm_compute. discriminate.
  - apply Hne. vm_compute. discriminate.
Qed.

End Embedding.

(** ** Text scoring *)
Module TextSearch.
Section WithHost.
Context `{Host}.
Import MemoryManager Spec.

Lemma sum_from_app (s : float) (l1 l2 : list float) :
  sum_from s (l1 ++ l2) = sum_from (sum_from s l1) l2.
Proof. unfold sum_from. apply fold_left_app. Qed.

(** the loop over the search terms *)
Lemma terms_loop (content metadata : string) (searchTerms : list string)
    (s : float) (h : list string) :
  fold_left
    (fun '(score, highlights) term =>
       let '(score, highlights) :=
         if Js.includes content term
         then ((score + 1)%float, highlights ++ [term])
         else (score, highlights) in
       if Js.includes metadata term
       then ((score + 0.5)%float, highlights) else (score, highlights))
    searchTerms (s, h)
  = (sum_from s (term_contributions content metadata searchTerms),
     h ++ filter (fun term => Js.includes content term) searchTerms).
Proof.
  revert s h. induction searchTerms as [|term terms IH]; intros s h.
  - simpl. by rewrite app_nil_r.
  - cbn [fold_left]. unfold term_contributions. cbn [map concat].
    fold (term_contributions content metadata terms).
    rewrite filter_cons.
    destruct (Js.includes content term), (Js.includes metadata term);
      rewrite IH; simpl; rewrite <- ?app_assoc; reflexivity.
Qed.

(** the loop over the tags *)
Lemma tags_loop (searchTerms tags : list string) (s : float) (h : list string) :
  fold_left
    (fun '(score, highlights) tag =>
       if existsb (fun term => Js.includes (Js.toLowerCase tag) term) searchTerms
       then ((score + 0.8)%float, highlights ++ [tag])
       else (score, highlights))
    tags (s, h)
  = (sum_from s (tag_contributions searchTerms tags),
     h ++ filter (fun tag => tag_matches searchTerms tag) tags).
Proof.
  revert s h. induction tags as [|tag tags IH]; intros s h.
  - simpl. by rewrite app_nil_r.
  - cbn [fold_left]. unfold tag_contributions. cbn [map concat].
    fold (tag_contributions searchTerms tags).
    rewrite filter_cons.
    change (existsb (fun term => Js.includes (Js.toLowerCase tag) term) searchTerms)
      with (tag_matches searchTerms tag).
    destruct (tag_matches searchTerms tag); rewrite IH; simpl;
      rewrite <- ?app_assoc; reflexivity.
Qed.

Lemma text_score_amended (searchTerms : list string) (memory : MemoryEntry) :
  text_score searchTerms memory
  = (score_amended searchTerms memory, highlights_amended searchTerms memory).
Proof.
  unfold text_score, score_amended, highlights_amended.
  rewrite terms_loop, tags_loop, sum_from_app. reflexivity.
Qed.

Lemma performTextSearch_acc (searchTerms : list string)
    (memories : JsMap.t MemoryEntry) (acc : list MemorySearchResult) :
  fold_left
    (fun results '(k, memory) =>
       let '(score, highlights) := text_score searchTerms memory in
       if (0 <? score)%float
       then results ++
            [{| entry := k;
                score := (score / Js.num (Z.of_nat (length searchTerms)))%float;
                relevance := (score / Js.num (Z.of_nat (length searchTerms)))%float;
                matchType := Exact; highlights := highlights |}]
       else results)
    memories acc
  = acc ++ omap (text_result searchTerms) memories.
Proof.
  revert acc. induction memories as [|[k memory] memories IH]; intros acc.
  - simpl. by rewrite app_nil_r.
  - cbn [fold_left omap list_omap]. rewrite IH, text_score_amended.
    unfold text_result at 2. cbn [fst snd].
    destruct (0 <? score_amended searchTerms memory)%float.
    + by rewrite <- app_assoc.
    + done.
Qed.

Lemma split_go_nonempty (s cur : string) (in_ws : bool) :
  (1 ≤ length (Js.split_go s cur in_ws))%nat.
Proof.
  revert cur in_ws. induction s as [|c s IH]; intros cur in_ws; simpl; [lia|].
  destruct (Js.is_space c); [destruct in_ws|]; simpl; try apply IH. lia.
Qed.

(** C4, amended: for every entry the score of the text search is the sum,
    taken in this order from 0, of 1 for each term contained in the
    lower-cased content and then 0.5 if the term is contained in the
    lower-cased serialised metadata, term by term, followed by 0.8 for each
    tag that contains at least one of the terms, once per tag; the result
    carries that sum divided by the number of terms, which is at least one;
    an entry is a result exactly when the sum is above 0, and results come
    in table order, one per entry. *)
Theorem performTextSearch_scores (text : string) (memories : JsMap.t MemoryEntry) :
  let searchTerms := Js.split_ws (Js.toLowerCase text) in
  performTextSearch text memories = omap (text_result searchTerms) memories
  ∧ (1 ≤ length searchTerms)%nat
  ∧ (∀ memory, (text_score searchTerms memory).1
               = sum_from 0%float
                   (term_contributions (Js.toLowerCase (content memory))
                      (Js.toLowerCase (JSON_stringify (metadata memory))) searchTerms
                    ++ tag_contributions searchTerms (tags memory)))
  ∧ (∀ r, r ∈ performTextSearch text memories ↔
          ∃ k memory,
            (k, memory) ∈ memories
            ∧ (0 <? score_amended searchTerms memory)%float = true
            ∧ r = {| entry := k;
                     score := (score_amended searchTerms memory
                               / Js.num (Z.of_nat (length searchTerms)))%float;
                     relevance := (score_amended searchTerms memory
                                   / Js.num (Z.of_nat (length searchTerms)))%float;
                     matchType := Exact;
                     highlights := highlights_amended searchTerms memory |}).
Proof.
  intros searchTerms.
  assert (Heq : performTextSearch text memories
                = omap (text_result searchTerms) memories).
  { unfold performTextSearch. fold searchTerms. by rewrite performTextSearch_acc. }
  split; [exact Heq|]. split; [apply split_go_nonempty|]. split.
  - intros memory. by rewrite text_score_amended.
  - intros r. rewrite Heq, list_elem_of_omap. split.
    + intros [[k memory] [Hin Hres]]. exists k, memory.
      unfold text_result in Hres. cbn [fst snd] in Hres.
      destruct (0 <? score_amended searchTerms memory)%float eqn:Hs; [|done].
      injection Hres as <-. done.
    + intros (k & memory & Hin & Hs & ->). exists (k, memory).
      split; [done|]. unfold text_result. cbn [fst snd]. by rewrite Hs.
Qed.

End WithHost.

(** C4 as stated fails once a tag contains two of the terms: for the query
    [react hooks] and an entry whose only match is its tag [react-hooks] the
    code adds 0.8 once and returns 0.4, where the claim counts the tag
    under each term and gives 0.8. *)
Lemma tag_counted_once :
  let memory := Sample.mkTagged "m" "notes" ["react-hooks"] in
  let searchTerms := Js.split_ws (Js.toLowerCase "react hooks") in
  searchTerms = ["react"; "hooks"]
  ∧ score <$> MemoryManager.performTextSearch (H := Sample.host) "react hooks"
                [("m", memory)]
    = [0.4%float]
  ∧ (Spec.score_claimed (H := Sample.host) searchTerms memory / 2)%float = 0.8%float
  ∧ ((MemoryManager.text_score (H := Sample.host) searchTerms memory).1
       <? Spec.score_claimed (H := Sample.host) searchTerms memory)%float = true.
Proof. vm_compute. repeat split. Qed.

End TextSearch.

(** ** Access statistics of a search *)
Module Access.
Section WithHost.
Context `{Host}.
Import MemoryManager Spec.


Lemma count_refs_absent k (l : list MemorySearchResult) :
  k ∉ map entry l → count_refs k l = 0%nat.
Proof.
  unfold count_refs. induction l as [|r l IH]; [done|].
  cbn [map]. rewrite not_elem_of_cons. intros [Hne Hnot].
  rewrite filter_cons. destruct (decide (entry r = k)); [congruence | by apply IH].
Qed.



(** *** The final loop *)

Lemma touch_entry_get now (m : JsMap.t MemoryEntry) k k' :
  JsMap.get (touch_entry now m k') k
  = if decide (k = k') then touch now <$> JsMap.get m k else JsMap.get m k.
Proof.
  unfold touch_entry. destruct (decide (k = k')) as [->|Hne].
  - destruct (JsMap.get m k') as [e|] eqn:Hg.
    + by rewrite JsMapFacts.get_set_eq.
    + by rewrite Hg.
  - destruct (JsMap.get m k') as [e|] eqn:Hg; [|done].
    by apply JsMapFacts.get_set_ne.
Qed.

Lemma iter_touch_succ now (n : nat) (memory : MemoryEntry) :
  Nat.iter n (touch now) (touch now memory) = Nat.iter (S n) (touch now) memory.
Proof. induction n as [|n IH]; [done|]. simpl in *. by rewrite IH. Qed.

Lemma update_access_get now (results : list MemorySearchResult)
    (m : JsMap.t MemoryEntry) k :
  JsMap.get (update_access now results m) k
  = Nat.iter (count_refs k results) (touch now) <$> JsMap.get m k.
Proof.
  unfold update_access, count_refs. revert m.
  induction results as [|r results IH]; intros m.
  - simpl. by destruct (JsMap.get m k).
  - cbn [fold_left]. rewrite IH, touch_entry_get, filter_cons.
    destruct (decide (k = entry r)) as [->|Hne].
    + rewrite decide_True by done. cbn [length].
      destruct (JsMap.get m (entry r)); [|done]. simpl.
      f_equal. apply (iter_touch_succ now _ m0).
    + rewrite decide_False by congruence. done.
Qed.

Lemma iter_touch_fields now (n : nat) (memory : MemoryEntry) :
  accessCount (Nat.iter n (touch now) memory) = accessCount memory + Z.of_nat n
  ∧ lastAccessed (Nat.iter n (touch now) memory)
    = (if decide (n = 0%nat) then lastAccessed memory else now)
  ∧ same_but_access memory (Nat.iter n (touch now) memory).
Proof.
  induction n as [|n (IHc & IHl & IHs)].
  - simpl. split; [lia|]. split; [done|]. unfold same_but_access. tauto.
  - cbn [Nat.iter]. unfold same_but_access in *. simpl.
    split; [lia|]. split; [done|]. tauto.
Qed.

(** *** The results before the final loop *)


Lemma performTextSearch_omap (text : string) (m : JsMap.t MemoryEntry) :
  performTextSearch text m
  = omap (text_result (Js.split_ws (Js.toLowerCase text))) m.
Proof. unfold performTextSearch. by rewrite TextSearch.performTextSearch_acc. Qed.

Lemma performSemanticSearch_acc (thr : float) (q : list float)
    (m : JsMap.t MemoryEntry) (acc : list MemorySearchResult) :
  fold_left
    (fun results '(k, memory) =>
       match embedding memory with
       | None => results
       | Some e =>
           let similarity := SemanticSearch.calculateSimilarity q e in
           if (thr <=? similarity)%float
           then results ++ [{| entry := k; score := similarity;
                               relevance := similarity;
                               matchType := Semantic; highlights := [] |}]
           else results
       end) m acc
  = acc ++ omap (semantic_result thr q) m.
Proof.
  revert acc. induction m as [|[k e] m IH]; intros acc.
  - simpl. by rewrite app_nil_r.
  - cbn [fold_left omap list_omap]. rewrite IH.
    unfold semantic_result at 2. cbn [fst snd].
    destruct (embedding e) as [v|]; [|done]. cbv zeta.
    destruct (thr <=? _)%float; [by rewrite <- app_assoc | done].
Qed.

Lemma performSemanticSearch_omap (text : string) (st : t) :
  (performSemanticSearch text st).1
  = omap
      (semantic_result (similarityThreshold (semanticIdx (_index st)))
         (SemanticSearch.generateEmbedding text (_semanticSearch st)).1)
      (_memories st).
Proof.
  unfold performSemanticSearch.
  destruct (SemanticSearch.generateEmbedding text (_semanticSearch st)) as [q cache].
  cbn [fst]. by rewrite performSemanticSearch_acc.
Qed.

Lemma text_result_entry searchTerms p r :
  text_result searchTerms p = Some r → entry r = p.1 ∧ matchType r = Exact.
Proof.
  unfold text_result. destruct (0 <? _)%float; [|done]. by intros [= <-].
Qed.

Lemma semantic_result_entry thr q p r :
  semantic_result thr q p = Some r → entry r = p.1 ∧ matchType r = Semantic.
Proof.
  unfold semantic_result. destruct (embedding p.2); [|done]. cbv zeta.
  destruct (thr <=? _)%float; [|done]. by intros [= <-].
Qed.

(** every matched result refers to a key of the table and is not a related one *)
Lemma matched_elem (query : MemoryQuery) (st : t) r :
  r ∈ matched query st →
  entry r ∈ JsMap.keys (_memories st) ∧ matchType r ≠ Related.
Proof.
  unfold matched. destruct (truthy (q_text query)) as [text|].
  - rewrite elem_of_app, performTextSearch_omap. intros [Hin|Hin].
    + apply list_elem_of_omap in Hin as [p [Hp Hr]].
      apply text_result_entry in Hr as [-> ->]. split; [|done].
      destruct p. eapply JsMapFacts.elem_key, Hp.
    + destruct (q_semanticSearch query); [|by apply elem_of_nil in Hin].
      rewrite performSemanticSearch_omap in Hin.
      apply list_elem_of_omap in Hin as [p [Hp Hr]].
      apply semantic_result_entry in Hr as [-> ->]. split; [|done].
      destruct p. eapply JsMapFacts.elem_key, Hp.
  - intros Hin. by apply elem_of_nil in Hin.
Qed.


Lemma apply_filters_sublist (query : MemoryQuery) (m : JsMap.t MemoryEntry)
    (results : list MemorySearchResult) :
  apply_filters query m results `sublist_of` results.
Proof.
  unfold apply_filters.
  repeat lazymatch goal with
  | |- context [match ?x with _ => _ end] => destruct x
  end;
    repeat (etransitivity; [apply sublist_filter|]); reflexivity.
Qed.

Lemma sort_insert_perm {A} (cmp : A → A → float) (x : A) (l : list A) :
  Js.sort_insert cmp x l ≡ₚ x :: l.
Proof.
  induction l as [|y l IH]; simpl; [done|].
  destruct (cmp x y <? 0)%float; [done|].
  rewrite IH. apply Permutation_swap.
Qed.

Lemma sort_perm {A} (cmp : A → A → float) (l : list A) : Js.sort cmp l ≡ₚ l.
Proof.
  unfold Js.sort.
  assert (Hacc : ∀ acc, fold_left (fun acc x => Js.sort_insert cmp x acc) l acc
                        ≡ₚ acc ++ l).
  { induction l as [|x l IH]; intros acc; simpl.
    - by rewrite app_nil_r.
    - rewrite IH, sort_insert_perm. simpl. apply Permutation_middle. }
  apply Hacc.
Qed.

Lemma slice0_sublist {A} (l : list A) (n : Z) : Js.slice0 l n `sublist_of` l.
Proof. unfold Js.slice0. destruct (n <? 0); apply sublist_take. Qed.

Lemma ranked_elem (query : MemoryQuery) (st : t) r :
  r ∈ ranked query st → r ∈ matched query st.
Proof.
  unfold ranked. intros Hin.
  eapply elem_of_sublist in Hin; [|apply slice0_sublist].
  rewrite sort_perm in Hin.
  eapply elem_of_sublist; [exact Hin | apply apply_filters_sublist].
Qed.


(** *** Entries matched through both channels *)










(** *** Relation expansion *)

Lemma related_of_result_inv (m : JsMap.t MemoryEntry) (processed0 : list string)
    (result : MemorySearchResult) (acc : list MemorySearchResult * list string) :
  related_inv m processed0 acc →
  related_inv m processed0 (related_of_result m result acc).
Proof.
  unfold related_of_result.
  generalize (default [] (relatedEntries <$> deref m result)). intros ids.
  revert acc. induction ids as [|relatedId ids IH]; intros [rr P] Hinv; [done|].
  cbn [fold_left]. apply IH. unfold Js.arr_includes.
  destruct (bool_decide_reflect (relatedId ∈ P)) as [Hin|Hnin]; [done|].
  destruct (JsMap.get m relatedId) as [relatedMemory|] eqn:Hget; [|done].
  destruct Hinv as (HP & Hnd & Hall). cbn [fst snd] in *. subst P.
  rewrite not_elem_of_app in Hnin. destruct Hnin as [Hn0 Hnrr].
  unfold related_inv. cbn [fst snd]. rewrite map_app. cbn [map entry].
  split; [by rewrite app_assoc|]. split.
  - apply NoDup_app. split; [done|]. split; [|apply NoDup_singleton].
    intros x Hx Hx'. apply list_elem_of_singleton in Hx'. by subst.
  - apply Forall_app. split; [done|]. apply Forall_singleton.
    cbn [entry matchType]. rewrite Hget. done.
Qed.

Lemma getRelatedMemories_inv (m : JsMap.t MemoryEntry)
    (results : list MemorySearchResult) :
  let processed0 := omap (fun r => id <$> deref m r) results in
  NoDup (map entry (getRelatedMemories m results))
  ∧ Forall (fun r => (entry r ∉ processed0) ∧ matchType r = Related
                     ∧ is_Some (JsMap.get m (entry r)))
      (getRelatedMemories m results).
Proof.
  intros processed0. unfold getRelatedMemories. fold processed0.
  assert (Hfold : ∀ (rs : list MemorySearchResult) acc,
            related_inv m processed0 acc →
            related_inv m processed0
              (fold_left (fun acc result => related_of_result m result acc) rs acc)).
  { induction rs as [|r rs IH]; intros acc Hinv; [done|].
    cbn [fold_left]. by apply IH, related_of_result_inv. }
  destruct (Hfold results ([], processed0)) as (_ & Hnd & Hall); [|done].
  unfold related_inv. cbn [fst snd map]. rewrite app_nil_r.
  split; [done|]. split; [apply NoDup_nil_2 | apply Forall_nil_2].
Qed.


(** *** The whole search *)

Lemma searchMemories_results (query : MemoryQuery) (now : Z) (st : t) :
  (searchMemories query now st).2
  = ranked query st
    ++ (if q_includeRelated query
        then getRelatedMemories (_memories st) (ranked query st) else [])
  ∧ _memories (searchMemories query now st).1
    = update_access now (searchMemories query now st).2 (_memories st).
Proof.
  unfold searchMemories, ranked, matched.
  destruct (truthy (q_text query)) as [text|];
    destruct (q_semanticSearch query);
    try destruct (performSemanticSearch text st) as [sem cache];
    destruct (q_includeRelated query);
    cbn [fst snd _memories]; rewrite ?app_nil_r; done.
Qed.



End WithHost.


(** with a limit of one result the same search returns the entry once,
    though both channels matched it, and increments it by one *)
Lemma search_cut_counts_once :
  let st :=
    (MemoryManager.storeMemory (H := Sample.host) conversation "react"
       Sample.noMetadata None (instant 1) "a" Sample.fresh).1 in
  let query :=
    {| q_text := Some "react"; q_type := None; q_tags := None;
       q_projectId := None; q_timeRange := None; q_entities := None;
       q_keywords := None; q_minImportance := None; q_maxResults := Some 1;
       q_includeRelated := false; q_semanticSearch := true |} in
  let r := MemoryManager.searchMemories query 2 st in
  map (fun x => (entry x, matchType x)) (Spec.matched query st)
  = [("memory-1-a", Exact); ("memory-1-a", Semantic)]
  ∧ length r.2 = 1%nat
  ∧ accessCount <$> JsMap.get (MemoryManager._memories r.1) "memory-1-a" = Some 1.
Proof. vm_compute. repeat split. Qed.


End Access.

(** ** The table invariants hold in every reachable state *)
Module Invariants.
Section WithHost.
Context `{Host}.
Import MemoryManager Spec.

Lemma elem_set (m : JsMap.t MemoryEntry) k v k' v' :
  (k', v') ∈ JsMap.set m k v → (k', v') = (k, v) ∨ (k', v') ∈ m.
Proof.
  induction m as [|[k0 v0] m IH]; simpl.
  - rewrite list_elem_of_singleton. by left.
  - destruct (String.eqb_spec k0 k) as [->|Hne]; rewrite !elem_of_cons.
    + intros [Heq|Hin]; [by left | right; by right].
    + intros [Heq|Hin]; [right; by left|].
      destruct (IH Hin); [by left | right; by right].
Qed.

Lemma elem_delete (m : JsMap.t MemoryEntry) k p :
  p ∈ JsMap.delete m k → p ∈ m.
Proof.
  induction m as [|[k0 v0] m IH]; simpl; [done|].
  destruct (String.eqb k0 k); rewrite ?elem_of_cons.
  - by right.
  - intros [->|Hin]; [by left | right; by apply IH].
Qed.

Lemma keyed_set (m : JsMap.t MemoryEntry) k v :
  keyed m → id v = k → keyed (JsMap.set m k v).
Proof.
  intros Hk Hid k' v' Hin. apply elem_set in Hin as [[= -> ->]|Hin]; [done|].
  by apply Hk.
Qed.

Lemma keyed_delete (m : JsMap.t MemoryEntry) k : keyed m → keyed (JsMap.delete m k).
Proof. intros Hk k' v' Hin. by apply Hk, (elem_delete m k). Qed.

Lemma touch_entry_ok now (m : JsMap.t MemoryEntry) k :
  JsMap.wf m ∧ keyed m → JsMap.wf (touch_entry now m k) ∧ keyed (touch_entry now m k).
Proof.
  intros [Hwf Hk]. unfold touch_entry.
  destruct (JsMap.get m k) as [e|] eqn:Hget; [|done].
  split; [by apply JsMapFacts.wf_set|].
  apply keyed_set; [done|]. cbn [touch id].
  by apply Hk, JsMapFacts.get_Some_elem.
Qed.

Lemma loadMemories_memories (loaded : list MemoryEntry) (st : t) :
  _memories (loadMemories loaded st)
  = (load_entries loaded (_memories st) (_index st)).1.1.
Proof. unfold loadMemories. by destruct (load_entries _ _ _) as [[m index] [[]|e]]. Qed.

Lemma load_entries_ok (loaded : list MemoryEntry) m (index : MemoryIndex) :
  JsMap.wf m ∧ keyed m →
  JsMap.wf (load_entries loaded m index).1.1 ∧ keyed (load_entries loaded m index).1.1.
Proof.
  revert m index. induction loaded as [|e loaded IH]; intros m index [Hwf Hk]; [done|].
  cbn [load_entries].
  assert (Hset : JsMap.wf (JsMap.set m (id e) e) ∧ keyed (JsMap.set m (id e) e))
    by (split; [by apply JsMapFacts.wf_set | by apply keyed_set]).
  destruct (updateIndex e index) as [index' [[]|err]]; [by apply IH | done].
Qed.

Lemma step_ok (op : Op) (st : t) :
  JsMap.wf (_memories st) ∧ keyed (_memories st) →
  JsMap.wf (_memories (step op st)) ∧ keyed (_memories (step op st)).
Proof.
  intros Hok.
  destruct op as [loaded|type content md importance now rnd|k now|query now]; simpl.
  - rewrite loadMemories_memories. by apply load_entries_ok.
  - unfold storeMemory.
    destruct (ContextAnalyzer.analyzeContent content md); [|done].
    destruct (SemanticSearch.generateEmbedding _ _) as [emb cache].
    destruct Hok as [Hwf Hk].
    destruct (updateIndex _ _) as [index [[]|e]];
      [destruct (MemoryPersistence.saveMemory _ _) as [sto [[]|e]]|];
      cbn [fst _memories];
      (split; [by apply JsMapFacts.wf_set | by apply keyed_set]).
  - unfold getMemory. destruct (JsMap.get (_memories st) k) as [e|] eqn:Hget; [|done].
    cbn [fst _memories]. destruct Hok as [Hwf Hk].
    split; [by apply JsMapFacts.wf_set|].
    apply keyed_set; [done|]. cbn [touch id]. by apply Hk, JsMapFacts.get_Some_elem.
  - rewrite (proj2 (Access.searchMemories_results query now st)).
    unfold update_access. generalize (searchMemories query now st).2. intros rs.
    revert Hok. generalize (_memories st).
    induction rs as [|r rs IH]; intros m Hm; [done|].
    cbn [fold_left]. by apply IH, touch_entry_ok.
Qed.

Lemma optimizeMemory_ok now (st : t) :
  JsMap.wf (_memories st) ∧ keyed (_memories st) →
  JsMap.wf (_memories (optimizeMemory now st).1)
  ∧ keyed (_memories (optimizeMemory now st).1).
Proof.
  intros [Hwf Hk].
  destruct (Eviction.optimizeMemory_memories now st) as [-> _].
  destruct (Eviction.remove_loop_deleted (toRemove now (_memories st)) (_memories st)
              (_persistence st)) as (deleted & _ & -> & _).
  split; [by apply Eviction.wf_deletes|].
  clear Hwf. revert Hk. generalize (_memories st).
  induction deleted as [|k ks IH]; intros m Hk; [done|].
  cbn [fold_left]. by apply IH, keyed_delete.
Qed.

(** from the manager as constructed, every history of loads, stores,
    lookups and searches leaves a table with distinct keys in which every
    entry is held under its id *)
Lemma run_ok (ops : list Op) (sto : Storage) (now : Z) :
  JsMap.wf (_memories (run ops (init sto now)))
  ∧ keyed (_memories (run ops (init sto now))).
Proof.
  assert (Hgen : ∀ st, JsMap.wf (_memories st) ∧ keyed (_memories st) →
                       JsMap.wf (_memories (run ops st)) ∧ keyed (_memories (run ops st))).
  { unfold run. induction ops as [|op ops IH]; intros st Hok; [done|].
    cbn [fold_left]. by apply IH, step_ok. }
  apply Hgen. split.
  - apply NoDup_nil_2.
  - intros k e Hin. by apply elem_of_nil in Hin.
Qed.

End WithHost.
End Invariants.

(** * Further properties of the code *)

(** ** Lookups and stores *)
Module Lookup.
Section WithHost.
Context `{Host}.
Import MemoryManager Spec.


(** X2: whatever its outcome, [storeMemory] writes the table only under
    the new id: every other key keeps its entry.  It rejects in two cases
    only: the analysis threw, and then nothing at all has changed, or the
    write of the persistence layer failed on the new entry. *)
Theorem storeMemory_frame type content md importance now rnd (st : t) :
  let r := storeMemory type content md importance now rnd st in
  (∀ k, k ≠ memoryId now rnd →
        JsMap.get (_memories r.1) k = JsMap.get (_memories st) k)
  ∧ (∀ e, ContextAnalyzer.analyzeContent content md = Throw e → r = (st, Throw e))
  ∧ (∀ e, r.2 = Throw e →
          ContextAnalyzer.analyzeContent content md = Throw e
          ∨ ∃ analyzed,
              ContextAnalyzer.analyzeContent content md = Ok analyzed
              ∧ (backend_put (stored type content analyzed importance now rnd st)
                   (_persistence st)).2 = Some e).
Proof.
  intros r. subst r.
  destruct (ContextAnalyzer.analyzeContent content md) as [analyzed|e0] eqn:Han.
  - rewrite (Store.storeMemory_analyzed _ _ _ _ _ _ _ _ Han).
    destruct (backend_put _ _) as [sto [e1|]] eqn:Hput; cbn [fst snd _memories].
    + split; [intros k Hne; by apply JsMapFacts.get_set_ne|].
      split; [done|]. intros e [= <-]. right. exists analyzed. by rewrite Hput.
    + split; [intros k Hne; by apply JsMapFacts.get_set_ne|]. done.
  - unfold storeMemory. rewrite Han. cbn [fst snd].
    split; [done|]. split; [by intros e [= <-]|]. intros e [= <-]. by left.
Qed.

(** X3: after a store that succeeds, a lookup of the id of the returned
    entry finds that entry, accessed once.  The entry has the id built from
    the time and the random suffix, the given type and content, the given
    importance or 0.5, access count 0 and the time of the store as creation,
    update and last access; its key is placed last in the table when the id
    is new; the statistics count the table and one more creation. *)
Theorem store_then_get ty text md imp now rnd (st : t) entry0 later :
  (storeMemory ty text md imp now rnd st).2 = Ok entry0 →
  let st' := (storeMemory ty text md imp now rnd st).1 in
  (getMemory (id entry0) later st').2 = Some (touch later entry0)
  ∧ id entry0 = memoryId now rnd
  ∧ type entry0 = ty ∧ content entry0 = text
  ∧ importance entry0 = default 0.5%float imp
  ∧ accessCount entry0 = 0
  ∧ createdAt entry0 = now ∧ updatedAt entry0 = now ∧ lastAccessed entry0 = now
  ∧ (JsMap.get (_memories st) (id entry0) = None →
     JsMap.keys (_memories st') = JsMap.keys (_memories st) ++ [id entry0])
  ∧ totalEntries (_stats st') = Z.of_nat (length (_memories st'))
  ∧ created (recentActivity (_stats st'))
    = created (recentActivity (_stats st)) + 1.
Proof.
  intros Hok st'. subst st'.
  destruct (ContextAnalyzer.analyzeContent text md) as [analyzed|e0] eqn:Han.
  - rewrite (Store.storeMemory_analyzed _ _ _ _ _ _ _ _ Han) in Hok |- *.
    destruct (backend_put _ _) as [sto [e1|]]; [done|].
    cbn [fst snd] in *. injection Hok as <-.
    split.
    { unfold getMemory. cbn [_memories]. by rewrite JsMapFacts.get_set_eq. }
    repeat (split; [reflexivity|]).
    split; [|done].
    intros Hnone. apply JsMapFacts.keys_set_fresh. by apply JsMapFacts.get_None.
  - unfold storeMemory in Hok. by rewrite Han in Hok.
Qed.

End WithHost.

(** a store into the fresh manager, then a lookup at time 5 *)
Lemma store_then_get_witness :
  let r := MemoryManager.storeMemory (H := Sample.host) decision "use hooks"
             Sample.noMetadata None (instant 3) "q" Sample.fresh in
  ∃ entry0,
    r.2 = Ok entry0
    ∧ (MemoryManager.getMemory "memory-3-q" 5 r.1).2 = Some (touch 5 entry0)
    ∧ JsMap.keys (MemoryManager._memories r.1) = ["memory-3-q"].
Proof.
  intros r.
  destruct r.2 as [entry0|e] eqn:Hres; [|vm_compute in Hres; discriminate].
  exists entry0. split; [done|].
  destruct (store_then_get (H := Sample.host) decision "use hooks" Sample.noMetadata
              None (instant 3) "q" Sample.fresh entry0 5 Hres)
    as (Hget & Hid & _ & _ & _ & _ & _ & _ & _ & Hkeys & _).
  rewrite Hid in Hget. split; [exact Hget|].
  rewrite Hid in Hkeys. exact (Hkeys eq_refl).
Defined.

End Lookup.

(** ** Searches *)
Module SearchFacts.
Section WithHost.
Context `{Host}.
Import MemoryManager Spec.

Lemma sort_nil {A} (cmp : A → A → float) : Js.sort cmp [] = [].
Proof. reflexivity. Qed.

Lemma slice0_nil {A} (n : Z) : Js.slice0 (@nil A) n = [].
Proof. unfold Js.slice0. destruct (n <? 0); apply take_nil. Qed.

Lemma update_access_keys now (results : list MemorySearchResult)
    (m : JsMap.t MemoryEntry) :
  JsMap.keys (update_access now results m) = JsMap.keys m.
Proof.
  unfold update_access. revert m. induction results as [|r rs IH]; intros m; [done|].
  cbn [fold_left]. rewrite IH. unfold touch_entry.
  destruct (JsMap.get m (entry r)) as [e|] eqn:Hget; [|done].
  apply JsMapFacts.keys_set_present.
  eapply JsMapFacts.elem_key, JsMapFacts.get_Some_elem, Hget.
Qed.

Lemma searchMemories_stats query now (st : t) :
  _stats (searchMemories query now st).1
  = fold_left (fun stats _ => bump_accessed stats) (searchMemories query now st).2
      (_stats st)
  ∧ _persistence (searchMemories query now st).1 = _persistence st.
Proof.
  unfold searchMemories.
  destruct (truthy (q_text query)) as [text|];
    destruct (q_semanticSearch query);
    try destruct (performSemanticSearch text st) as [sem cache];
    destruct (q_includeRelated query); done.
Qed.

Lemma bump_accessed_fold {A} (l : list A) (stats : MemoryStats) :
  let stats' := fold_left (fun stats _ => bump_accessed stats) l stats in
  accessed (recentActivity stats')
  = accessed (recentActivity stats) + Z.of_nat (length l)
  ∧ created (recentActivity stats') = created (recentActivity stats)
  ∧ updated (recentActivity stats') = updated (recentActivity stats)
  ∧ totalEntries stats' = totalEntries stats
  ∧ entriesByType stats' = entriesByType stats
  ∧ averageImportance stats' = averageImportance stats
  ∧ mostAccessedEntries stats' = mostAccessedEntries stats
  ∧ lastOptimized stats' = lastOptimized stats.
Proof.
  revert stats. induction l as [|x l IH]; intros stats; cbn [fold_left length].
  - repeat split; lia.
  - destruct (IH (bump_accessed stats)) as (Ha & Hc & Hu & Ht & He & Hv & Hm & Hl).
    cbn zeta. rewrite Ha, Hc, Hu, Ht, He, Hv, Hm, Hl. simpl. repeat split; lia.
Qed.

(** the statistics after a number of accesses: the counter of accesses
    has grown by that number and every other field is as it was *)
Lemma bump_accessed_record {A} (l : list A) (stats : MemoryStats) :
  fold_left (fun stats _ => bump_accessed stats) l stats
  = {| totalEntries := totalEntries stats;
       entriesByType := entriesByType stats;
       averageImportance := averageImportance stats;
       mostAccessedEntries := mostAccessedEntries stats;
       recentActivity :=
         {| created := created (recentActivity stats);
            accessed := accessed (recentActivity stats) + Z.of_nat (length l);
            updated := updated (recentActivity stats) |};
       storageSize := storageSize stats;
       indexSize := indexSize stats;
       lastOptimized := lastOptimized stats |}.
Proof.
  revert stats. induction l as [|x l IH]; intros stats; cbn [fold_left length].
  - destruct stats as [? ? ? ? [c a u] ? ? ?]. cbn. do 2 f_equal. lia.
  - rewrite IH. unfold bump_accessed. cbn. do 2 f_equal. lia.
Qed.

Lemma searchMemories_cache query now (st : t) :
  _semanticSearch (searchMemories query now st).1
  = match q_semanticSearch query, truthy (q_text query) with
    | true, Some text =>
        (SemanticSearch.generateEmbedding text (_semanticSearch st)).2
    | _, _ => _semanticSearch st
    end.
Proof.
  unfold searchMemories, performSemanticSearch.
  destruct (truthy (q_text query)) as [text|];
    destruct (q_semanticSearch query);
    try destruct (SemanticSearch.generateEmbedding text (_semanticSearch st))
      as [q cache];
    destruct (q_includeRelated query); done.
Qed.

(** X4: a search changes nothing of the manager but the access fields of
    the entries returned, the embedding cache and the access counter of
    the statistics.  The keys of the table and their order, the indexes and
    the storage are as before.  An entry of the table differs from what it
    was in its access count and its last access only, and not at all when
    no result refers to it; no entry is added.  The embedding cache is as
    the embedding of the query text left it when the semantic search is on,
    and as it was otherwise.  The counter of accesses grows by the number
    of result items while every other statistic stays: the counters of
    creations and updates, the number of entries, the counts by type, the
    average importance, the most accessed entries, the sizes of the
    storage and of the index and the time of the last optimisation. *)
Theorem searchMemories_frame (query : MemoryQuery) (now : Z) (st : t) :
  let st' := (searchMemories query now st).1 in
  let results := (searchMemories query now st).2 in
  JsMap.keys (_memories st') = JsMap.keys (_memories st)
  ∧ _index st' = _index st
  ∧ _persistence st' = _persistence st
  ∧ accessed (recentActivity (_stats st'))
    = accessed (recentActivity (_stats st)) + Z.of_nat (length results)
  ∧ created (recentActivity (_stats st')) = created (recentActivity (_stats st))
  ∧ totalEntries (_stats st') = totalEntries (_stats st)
  ∧ mostAccessedEntries (_stats st') = mostAccessedEntries (_stats st)
  ∧ (∀ k, k ∉ map entry results →
          JsMap.get (_memories st') k = JsMap.get (_memories st) k)
  ∧ updated (recentActivity (_stats st')) = updated (recentActivity (_stats st))
  ∧ entriesByType (_stats st') = entriesByType (_stats st)
  ∧ averageImportance (_stats st') = averageImportance (_stats st)
  ∧ storageSize (_stats st') = storageSize (_stats st)
  ∧ indexSize (_stats st') = indexSize (_stats st)
  ∧ lastOptimized (_stats st') = lastOptimized (_stats st)
  ∧ (∀ k memory, JsMap.get (_memories st) k = Some memory →
       ∃ memory', JsMap.get (_memories st') k = Some memory'
                  ∧ same_but_access memory memory')
  ∧ (∀ k, JsMap.get (_memories st) k = None → JsMap.get (_memories st') k = None)
  ∧ _semanticSearch st'
    = match q_semanticSearch query, truthy (q_text query) with
      | true, Some text =>
          (SemanticSearch.generateEmbedding text (_semanticSearch st)).2
      | _, _ => _semanticSearch st
      end.
Proof.
  intros st' results.
  destruct (Access.searchMemories_results query now st) as [_ Hmem].
  destruct (searchMemories_stats query now st) as [Hstats Hsto].
  fold st' in Hmem, Hstats, Hsto. fold results in Hmem, Hstats.
  rewrite bump_accessed_record in Hstats.
  split; [rewrite Hmem; apply update_access_keys|].
  split; [apply Recent.searchMemories_index|].
  split; [done|].
  do 4 (split; [by rewrite Hstats|]).
  split.
  { intros k Hk. rewrite Hmem, Access.update_access_get.
    rewrite (Access.count_refs_absent k results Hk).
    by destruct (JsMap.get (_memories st) k). }
  do 6 (split; [by rewrite Hstats|]).
  split; [|split].
  - intros k memory Hget.
    exists (Nat.iter (Spec.count_refs k results) (touch now) memory). split.
    + by rewrite Hmem, Access.update_access_get, Hget.
    + apply Access.iter_touch_fields.
  - intros k Hget. by rewrite Hmem, Access.update_access_get, Hget.
  - apply searchMemories_cache.
Qed.

(** X5: a query without text, or with the empty text, returns no result,
    whatever filters and flags it carries, and leaves the manager as it
    was: the filters select among text and semantic matches only. *)
Theorem search_without_text (query : MemoryQuery) (now : Z) (st : t) :
  q_text query = None ∨ q_text query = Some "" →
  searchMemories query now st = (st, []).
Proof.
  intros Htext.
  assert (Hnone : truthy (q_text query) = None) by (destruct Htext as [-> | ->]; done).
  unfold searchMemories. rewrite Hnone.
  assert (Hfil : apply_filters query (_memories st) [] = []).
  { apply list_nil_subseteq, sublist_subseteq, Access.apply_filters_sublist. }
  destruct (q_semanticSearch query); cbn zeta; rewrite Hfil, sort_nil, slice0_nil;
    destruct (q_includeRelated query); cbn [app getRelatedMemories fold_left fst omap
      list_omap update_access]; by destruct st.
Qed.

Lemma apply_filters_elem (query : MemoryQuery) (m : JsMap.t MemoryEntry)
    (rs : list MemorySearchResult) r :
  r ∈ apply_filters query m rs →
  r ∈ rs
  ∧ (∀ ty, q_type query = Some ty →
       on_entry m (fun e => bool_decide (type e = ty)) r = true)
  ∧ (∀ tag more, q_tags query = Some (tag :: more) →
       on_entry m
         (fun e => existsb (fun tag => Js.arr_includes (tags e) tag) (tag :: more)) r
       = true)
  ∧ (∀ project, truthy (q_projectId query) = Some project →
       on_entry m (fun e => bool_decide (projectId (metadata e) = Some project)) r
       = true)
  ∧ (∀ start end_, q_timeRange query = Some (start, end_) →
       on_entry m (fun e => (start <=? createdAt e) && (createdAt e <=? end_)) r = true)
  ∧ (∀ minImportance, q_minImportance query = Some minImportance →
       on_entry m (fun e => (minImportance <=? importance e)%float) r = true).
Proof.
  unfold apply_filters. intros Hin.
  destruct (q_type query) as [ty|];
    destruct (q_tags query) as [[|tag more]|];
    destruct (truthy (q_projectId query)) as [project|];
    destruct (q_timeRange query) as [[start end_]|];
    destruct (q_minImportance query) as [minImportance|];
    cbn zeta in Hin; rewrite ?list_elem_of_filter in Hin;
    repeat match goal with Hc : _ ∧ _ |- _ => destruct Hc end;
    (split; [assumption|]);
    repeat split; intros; simplify_eq; by apply Is_true_true.
Qed.

Lemma on_entry_true (m : JsMap.t MemoryEntry) (p : MemoryEntry → bool) r memory :
  JsMap.get m (entry r) = Some memory → on_entry m p r = true → p memory = true.
Proof. unfold on_entry, deref. by intros ->. Qed.

Lemma truthy_Some (x : option string) s :
  x = Some s → s ≠ "" → truthy x = Some s.
Proof.
  intros -> Hne. unfold truthy. destruct (String.eqb_spec s ""); [done | done].
Qed.

(** the results of a search that are not related ones are ranked ones *)
Lemma unrelated_ranked (query : MemoryQuery) (now : Z) (st : t) r :
  r ∈ (searchMemories query now st).2 → matchType r ≠ Related →
  r ∈ ranked query st.
Proof.
  rewrite (proj1 (Access.searchMemories_results query now st)), elem_of_app.
  intros [Hin|Hin] Hrel; [done|]. exfalso.
  destruct (q_includeRelated query); [|by apply elem_of_nil in Hin].
  destruct (Access.getRelatedMemories_inv (_memories st) (ranked query st)) as [_ Hall].
  rewrite Forall_forall in Hall. by destruct (Hall r Hin) as (_ & ? & _).
Qed.

(** X6: every result of a search that is not a related one refers to an
    entry of the table that passes every filter the query carries: its
    type is the one asked for, it has one of the tags asked for (a list of
    no tags asks for nothing), its project is the one asked for (the empty
    project asks for nothing), its creation time lies in the time range,
    bounds included, and its importance is at least the minimum. *)
Theorem search_filters (query : MemoryQuery) (now : Z) (st : t) r :
  r ∈ (searchMemories query now st).2 → matchType r ≠ Related →
  ∃ memory,
    JsMap.get (_memories st) (entry r) = Some memory
    ∧ (∀ ty, q_type query = Some ty → type memory = ty)
    ∧ (∀ tgs, q_tags query = Some tgs → tgs ≠ [] →
         ∃ tag, tag ∈ tgs ∧ tag ∈ tags memory)
    ∧ (∀ project, q_projectId query = Some project → project ≠ "" →
         projectId (metadata memory) = Some project)
    ∧ (∀ start end_, q_timeRange query = Some (start, end_) →
         start ≤ createdAt memory ≤ end_)
    ∧ (∀ minImportance, q_minImportance query = Some minImportance →
         (minImportance <=? importance memory)%float = true).
Proof.
  intros Hin Hrel. apply unrelated_ranked in Hin; [|done].
  pose proof (Access.ranked_elem query st r Hin) as Hm.
  apply Access.matched_elem in Hm as [Hkey _].
  destruct (JsMap.get (_memories st) (entry r)) as [memory|] eqn:Hget;
    [|by apply JsMapFacts.get_None in Hget].
  exists memory. split; [done|].
  unfold ranked in Hin.
  eapply elem_of_sublist in Hin; [|apply Access.slice0_sublist].
  rewrite Access.sort_perm in Hin.
  apply apply_filters_elem in Hin as (_ & Hty & Htags & Hproj & Htime & Himp).
  split; [|split; [|split; [|split]]].
  - intros ty Hq. apply Hty in Hq. apply (on_entry_true _ _ _ _ Hget) in Hq.
    by apply bool_decide_eq_true in Hq.
  - intros [|tag more] Hq Hne; [done|]. apply Htags in Hq.
    apply (on_entry_true _ _ _ _ Hget) in Hq.
    apply existsb_exists in Hq as [tg [Htg Hinc]]. exists tg.
    split; [by apply list_elem_of_In|].
    unfold Js.arr_includes in Hinc. by apply bool_decide_eq_true in Hinc.
  - intros project Hq Hne. apply (truthy_Some _ _ Hq), Hproj in Hne.
    apply (on_entry_true _ _ _ _ Hget) in Hne.
    by apply bool_decide_eq_true in Hne.
  - intros start end_ Hq. apply Htime in Hq.
    apply (on_entry_true _ _ _ _ Hget) in Hq.
    apply andb_true_iff in Hq as [H1 H2]. lia.
  - intros minImportance Hq. apply Himp in Hq.
    by apply (on_entry_true _ _ _ _ Hget) in Hq.
Qed.

(** X7: with a positive limit, the limit itself or 20 when the query gives
    none or gives 0, the results of a search are at most that many matches,
    followed by related results only; without relation expansion nothing
    follows, so the whole answer is within the limit.  The matches returned
    are among the matches found, each as often as it was found. *)
Theorem search_limit (query : MemoryQuery) (now : Z) (st : t) :
  0 < maxResults query →
  ∃ direct related,
    (searchMemories query now st).2 = direct ++ related
    ∧ (length direct ≤ Z.to_nat (maxResults query))%nat
    ∧ direct ⊆+ matched query st
    ∧ Forall (fun r => matchType r = Related) related
    ∧ (q_includeRelated query = false → related = [])
    ∧ (q_maxResults query = None ∨ q_maxResults query = Some 0 →
       maxResults query = 20).
Proof.
  intros Hpos. exists (ranked query st).
  exists (if q_includeRelated query
          then getRelatedMemories (_memories st) (ranked query st) else []).
  split; [apply Access.searchMemories_results|].
  split.
  { unfold ranked, Js.slice0.
    destruct (Z.ltb_spec (maxResults query) 0) as [Hneg|_]; [lia|].
    rewrite length_take. lia. }
  split.
  { unfold ranked. etransitivity; [apply sublist_submseteq, Access.slice0_sublist|].
    rewrite Access.sort_perm. apply sublist_submseteq, Access.apply_filters_sublist. }
  split.
  { destruct (q_includeRelated query); [|apply Forall_nil_2].
    destruct (Access.getRelatedMemories_inv (_memories st) (ranked query st))
      as [_ Hall].
    eapply Forall_impl; [exact Hall|]. by intros r (_ & ? & _). }
  split; [by intros ->|].
  unfold maxResults. by intros [-> | ->].
Qed.

End WithHost.

(** a query with a type filter and no text, on the scenario *)
Lemma search_without_text_witness :
  let query :=
    {| q_text := Some ""; q_type := Some research; q_tags := None;
       q_projectId := None; q_timeRange := None; q_entities := None;
       q_keywords := None; q_minImportance := None; q_maxResults := None;
       q_includeRelated := true; q_semanticSearch := true |} in
  (MemoryManager.searchMemories (H := Sample.host) query 7
     (Sample.manager Sample.scenario)).2 = [].
Proof.
  intros query.
  rewrite (search_without_text (H := Sample.host) query 7
             (Sample.manager Sample.scenario)); [reflexivity|].
  right. reflexivity.
Defined.

(** the scenario searched for "notes" among the research entries of
    importance 0.5 at least *)
Lemma search_filters_witness :
  let query :=
    {| q_text := Some "notes"; q_type := Some research; q_tags := None;
       q_projectId := None; q_timeRange := Some (0, 10); q_entities := None;
       q_keywords := None; q_minImportance := Some 0.5%float; q_maxResults := None;
       q_includeRelated := false; q_semanticSearch := false |} in
  let st := Sample.manager Sample.scenario in
  ∃ r memory,
    r ∈ (MemoryManager.searchMemories (H := Sample.host) query 7 st).2
    ∧ JsMap.get (MemoryManager._memories st) (entry r) = Some memory
    ∧ type memory = research
    ∧ 0 ≤ createdAt memory ≤ 10.
Proof.
  intros query st.
  destruct (MemoryManager.searchMemories (H := Sample.host) query 7 st).2
    as [|r rest] eqn:Hrs; [vm_compute in Hrs; discriminate|].
  assert (Hin : r ∈ (MemoryManager.searchMemories (H := Sample.host) query 7 st).2)
    by (rewrite Hrs; apply list_elem_of_here).
  assert (Hrel : matchType r ≠ Related).
  { vm_compute in Hrs. injection Hrs as <- _. discriminate. }
  destruct (search_filters (H := Sample.host) query 7 st r Hin Hrel)
    as (memory & Hget & Hty & _ & _ & Htime & _).
  exists r, memory.
  split; [apply list_elem_of_here|]. split; [exact Hget|].
  split; [exact (Hty research eq_refl) | exact (Htime 0 10 eq_refl)].
Defined.

(** the library searched for "react" with a limit of one result *)
Lemma search_limit_witness :
  let query :=
    {| q_text := Some "react"; q_type := None; q_tags := None;
       q_projectId := None; q_timeRange := None; q_entities := None;
       q_keywords := None; q_minImportance := None; q_maxResults := Some 1;
       q_includeRelated := false; q_semanticSearch := false |} in
  let st := Sample.manager Sample.library in
  (length (MemoryManager.searchMemories (H := Sample.host) query 7 st).2 ≤ 1)%nat
  ∧ length (Spec.matched (H := Sample.host) query st) = 2%nat.
Proof.
  intros query st.
  destruct (search_limit (H := Sample.host) query 7 st)
    as (direct & related & -> & Hlen & _ & _ & Hnone & _); [reflexivity|].
  rewrite (Hnone eq_refl), app_nil_r.
  split; [exact Hlen | vm_compute; reflexivity].
Defined.

End SearchFacts.

(** ** The optimisation: what it leaves behind *)
Module Optimize.
Section WithHost.
Context `{Host}.
Import MemoryManager Spec Notions.


(** where the removal loop stops when a delete fails *)
Lemma remove_loop_throw (ids : list string) (m : JsMap.t MemoryEntry) sto e :
  (remove_loop ids m sto).2 = Throw e →
  ∃ done_ k rest,
    ids = done_ ++ k :: rest
    ∧ (remove_loop ids m sto).1.1 = fold_left JsMap.delete (done_ ++ [k]) m
    ∧ backend_delete k (delete_all done_ sto) = ((remove_loop ids m sto).1.2, Some e).
Proof.
  revert m sto. induction ids as [|i ids IH]; intros m sto; simpl; [discriminate|].
  unfold MemoryPersistence.deleteMemory.
  destruct (backend_delete i sto) as [sto' [e'|]] eqn:Hdel; simpl.
  - intros [= ->]. exists [], i, ids. done.
  - intros Hthrow.
    destruct (IH (JsMap.delete m i) sto' Hthrow) as (done_ & k & rest & -> & Hm & Hsto).
    exists (i :: done_), k, rest. split; [done|]. split; [done|].
    unfold delete_all in *. cbn [fold_left]. by rewrite Hdel.
Qed.

Lemma optimizeMemory_rest now (st : t) :
  let r := remove_loop (toRemove now (_memories st)) (_memories st) (_persistence st) in
  _persistence (optimizeMemory now st).1 = r.1.2
  ∧ _semanticSearch (optimizeMemory now st).1 = _semanticSearch st
  ∧ (∀ e, r.2 = Throw e →
       _index (optimizeMemory now st).1 = _index st
       ∧ _stats (optimizeMemory now st).1 = _stats st)
  ∧ (r.2 = Ok tt →
       _index (optimizeMemory now st).1 = (rebuildIndex r.1.1).1
       ∧ _stats (optimizeMemory now st).1
         = if dated (JsMap.values r.1.1)
           then set_lastOptimized now
                  (updateStats r.1.1 (rebuildIndex r.1.1).1 (_stats st))
           else _stats st).
Proof.
  unfold optimizeMemory.
  destruct (remove_loop _ _ _) as [[m' sto'] [[]|e]]; cbn [fst snd].
  - unfold rebuildIndex. rewrite Recent.rebuild_loop_fold.
    destruct (dated (JsMap.values m')); cbn; repeat split; done.
  - cbn. repeat split; done.
Qed.

Lemma marked_evictable now (m : JsMap.t MemoryEntry) k :
  JsMap.wf m → k ∈ toRemove now m →
  ∃ memory, JsMap.get m k = Some memory ∧ evictable now memory = true.
Proof.
  intros Hwf. rewrite Eviction.toRemove_spec. unfold JsMap.keys.
  rewrite list_elem_of_fmap. intros [[k' e] [-> Hin]].
  apply list_elem_of_filter in Hin as [Hev Hin]. exists e.
  split; [by apply JsMapFacts.elem_get | by apply Is_true_true].
Qed.

(** the two ways in which [optimizeMemory] rejects: a delete of the
    persistence layer fails, or every delete succeeds and the rebuild meets
    an entry whose creation time is not a time value *)
Lemma optimizeMemory_Throw now (st : t) e :
  (optimizeMemory now st).2 = Throw e →
  let r := remove_loop (toRemove now (_memories st)) (_memories st) (_persistence st) in
  r.2 = Throw e
  ∨ (r.2 = Ok tt ∧ e = "RangeError" ∧ dated (JsMap.values r.1.1) = false).
Proof.
  unfold optimizeMemory.
  destruct (remove_loop _ _ _) as [[m' sto'] [[]|e']]; cbn [fst snd].
  - unfold rebuildIndex. rewrite Recent.rebuild_loop_fold.
    destruct (dated (JsMap.values m')); cbn [fst snd]; [done|].
    intros [= <-]. by right.
  - intros [= <-]. by left.
Qed.

(** X8: when a delete of the persistence layer fails, [optimizeMemory]
    rejects with that error and stops half way.  The key whose delete
    failed is an entry that passed the eviction test and is gone from the
    table all the same, as are the marked keys before it; the marked keys
    after it and every other entry are still there.  The indexes and the
    statistics are left as they were before the call: they are not rebuilt
    and still describe the entries removed. *)
Theorem optimize_failure now (st : t) e :
  JsMap.wf (_memories st) →
  (remove_loop (toRemove now (_memories st)) (_memories st) (_persistence st)).2
  = Throw e →
  let st' := (optimizeMemory now st).1 in
  (optimizeMemory now st).2 = Throw e
  ∧ _index st' = _index st
  ∧ _stats st' = _stats st
  ∧ _semanticSearch st' = _semanticSearch st
  ∧ ∃ done_ k rest memory,
      toRemove now (_memories st) = done_ ++ k :: rest
      ∧ JsMap.get (_memories st) k = Some memory
      ∧ evictable now memory = true
      ∧ backend_delete k (delete_all done_ (_persistence st))
        = (_persistence st', Some e)
      ∧ (∀ k', JsMap.get (_memories st') k'
               = if decide (k' ∈ done_ ++ [k]) then None
                 else JsMap.get (_memories st) k').
Proof.
  intros Hwf Hthrow st'. subst st'.
  destruct (Eviction.optimizeMemory_memories now st) as [Hm Hr].
  destruct (optimizeMemory_rest now st) as (Hsto & Hcache & Hfail & _).
  cbn zeta in *. rewrite Hthrow in Hr.
  destruct (Hfail e Hthrow) as [Hidx Hstats].
  split; [done|]. split; [done|]. split; [done|]. split; [done|].
  destruct (remove_loop_throw _ _ _ _ Hthrow) as (done_ & k & rest & Hids & Hdel & Hback).
  destruct (marked_evictable now (_memories st) k Hwf) as (memory & Hget & Hev).
  { rewrite Hids, elem_of_app, elem_of_cons. right. by left. }
  exists done_, k, rest, memory. split; [done|]. split; [done|]. split; [done|].
  split; [by rewrite Hsto|].
  intros k'. rewrite Hm, Hdel. by apply Eviction.get_deletes.
Qed.





End WithHost.

(** the scenario at day 40 over a storage that has gone offline: the
    second entry is gone from the table and still in the type index *)
Lemma optimize_failure_witness :
  let st' := (MemoryManager.optimizeMemory (40 * Sample.day) Notions.stranded).1 in
  MemoryManager._index st' = MemoryManager._index Notions.stranded
  ∧ JsMap.get (MemoryManager._memories st') "m2" = None
  ∧ "m2" ∈ Notions.bucket (byType (MemoryManager._index st')) "conversation".
Proof.
  assert (Hwf : JsMap.wf (MemoryManager._memories Notions.stranded)).
  { apply (bool_decide_unpack _). vm_compute. exact I. }
  assert (Hthrow : (MemoryManager.remove_loop
                      (MemoryManager.toRemove (40 * Sample.day)
                         (MemoryManager._memories Notions.stranded))
                      (MemoryManager._memories Notions.stranded)
                      (MemoryManager._persistence Notions.stranded)).2
                   = Throw "InvalidStateError") by (vm_compute; reflexivity).
  destruct (optimize_failure (40 * Sample.day) Notions.stranded "InvalidStateError"
              Hwf Hthrow) as (_ & Hidx & _ & _ & _).
  split; [exact Hidx|]. split; [vm_compute; reflexivity|].
  rewrite Hidx. apply (bool_decide_unpack _). vm_compute. exact I.
Defined.



End Optimize.

(** ** The indexes and the table *)
Module IndexFacts.
Section WithHost.
Context `{Host}.
Import MemoryManager Spec Notions.

Lemma bucket_file_one (l : list string) (m : gmap string (list string))
    (i key : string) :
  bucket (fold_left (fun m k => bucket_push m k i) l m) key
  = bucket m key ++ map (fun _ => i) (filter (fun k => k = key) l).
Proof.
  unfold bucket. revert m. induction l as [|k l IH]; intros m; cbn [fold_left].
  - by rewrite app_nil_r.
  - rewrite IH, Store.lookup_bucket_push, filter_cons, <- app_assoc. f_equal.
    destruct (decide (key = k)) as [->|Hne].
    + by rewrite decide_True.
    + by rewrite decide_False by congruence.
Qed.

Lemma bucket_file_all (keys_of : MemoryEntry → list string) (es : list MemoryEntry)
    (m : gmap string (list string)) (key : string) :
  bucket (file_all keys_of es m) key = bucket m key ++ filings keys_of key es.
Proof.
  unfold file_all, filings. revert m.
  induction es as [|e es IH]; intros m; cbn [fold_left flat_map].
  - by rewrite app_nil_r.
  - by rewrite IH, bucket_file_one, app_assoc.
Qed.

Lemma lookup_file_one (l : list string) (m : gmap string (list string))
    (i key : string) :
  fold_left (fun m k => bucket_push m k i) l m !! key = None
  ↔ m !! key = None ∧ key ∉ l.
Proof.
  revert m. induction l as [|k l IH]; intros m; cbn [fold_left].
  - rewrite elem_of_nil. tauto.
  - rewrite IH, not_elem_of_cons. unfold bucket_push.
    destruct (decide (k = key)) as [->|Hne].
    + rewrite lookup_insert_eq. naive_solver.
    + rewrite lookup_insert_ne by done. naive_solver.
Qed.

Lemma lookup_file_all (keys_of : MemoryEntry → list string) (es : list MemoryEntry)
    (m : gmap string (list string)) (key : string) :
  file_all keys_of es m !! key = None
  ↔ m !! key = None ∧ ∀ e, e ∈ es → key ∉ keys_of e.
Proof.
  unfold file_all. revert m.
  induction es as [|e es IH]; intros m; cbn [fold_left].
  - split; [intros Hm; split; [done|]; by intros e He%elem_of_nil | tauto].
  - rewrite IH, lookup_file_one. split.
    + intros [[Hm He] Hes]. split; [done|]. intros e' [->|Hin]%elem_of_cons; auto.
    + intros [Hm Hes]. split; [split; [done|]|].
      * apply Hes, list_elem_of_here.
      * intros e' Hin. by apply Hes, list_elem_of_further.
Qed.

Lemma elem_filings (keys_of : MemoryEntry → list string) (key : string)
    (es : list MemoryEntry) (i : string) :
  i ∈ filings keys_of key es ↔ ∃ e, e ∈ es ∧ id e = i ∧ key ∈ keys_of e.
Proof.
  unfold filings. rewrite list_elem_of_In, in_flat_map. split.
  - intros [e [He Hi]]. exists e.
    apply list_elem_of_In in He. apply list_elem_of_In in Hi.
    apply (list_elem_of_fmap (A := string)) in Hi as [k [-> Hk]].
    apply list_elem_of_filter in Hk as [-> Hk]. done.
  - intros [e (He & <- & Hk)]. exists e.
    split; [by apply list_elem_of_In|]. apply list_elem_of_In. apply (list_elem_of_fmap (A := string)). exists key.
    split; [done|]. by apply list_elem_of_filter.
Qed.

(** what [updateIndex] does to each of the five bucket maps it fills
    before it reads the date *)
Lemma entry_indexes_updateIndex (memory : MemoryEntry) (index : MemoryIndex)
    proj keys_of :
  (proj, keys_of) ∈ entry_indexes →
  proj (updateIndex memory index).1
  = fold_left (fun m k => bucket_push m k (id memory)) (keys_of memory) (proj index).
Proof.
  unfold entry_indexes. rewrite !elem_of_cons, elem_of_nil.
  intros [Heq|[Heq|[Heq|[Heq|[Heq|[]]]]]];
    injection Heq as -> ->; unfold updateIndex; destruct (Date_valid _);
    cbn [fst byType byTag byProject byEntity byKeyword]; try reflexivity.
  - unfold project_keys. by destruct (truthy (projectId (metadata memory))).
  - unfold project_keys. by destruct (truthy (projectId (metadata memory))).
  - unfold entity_keys.
    generalize (byEntity index). induction (entities (metadata memory)) as [|x l IH];
      intros b; [done|]. cbn [fold_left map]. apply IH.
  - unfold entity_keys.
    generalize (byEntity index). induction (entities (metadata memory)) as [|x l IH];
      intros b; [done|]. cbn [fold_left map]. apply IH.
Qed.

(** and to the three it fills after: nothing when the date is invalid *)
Lemma date_indexes_updateIndex (memory : MemoryEntry) (index : MemoryIndex)
    proj keys_of :
  (proj, keys_of) ∈ date_indexes →
  proj (updateIndex memory index).1
  = if Date_valid (createdAt memory)
    then fold_left (fun m k => bucket_push m k (id memory)) (keys_of memory) (proj index)
    else proj index.
Proof.
  unfold date_indexes. rewrite !elem_of_cons, elem_of_nil.
  intros [Heq|[Heq|[Heq|[]]]];
    injection Heq as -> ->; unfold updateIndex; by destruct (Date_valid _).
Qed.

Lemma indexes_split proj keys_of :
  (proj, keys_of) ∈ indexes
  ↔ (proj, keys_of) ∈ entry_indexes ∨ (proj, keys_of) ∈ date_indexes.
Proof.
  unfold indexes, entry_indexes, date_indexes.
  rewrite !elem_of_cons, !elem_of_nil. tauto.
Qed.

(** what [updateIndex] does to each of the eight bucket maps when the
    creation time is a time value *)
Lemma indexes_updateIndex (memory : MemoryEntry) (index : MemoryIndex) proj keys_of :
  Date_valid (createdAt memory) = true →
  (proj, keys_of) ∈ indexes →
  proj (updateIndex memory index).1
  = fold_left (fun m k => bucket_push m k (id memory)) (keys_of memory) (proj index).
Proof.
  intros Hv [Hin|Hin]%indexes_split.
  - by apply entry_indexes_updateIndex.
  - by rewrite (date_indexes_updateIndex memory index proj keys_of Hin), Hv.
Qed.

Lemma indexes_fold (es : list MemoryEntry) (index : MemoryIndex) proj keys_of :
  (proj, keys_of) ∈ indexes →
  dated es = true →
  proj (fold_left (fun index memory => (updateIndex memory index).1) es index)
  = file_all keys_of es (proj index).
Proof.
  intros Hin. unfold file_all. revert index.
  induction es as [|e es IH]; intros index Hd; cbn [fold_left]; [done|].
  cbn [dated forallb] in Hd. apply andb_true_iff in Hd as [Hv Hd].
  by rewrite IH, (indexes_updateIndex e index proj keys_of Hv Hin).
Qed.

Lemma entry_indexes_fold (es : list MemoryEntry) (index : MemoryIndex) proj keys_of :
  (proj, keys_of) ∈ entry_indexes →
  proj (fold_left (fun index memory => (updateIndex memory index).1) es index)
  = file_all keys_of es (proj index).
Proof.
  intros Hin. unfold file_all. revert index.
  induction es as [|e es IH]; intros index; cbn [fold_left]; [done|].
  by rewrite IH, (entry_indexes_updateIndex e index proj keys_of Hin).
Qed.

Lemma date_indexes_fold (es : list MemoryEntry) (index : MemoryIndex) proj keys_of :
  (proj, keys_of) ∈ date_indexes →
  proj (fold_left (fun index memory => (updateIndex memory index).1) (reached es) index)
  = file_all keys_of (indexed_prefix es) (proj index).
Proof.
  intros Hin. unfold file_all. revert index.
  induction es as [|e es IH]; intros index; cbn [reached indexed_prefix]; [done|].
  pose proof (date_indexes_updateIndex e index proj keys_of Hin) as Hstep.
  destruct (Date_valid (createdAt e)); cbn [fold_left].
  - by rewrite IH, Hstep.
  - exact Hstep.
Qed.

Lemma indexes_initial proj keys_of :
  (proj, keys_of) ∈ indexes → proj initializeIndex = ∅.
Proof.
  unfold indexes. rewrite !elem_of_cons, elem_of_nil.
  intros [Heq|[Heq|[Heq|[Heq|[Heq|[Heq|[Heq|[Heq|[]]]]]]]]];
    by injection Heq as -> ->.
Qed.

Lemma recent_fold (es : list MemoryEntry) (index : MemoryIndex) :
  (length (recent (temporal index)) ≤ 100)%nat →
  recent (temporal
            (fold_left (fun index memory => (updateIndex memory index).1)
               (reached es) index))
  = take 100 (reverse (map id (indexed_prefix es)) ++ recent (temporal index)).
Proof.
  intros Hlen.
  pose proof (Recent.load_entries_recent es [] index Hlen) as Hrec.
  by rewrite Recent.load_entries_fold in Hrec.
Qed.

(** the rebuild runs to its end exactly when every creation time of the
    table is a time value *)
Lemma rebuildIndex_completes (m : JsMap.t MemoryEntry) :
  (rebuildIndex m).2 = Ok tt ↔ dated (JsMap.values m) = true.
Proof.
  unfold rebuildIndex. rewrite Recent.rebuild_loop_fold. cbn [snd].
  by destruct (dated (JsMap.values m)).
Qed.

Lemma rebuildIndex_dated (m : JsMap.t MemoryEntry) :
  dated (JsMap.values m) = true →
  (rebuildIndex m).1
  = fold_left (fun index memory => (updateIndex memory index).1) (JsMap.values m)
      initializeIndex.
Proof.
  intros Hd. unfold rebuildIndex.
  by rewrite Recent.rebuild_loop_fold, (Recent.dated_reached _ Hd).
Qed.

Lemma rebuild_bucket (m : JsMap.t MemoryEntry) proj keys_of (key : string) :
  (proj, keys_of) ∈ indexes →
  dated (JsMap.values m) = true →
  bucket (proj (rebuildIndex m).1) key = filings keys_of key (JsMap.values m).
Proof.
  intros Hin Hd. rewrite (rebuildIndex_dated m Hd).
  rewrite (indexes_fold _ _ proj keys_of Hin Hd), (indexes_initial proj keys_of Hin).
  rewrite bucket_file_all. unfold bucket. by rewrite lookup_empty.
Qed.

Lemma rebuild_absent (m : JsMap.t MemoryEntry) proj keys_of (key : string) :
  (proj, keys_of) ∈ indexes →
  dated (JsMap.values m) = true →
  proj (rebuildIndex m).1 !! key = None ↔ ∀ e, e ∈ JsMap.values m → key ∉ keys_of e.
Proof.
  intros Hin Hd. rewrite (rebuildIndex_dated m Hd).
  rewrite (indexes_fold _ _ proj keys_of Hin Hd), (indexes_initial proj keys_of Hin).
  rewrite lookup_file_all, lookup_empty. tauto.
Qed.

(** X11: the index that [optimizeMemory] rebuilds describes the table and
    nothing else.  The rebuild runs to its end exactly when the creation
    time of every entry of the table is a time value.  In the index it then
    leaves, in each of the eight bucket maps (by type, tag, project,
    entity, keyword, day, week and month) the bucket of a key holds the ids
    of the entries of the table that have that key, in the order of the
    table, once for every occurrence of the key in the entry; a key that
    no entry has is not in the map; and the list of recent entries is the
    first 100 ids of the table, last entry first.  A rebuild that stops at
    an entry whose creation time is not a time value leaves the index of
    the entries it reached: that entry and those before it in the maps by
    type, tag, project, entity and keyword, those before it only in the
    maps by day, week and month and in the list of recent entries. *)
Theorem rebuildIndex_buckets (m : JsMap.t MemoryEntry) proj keys_of (key : string) :
  (proj, keys_of) ∈ indexes →
  ((rebuildIndex m).2 = Ok tt
   ↔ ∀ e, e ∈ JsMap.values m → Date_valid (createdAt e) = true)
  ∧ ((rebuildIndex m).2 = Ok tt →
     bucket (proj (rebuildIndex m).1) key = filings keys_of key (JsMap.values m)
     ∧ (∀ i, i ∈ bucket (proj (rebuildIndex m).1) key
             ↔ ∃ e, e ∈ JsMap.values m ∧ id e = i ∧ key ∈ keys_of e)
     ∧ (proj (rebuildIndex m).1 !! key = None
        ↔ ∀ e, e ∈ JsMap.values m → key ∉ keys_of e)
     ∧ recent (temporal (rebuildIndex m).1)
       = take 100 (reverse (map id (JsMap.values m))))
  ∧ ((proj, keys_of) ∈ entry_indexes →
     bucket (proj (rebuildIndex m).1) key
     = filings keys_of key (reached (JsMap.values m)))
  ∧ ((proj, keys_of) ∈ date_indexes →
     bucket (proj (rebuildIndex m).1) key
     = filings keys_of key (indexed_prefix (JsMap.values m)))
  ∧ recent (temporal (rebuildIndex m).1)
    = take 100 (reverse (map id (indexed_prefix (JsMap.values m)))).
Proof.
  intros Hin. split; [by rewrite rebuildIndex_completes, Recent.dated_Forall|].
  assert (Hpartial :
    ((proj, keys_of) ∈ entry_indexes →
     bucket (proj (rebuildIndex m).1) key
     = filings keys_of key (reached (JsMap.values m)))
    ∧ ((proj, keys_of) ∈ date_indexes →
       bucket (proj (rebuildIndex m).1) key
       = filings keys_of key (indexed_prefix (JsMap.values m)))
    ∧ recent (temporal (rebuildIndex m).1)
      = take 100 (reverse (map id (indexed_prefix (JsMap.values m))))).
  { unfold rebuildIndex. rewrite Recent.rebuild_loop_fold. cbn [fst].
    split; [|split].
    - intros He. rewrite (entry_indexes_fold _ _ proj keys_of He).
      rewrite (indexes_initial proj keys_of Hin), bucket_file_all.
      unfold bucket. by rewrite lookup_empty.
    - intros Hdt. rewrite (date_indexes_fold _ _ proj keys_of Hdt).
      rewrite (indexes_initial proj keys_of Hin), bucket_file_all.
      unfold bucket. by rewrite lookup_empty.
    - rewrite recent_fold by (cbn; lia). cbn. by rewrite app_nil_r. }
  split; [|exact Hpartial]. clear Hpartial.
  intros Hd%rebuildIndex_completes.
  split; [by apply rebuild_bucket|].
  split.
  { intros i. rewrite (rebuild_bucket m proj keys_of key Hin Hd). apply elem_filings. }
  split; [by apply rebuild_absent|].
  rewrite (rebuildIndex_dated m Hd), <- (Recent.dated_reached _ Hd) at 1.
  rewrite recent_fold by (cbn; lia).
  rewrite (Recent.dated_indexed_prefix _ Hd). cbn. by rewrite app_nil_r.
Qed.

Lemma filings_type_keys (key : string) (es : list MemoryEntry) :
  filings type_keys key es
  = map id (filter (fun e => type_key (type e) = key) es).
Proof.
  unfold filings, type_keys. induction es as [|e es IH]; [done|].
  cbn [flat_map]. rewrite IH, !filter_cons, filter_nil.
  by destruct (decide (type_key (type e) = key)).
Qed.

(** X12: after an optimisation that completes, the statistics are exact:
    the number of entries is the size of the table, and the count kept for
    a type is the number of entries of that type in the table, a type
    without entries having no count at all; the most accessed entries are
    at most 10 ids of entries of the table. *)
Theorem optimize_statistics now (st : t) (key : string) :
  (optimizeMemory now st).2 = Ok tt →
  let st' := (optimizeMemory now st).1 in
  let n := length (filter (fun e => type_key (type e) = key)
                     (JsMap.values (_memories st'))) in
  totalEntries (_stats st') = Z.of_nat (length (_memories st'))
  ∧ entriesByType (_stats st') !! key
    = (if decide (n = 0%nat) then None else Some (Z.of_nat n))
  ∧ (length (mostAccessedEntries (_stats st')) ≤ 10)%nat
  ∧ (∀ i, i ∈ mostAccessedEntries (_stats st') →
          ∃ e, e ∈ JsMap.values (_memories st') ∧ id e = i).
Proof.
  intros Hok st' n. subst st' n.
  destruct (Eviction.optimizeMemory_Ok_inv now st Hok)
    as (m & sto & index & _ & Hre & ->).
  assert (Hd : dated (JsMap.values m) = true)
    by (apply rebuildIndex_completes; by rewrite Hre).
  assert (Hindex : index = (rebuildIndex m).1) by (by rewrite Hre).
  subst index. clear Hre Hok.
  cbn [fst _memories _stats set_lastOptimized updateStats totalEntries entriesByType
       mostAccessedEntries].
  split; [done|]. split; [|split].
  - rewrite lookup_fmap.
    assert (Hin : (byType, type_keys) ∈ indexes) by (unfold indexes; set_solver).
    pose proof (rebuild_bucket m byType type_keys key Hin Hd) as Hb.
    pose proof (rebuild_absent m byType type_keys key Hin Hd) as Hnone.
    rewrite filings_type_keys in Hb. unfold bucket in Hb.
    destruct (byType (rebuildIndex m).1 !! key) as [ids|] eqn:Hlook; cbn in Hb |- *.
    + rewrite <- (length_map id), <- Hb.
      destruct ids as [|i ids].
      * exfalso. rewrite (rebuildIndex_dated m Hd) in Hlook.
        rewrite (indexes_fold _ _ byType type_keys Hin Hd) in Hlook.
        assert (Hne : ∀ es (b : gmap string (list string)),
                  (∀ k, b !! k ≠ Some []) → ∀ k, file_all type_keys es b !! k ≠ Some []).
        { unfold file_all, type_keys.
          induction es as [|e es IH]; intros b Hb0 k; cbn [fold_left]; [done|].
          apply IH. intros k'. unfold bucket_push.
          destruct (decide (type_key (type e) = k')) as [->|Hk].
          - rewrite lookup_insert_eq. intros [= Hnil]. by destruct (default [] _).
          - rewrite lookup_insert_ne by done. apply Hb0. }
        apply (Hne (JsMap.values m) ∅ (fun k => ltac:(by rewrite lookup_empty)) key).
        exact Hlook.
      * by rewrite decide_False.
    + rewrite decide_True; [done|].
      destruct (filter _ _) as [|e rest] eqn:Hf; [done|]. exfalso.
      assert (He : e ∈ e :: rest) by apply list_elem_of_here.
      rewrite <- Hf in He. apply list_elem_of_filter in He as [Hty He].
      apply (proj1 Hnone eq_refl e He). unfold type_keys. rewrite Hty.
      apply list_elem_of_here.
  - rewrite length_map. unfold Js.slice0. cbn. rewrite length_take. lia.
  - intros i Hi. apply list_elem_of_fmap in Hi as [e [-> He]]. exists e.
    split; [|done].
    eapply elem_of_sublist in He; [|apply Access.slice0_sublist].
    by rewrite Access.sort_perm in He.
Qed.

(** a load, in terms of the entries its loop reaches *)
Lemma loadMemories_fold (loaded : list MemoryEntry) (st : t) :
  _memories (loadMemories loaded st)
  = fold_left (fun m e => JsMap.set m (id e) e) (reached loaded) (_memories st)
  ∧ _index (loadMemories loaded st)
    = fold_left (fun index memory => (updateIndex memory index).1) (reached loaded)
        (_index st)
  ∧ _stats (loadMemories loaded st)
    = (if dated loaded
       then updateStats (_memories (loadMemories loaded st))
              (_index (loadMemories loaded st)) (_stats st)
       else _stats st)
  ∧ _persistence (loadMemories loaded st) = _persistence st
  ∧ _semanticSearch (loadMemories loaded st) = _semanticSearch st.
Proof.
  unfold loadMemories. rewrite Recent.load_entries_fold.
  by destruct (dated loaded).
Qed.

Lemma get_sets (loaded : list MemoryEntry) (m : JsMap.t MemoryEntry) (k : string) :
  JsMap.get (fold_left (fun m e => JsMap.set m (id e) e) loaded m) k
  = match last (filter (fun e => id e = k) loaded) with
    | Some e => Some e
    | None => JsMap.get m k
    end.
Proof.
  revert m. induction loaded as [|e loaded IH]; intros m; [done|].
  cbn [fold_left]. rewrite IH, filter_cons.
  destruct (decide (id e = k)) as [<-|Hne].
  - destruct (filter _ loaded) as [|e' rest] eqn:Hf.
    + cbn. apply JsMapFacts.get_set_eq.
    + rewrite !last_cons. by destruct (last rest).
  - destruct (last (filter _ loaded)); [done|]. by apply JsMapFacts.get_set_ne.
Qed.

(** where a loop of [updateIndex] over a list stops *)
Lemma reached_split (es : list MemoryEntry) :
  if dated es
  then reached es = es ∧ indexed_prefix es = es
  else ∃ pre e rest,
         es = pre ++ e :: rest
         ∧ dated pre = true
         ∧ Date_valid (createdAt e) = false
         ∧ reached es = pre ++ [e]
         ∧ indexed_prefix es = pre.
Proof.
  induction es as [|e es IH]; [done|].
  cbn [dated forallb reached indexed_prefix].
  destruct (Date_valid (createdAt e)) eqn:Hv; cbn [andb].
  - fold (dated es). destruct (dated es).
    + destruct IH as [-> ->]. done.
    + destruct IH as (pre & e' & rest & -> & Hpre & He' & -> & ->).
      exists (e :: pre), e', rest. cbn [dated forallb]. rewrite Hv.
      repeat split; done.
  - exists [], e, es. repeat split; done.
Qed.

(** X13: a load works through the list the storage returned, entry by
    entry, until the creation time of an entry is not a time value: that
    entry is the last one it reaches, and what comes after it is never
    loaded.  Each entry reached is put in the table under its id, a later
    one replacing an earlier one and an entry of the table with the same
    id; the other entries of the table stay.  Each entry reached is filed
    in the indexes by type, tag, project, entity and keyword, so an id
    loaded twice is twice in its buckets; in the indexes by day, week and
    month and in the list of recent entries only the entries before the
    one with the invalid date are filed.  The statistics are refreshed,
    their number of entries being the size of the table, only when the
    loop gets through the whole list; otherwise they are left as they
    were.  The storage and the embedding cache are not touched. *)
Theorem loadMemories_spec (loaded : list MemoryEntry) (st : t) :
  let st' := loadMemories loaded st in
  (if dated loaded
   then reached loaded = loaded ∧ indexed_prefix loaded = loaded
   else ∃ pre e rest,
          loaded = pre ++ e :: rest
          ∧ dated pre = true
          ∧ Date_valid (createdAt e) = false
          ∧ reached loaded = pre ++ [e]
          ∧ indexed_prefix loaded = pre)
  ∧ _memories st'
    = fold_left (fun m e => JsMap.set m (id e) e) (reached loaded) (_memories st)
  ∧ (∀ k, JsMap.get (_memories st') k
          = match last (filter (fun e => id e = k) (reached loaded)) with
            | Some e => Some e
            | None => JsMap.get (_memories st) k
            end)
  ∧ (∀ proj keys_of key, (proj, keys_of) ∈ entry_indexes →
       bucket (proj (_index st')) key
       = bucket (proj (_index st)) key ++ filings keys_of key (reached loaded))
  ∧ (∀ proj keys_of key, (proj, keys_of) ∈ date_indexes →
       bucket (proj (_index st')) key
       = bucket (proj (_index st)) key ++ filings keys_of key (indexed_prefix loaded))
  ∧ ((length (recent (temporal (_index st))) ≤ 100)%nat →
       recent (temporal (_index st'))
       = take 100 (reverse (map id (indexed_prefix loaded))
                   ++ recent (temporal (_index st))))
  ∧ _stats st'
    = (if dated loaded
       then updateStats (_memories st') (_index st') (_stats st)
       else _stats st)
  ∧ (dated loaded = true → totalEntries (_stats st') = Z.of_nat (length (_memories st')))
  ∧ _persistence st' = _persistence st
  ∧ _semanticSearch st' = _semanticSearch st.
Proof.
  intros st'. subst st'.
  destruct (loadMemories_fold loaded st) as (Hm & Hidx & Hstats & Hsto & Hcache).
  split; [apply reached_split|].
  split; [exact Hm|].
  split; [intros k; rewrite Hm; apply get_sets|].
  split.
  { intros proj keys_of key Hin.
    by rewrite Hidx, (entry_indexes_fold _ _ proj keys_of Hin), bucket_file_all. }
  split.
  { intros proj keys_of key Hin.
    by rewrite Hidx, (date_indexes_fold _ _ proj keys_of Hin), bucket_file_all. }
  split; [intros Hlen; rewrite Hidx; by apply recent_fold|].
  split; [exact Hstats|].
  split; [|done].
  intros Hd. rewrite Hstats, Hd. done.
Qed.

(** *** The index covers the table *)

Lemma updateIndex_grows (memory : MemoryEntry) (index : MemoryIndex) :
  grows index (updateIndex memory index).1.
Proof.
  intros proj keys_of [Hin|Hin]%indexes_split key i Hi.
  - rewrite (entry_indexes_updateIndex memory index proj keys_of Hin), bucket_file_one.
    apply elem_of_app. by left.
  - rewrite (date_indexes_updateIndex memory index proj keys_of Hin).
    destruct (Date_valid _); [|done].
    rewrite bucket_file_one. apply elem_of_app. by left.
Qed.

(** an entry is filed under each of its keys of type, tag, project, entity
    and keyword, whatever its date *)
Lemma updateIndex_filed_entry (memory : MemoryEntry) (index : MemoryIndex)
    proj keys_of key :
  (proj, keys_of) ∈ entry_indexes →
  key ∈ keys_of memory →
  id memory ∈ bucket (proj (updateIndex memory index).1) key.
Proof.
  intros Hin Hkey.
  rewrite (entry_indexes_updateIndex memory index proj keys_of Hin), bucket_file_one.
  apply elem_of_app. right.
  apply (list_elem_of_fmap (A := string)). exists key.
  split; [done|]. by apply list_elem_of_filter.
Qed.

Lemma updateIndex_filed (memory : MemoryEntry) (index : MemoryIndex) :
  Date_valid (createdAt memory) = true →
  filed memory (updateIndex memory index).1.
Proof.
  intros Hv proj keys_of Hin key Hkey.
  rewrite (indexes_updateIndex memory index proj keys_of Hv Hin), bucket_file_one.
  apply elem_of_app. right.
  apply (list_elem_of_fmap (A := string)). exists key.
  split; [done|]. by apply list_elem_of_filter.
Qed.

Lemma filed_grows (memory : MemoryEntry) (index index' : MemoryIndex) :
  grows index index' → filed memory index → filed memory index'.
Proof.
  intros Hg Hf proj keys_of Hin key Hkey.
  apply (Hg proj keys_of Hin). by apply (Hf proj keys_of Hin).
Qed.

Lemma filed_touch now (memory : MemoryEntry) (index : MemoryIndex) :
  filed memory index → filed (touch now memory) index.
Proof.
  intros Hf proj keys_of Hin key Hkey. cbn [touch id].
  apply (Hf proj keys_of Hin). revert Hkey.
  unfold indexes in Hin. rewrite !elem_of_cons, elem_of_nil in Hin.
  destruct Hin as [Heq|[Heq|[Heq|[Heq|[Heq|[Heq|[Heq|[Heq|[]]]]]]]]];
    injection Heq as -> ->; done.
Qed.

Lemma indexed_set (m : JsMap.t MemoryEntry) (index : MemoryIndex)
    (memory : MemoryEntry) :
  Date_valid (createdAt memory) = true →
  indexed m index →
  indexed (JsMap.set m (id memory) memory) (updateIndex memory index).1.
Proof.
  intros Hv Hidx k e Hin. apply Invariants.elem_set in Hin as [[= -> ->]|Hin].
  - by apply updateIndex_filed.
  - eapply filed_grows; [apply updateIndex_grows|]. by eapply Hidx.
Qed.

Lemma indexed_touch_entry now (m : JsMap.t MemoryEntry) (index : MemoryIndex) k :
  indexed m index → indexed (touch_entry now m k) index.
Proof.
  intros Hidx. unfold touch_entry.
  destruct (JsMap.get m k) as [e|] eqn:Hget; [|done].
  intros k' e' Hin. apply Invariants.elem_set in Hin as [[= -> ->]|Hin].
  - apply filed_touch. eapply Hidx, JsMapFacts.get_Some_elem, Hget.
  - by eapply Hidx.
Qed.

Lemma indexed_rebuild (m : JsMap.t MemoryEntry) :
  dated (JsMap.values m) = true → indexed m (rebuildIndex m).1.
Proof.
  intros Hd k e Hin proj keys_of Hp key Hkey.
  rewrite (rebuild_bucket m proj keys_of key Hp Hd). apply elem_filings. exists e.
  split; [|done]. unfold JsMap.values.
  by apply (list_elem_of_fmap_2 snd _ (k, e)).
Qed.

Lemma table_dated_values (m : JsMap.t MemoryEntry) :
  table_dated m ↔ dated (JsMap.values m) = true.
Proof.
  rewrite Recent.dated_Forall. unfold table_dated, JsMap.values. split.
  - intros Hall e Hin.
    apply (list_elem_of_fmap (A := string * MemoryEntry)) in Hin as [[k e'] [-> Hin]].
    by apply (Hall k).
  - intros Hall k e Hin. apply Hall.
    apply (list_elem_of_fmap (A := string * MemoryEntry)). by exists (k, e).
Qed.

Lemma table_dated_touch_entry now (m : JsMap.t MemoryEntry) k :
  table_dated m → table_dated (touch_entry now m k).
Proof.
  intros Hd. unfold touch_entry.
  destruct (JsMap.get m k) as [e|] eqn:Hget; [|done].
  intros k' e' Hin. apply Invariants.elem_set in Hin as [[= -> ->]|Hin].
  - cbn [touch createdAt]. eapply Hd, JsMapFacts.get_Some_elem, Hget.
  - by eapply Hd.
Qed.

Lemma table_dated_deletes (ids : list string) (m : JsMap.t MemoryEntry) :
  table_dated m → table_dated (fold_left JsMap.delete ids m).
Proof.
  revert m. induction ids as [|k ks IH]; intros m Hd; [done|].
  cbn [fold_left]. apply IH. intros k' e' Hin.
  eapply Hd, Invariants.elem_delete, Hin.
Qed.

(** a call that brings in dated entries only keeps the table dated *)
Lemma call_dated (c : Call) (st : t) :
  dated_call c = true →
  table_dated (_memories st) → table_dated (_memories (call c st)).
Proof.
  intros Hc Hd.
  destruct c as [loaded|type content md importance now rnd|k now|query now|now];
    cbn [call dated_call] in *.
  - destruct (loadMemories_fold loaded st) as (-> & _).
    rewrite (Recent.dated_reached _ Hc).
    pose proof (proj1 (Recent.dated_Forall loaded) Hc) as Hall. clear Hc.
    revert Hd Hall. generalize (_memories st).
    induction loaded as [|e loaded IH]; intros m Hd Hall; [done|].
    cbn [fold_left]. apply IH.
    + intros k' e' Hin. apply Invariants.elem_set in Hin as [[= -> ->]|Hin].
      * apply Hall, list_elem_of_here.
      * by eapply Hd.
    + intros e' Hin. by apply Hall, list_elem_of_further.
  - destruct (ContextAnalyzer.analyzeContent content md) as [analyzed|e] eqn:Han.
    + rewrite (Store.storeMemory_analyzed _ _ _ _ _ _ _ _ Han).
      destruct (backend_put _ _) as [sto [e1|]]; cbn [fst _memories];
        (intros k' e' Hin; apply Invariants.elem_set in Hin as [[= -> ->]|Hin];
         [apply Recent.stored_valid | by eapply Hd]).
    + unfold storeMemory. by rewrite Han.
  - unfold getMemory. destruct (JsMap.get (_memories st) k) as [e|] eqn:Hget; [|done].
    cbn [fst _memories]. pose proof (table_dated_touch_entry now _ k Hd) as Ht.
    unfold touch_entry in Ht. by rewrite Hget in Ht.
  - rewrite (proj2 (Access.searchMemories_results query now st)).
    unfold update_access. generalize (searchMemories query now st).2. intros rs.
    revert Hd. generalize (_memories st).
    induction rs as [|r rs IH]; intros m Hm; [done|].
    cbn [fold_left]. by apply IH, table_dated_touch_entry.
  - rewrite (proj1 (Eviction.optimizeMemory_memories now st)).
    destruct (Eviction.remove_loop_deleted (toRemove now (_memories st))
                (_memories st) (_persistence st)) as (deleted & _ & -> & _).
    by apply table_dated_deletes.
Qed.

Lemma call_indexed (c : Call) (st : t) :
  dated_call c = true →
  table_dated (_memories st) →
  indexed (_memories st) (_index st) →
  indexed (_memories (call c st)) (_index (call c st)).
Proof.
  intros Hc Hd Hidx.
  pose proof (call_dated c st Hc Hd) as Hd'.
  destruct c as [loaded|type content md importance now rnd|k now|query now|now];
    cbn [call dated_call] in *.
  - destruct (loadMemories_fold loaded st) as (-> & -> & _).
    rewrite (Recent.dated_reached _ Hc).
    pose proof (proj1 (Recent.dated_Forall loaded) Hc) as Hall. clear Hd Hd' Hc.
    revert Hidx Hall. generalize (_memories st) (_index st).
    induction loaded as [|e loaded IH]; intros m index Hidx Hall; [done|].
    cbn [fold_left]. apply IH.
    + apply indexed_set; [apply Hall, list_elem_of_here | done].
    + intros e' Hin. by apply Hall, list_elem_of_further.
  - destruct (ContextAnalyzer.analyzeContent content md) as [analyzed|e] eqn:Han.
    + rewrite (Store.storeMemory_analyzed _ _ _ _ _ _ _ _ Han).
      destruct (backend_put _ _) as [sto [e1|]]; cbn [fst _memories _index];
        apply (indexed_set _ _ (stored type content analyzed importance now rnd st)
                 (Recent.stored_valid _ _ _ _ _ _ _) Hidx).
    + unfold storeMemory. by rewrite Han.
  - unfold getMemory. destruct (JsMap.get (_memories st) k) as [e|] eqn:Hget; [|done].
    cbn [fst _memories _index]. pose proof (indexed_touch_entry now _ _ k Hidx) as Ht.
    unfold touch_entry in Ht. by rewrite Hget in Ht.
  - rewrite Recent.searchMemories_index,
      (proj2 (Access.searchMemories_results query now st)).
    unfold update_access. generalize (searchMemories query now st).2. intros rs.
    revert Hidx. generalize (_memories st).
    induction rs as [|r rs IH]; intros m Hm; [done|].
    cbn [fold_left]. by apply IH, indexed_touch_entry.
  - destruct (Eviction.optimizeMemory_memories now st) as [Hm Hr].
    destruct (Optimize.optimizeMemory_rest now st) as (_ & _ & Hfail & Hdone).
    cbn zeta in *. rewrite Hm in Hd' |- *.
    destruct ((remove_loop (toRemove now (_memories st)) (_memories st)
                 (_persistence st)).2) as [[]|e] eqn:Hres.
    + destruct (Hdone eq_refl) as [-> _].
      by apply indexed_rebuild, table_dated_values.
    + destruct (Hfail e eq_refl) as [-> _].
      destruct (Eviction.remove_loop_deleted (toRemove now (_memories st))
                  (_memories st) (_persistence st)) as (deleted & _ & -> & _).
      clear -Hidx. revert Hidx. generalize (_memories st).
      induction deleted as [|k ks IH]; intros m Hidx; [done|].
      cbn [fold_left]. apply IH. intros k' e' Hin.
      eapply Hidx, Invariants.elem_delete, Hin.
Qed.

Lemma call_ok (c : Call) (st : t) :
  JsMap.wf (_memories st) ∧ keyed (_memories st) →
  JsMap.wf (_memories (call c st)) ∧ keyed (_memories (call c st)).
Proof.
  intros Hok.
  destruct c as [loaded|type content md importance now rnd|k now|query now|now].
  - apply (Invariants.step_ok (OpLoad loaded) st Hok).
  - apply (Invariants.step_ok (OpStore type content md importance now rnd) st Hok).
  - apply (Invariants.step_ok (OpGet k now) st Hok).
  - apply (Invariants.step_ok (OpSearch query now) st Hok).
  - apply (Invariants.optimizeMemory_ok now st Hok).
Qed.

(** X14: from the manager as constructed, every history of loads, stores,
    lookups, searches and optimisations, whichever of them fail, leaves a
    table with distinct keys in which every entry is held under its own
    id.  When the creation time of every entry that the loads of the
    history bring in is a time value, the creation time of every entry of
    the table is one, and the indexes cover the table: the id of every
    entry of the table is in the bucket of its type, of each of its tags,
    of its project, of each of its entities and keywords, and of the day,
    the week and the month of its creation. *)
Theorem history_invariant (cs : list Call) (sto : Storage) (now : Z) :
  let st := calls cs (init sto now) in
  JsMap.wf (_memories st)
  ∧ keyed (_memories st)
  ∧ (dated_calls cs = true →
       table_dated (_memories st) ∧ indexed (_memories st) (_index st)).
Proof.
  assert (Hgen : ∀ st,
    JsMap.wf (_memories st) ∧ keyed (_memories st) →
    JsMap.wf (_memories (calls cs st)) ∧ keyed (_memories (calls cs st))).
  { unfold calls. induction cs as [|c cs IH]; intros st Hinv; [done|].
    cbn [fold_left]. by apply IH, call_ok. }
  assert (Hcover : ∀ st,
    dated_calls cs = true →
    table_dated (_memories st) ∧ indexed (_memories st) (_index st) →
    table_dated (_memories (calls cs st))
    ∧ indexed (_memories (calls cs st)) (_index (calls cs st))).
  { clear Hgen. unfold calls, dated_calls.
    induction cs as [|c cs IH]; intros st Hcs Hinv; [done|].
    cbn [forallb] in Hcs. apply andb_true_iff in Hcs as [Hc Hcs].
    cbn [fold_left]. apply IH; [done|]. destruct Hinv as [Hd Hidx].
    split; [by apply call_dated | by apply call_indexed]. }
  cbn zeta.
  destruct (Hgen (init sto now)) as [Hwf Hk].
  { split; [apply NoDup_nil_2|]. intros k e Hin. by apply elem_of_nil in Hin. }
  split; [done|]. split; [done|].
  intros Hcs. apply Hcover; [done|].
  split; intros k e Hin; by apply elem_of_nil in Hin.
Qed.

End WithHost.

(** the type index of the scenario, rebuilt *)
Lemma rebuildIndex_buckets_witness :
  Notions.bucket
    (byType (MemoryManager.rebuildIndex (H := Sample.host) Sample.scenario).1)
    "research" = ["m1"].
Proof.
  destruct (rebuildIndex_buckets (H := Sample.host) Sample.scenario byType
              Notions.type_keys "research") as (_ & Hb & _).
  - unfold Notions.indexes. apply list_elem_of_here.
  - destruct Hb as [-> _]; vm_compute; reflexivity.
Defined.

(** the scenario optimised at day 40: one research entry, no conversation *)
Lemma optimize_statistics_witness :
  let st' := (MemoryManager.optimizeMemory (40 * Sample.day)
                (Sample.manager Sample.scenario)).1 in
  entriesByType (MemoryManager._stats st') !! "research" = Some 1
  ∧ entriesByType (MemoryManager._stats st') !! "conversation" = None.
Proof.
  assert (Hok : (MemoryManager.optimizeMemory (40 * Sample.day)
                   (Sample.manager Sample.scenario)).2 = Ok tt)
    by (vm_compute; reflexivity).
  split.
  - destruct (optimize_statistics (40 * Sample.day) (Sample.manager Sample.scenario)
                "research" Hok) as (_ & -> & _). vm_compute. reflexivity.
  - destruct (optimize_statistics (40 * Sample.day) (Sample.manager Sample.scenario)
                "conversation" Hok) as (_ & -> & _). vm_compute. reflexivity.
Defined.

(** a load of three entries of which the second is dated past the last
    time value: the third is never loaded, the second is in the table and
    in the tag index but in no bucket of a day and not among the recent
    entries, and the statistics still count no entry *)
Lemma loadMemories_spec_witness :
  let st' := MemoryManager.loadMemories Sample.batch Sample.fresh in
  JsMap.keys (MemoryManager._memories st') = ["ok1"; "far"]
  ∧ Notions.bucket (byTag (MemoryManager._index st')) "late" = ["far"]
  ∧ Notions.bucket (byDay (temporal (MemoryManager._index st'))) "1970-01-01" = ["ok1"]
  ∧ recent (temporal (MemoryManager._index st')) = ["ok1"]
  ∧ totalEntries (MemoryManager._stats st') = 0.
Proof.
  intros st'.
  destruct (loadMemories_spec (H := Sample.host) Sample.batch Sample.fresh)
    as (_ & Hm & _ & Hentry & Hdate & Hrecent & Hstats & _).
  fold st' in Hm, Hentry, Hdate, Hrecent, Hstats.
  split; [rewrite Hm; vm_compute; reflexivity|].
  split.
  { rewrite (Hentry byTag tags "late"); [vm_compute; reflexivity|].
    unfold Notions.entry_indexes. apply list_elem_of_further, list_elem_of_here. }
  split.
  { rewrite (Hdate (fun index => byDay (temporal index))
               (Notions.day_keys (H := Sample.host)) "1970-01-01");
      [vm_compute; reflexivity|].
    unfold Notions.date_indexes. apply list_elem_of_here. }
  split; [rewrite Hrecent by (simpl; lia); vm_compute; reflexivity|].
  rewrite Hstats. vm_compute. reflexivity.
Defined.

(** a load, a store, a search and an optimisation over dated entries *)
Lemma history_invariant_witness :
  let cs :=
    [Notions.CallLoad (JsMap.values Sample.scenario);
     Notions.CallStore research "react state" Sample.noMetadata None (instant 4) "b";
     Notions.CallSearch (Sample.query "react" false true) 5;
     Notions.CallOptimize (40 * Sample.day)] in
  let st := Notions.calls cs Sample.fresh in
  Notions.indexed (H := Sample.host)
    (MemoryManager._memories st) (MemoryManager._index st).
Proof.
  intros cs st.
  destruct (history_invariant (H := Sample.host) cs
              {| Sample.online := true; Sample.items := [] |} 0) as (_ & _ & Hcover).
  apply Hcover. vm_compute. reflexivity.
Defined.

End IndexFacts.

(** ** Tokens, word counts and the embedding of a text without tokens *)
Module Tokens.
Section WithHost.
Context `{Host}.
Import SemanticSearch MemoryManager.

Lemma lower_char_not_upper (c : ascii) : Js.is_upper (Js.lower_char c) = false.
Proof. destruct c as [[] [] [] [] [] [] [] []]; vm_compute; reflexivity. Qed.

Lemma chars_app (s t : string) :
  list_ascii_of_string (s +:+ t) = list_ascii_of_string s ++ list_ascii_of_string t.
Proof. induction s as [|c s IH]; [done|]. simpl. by f_equal. Qed.

(** the pieces of a split are made of the characters that are not separators *)
Lemma split_go_chars (P : ascii → Prop) (s cur : string) (in_ws : bool) :
  Forall (fun c => Js.is_space c = false → P c) (list_ascii_of_string s) →
  Forall P (list_ascii_of_string cur) →
  Forall (fun piece => Forall P (list_ascii_of_string piece)) (Js.split_go s cur in_ws).
Proof.
  revert cur in_ws. induction s as [|c s IH]; intros cur in_ws Hs Hcur; cbn.
  - by apply Forall_singleton.
  - cbn in Hs. apply Forall_cons in Hs as [Hc Hs].
    destruct (Js.is_space c) eqn:Hsp.
    + destruct in_ws; [by apply IH|].
      apply Forall_cons. split; [done|]. apply IH; [done | apply Forall_nil_2].
    + apply IH; [done|]. rewrite chars_app. apply Forall_app. split; [done|].
      apply Forall_singleton. by apply Hc.
Qed.

Lemma normalized_chars (text : string) :
  Forall (fun c => Js.is_space c = false → Js.is_word c = true ∧ Js.is_upper c = false)
    (list_ascii_of_string (Js.replace_nonword (Js.toLowerCase text))).
Proof.
  induction text as [|c text IH]; cbn; [apply Forall_nil_2|].
  apply Forall_cons. split; [|done].
  destruct (Js.is_word (Js.lower_char c)) eqn:Hw; cbn [orb].
  - intros _. split; [done | apply lower_char_not_upper].
  - destruct (Js.is_space (Js.lower_char c)) eqn:Hsp; [by rewrite Hsp|].
    by vm_compute.
Qed.

Lemma toLowerCase_lower (s : string) :
  Forall (fun c => Js.is_upper c = false) (list_ascii_of_string s) →
  Js.toLowerCase s = s.
Proof.
  induction s as [|c s IH]; [done|]. cbn. intros [Hc Hs]%Forall_cons.
  unfold Js.lower_char. rewrite Hc. by rewrite IH.
Qed.

(** X15: every token of a text is longer than two characters, is made of
    lower-case letters, digits and underscores only, and is not a stop
    word; lower-casing a token leaves it as it is. *)
Theorem tokenize_spec (text word : string) :
  word ∈ tokenize text →
  (2 < String.length word)%nat
  ∧ (word ∉ stopWords)
  ∧ Forall (fun c => Js.is_word c = true ∧ Js.is_upper c = false)
      (list_ascii_of_string word)
  ∧ Js.toLowerCase word = word.
Proof.
  unfold tokenize. intros Hin.
  apply list_elem_of_filter in Hin as [Hstop Hin].
  apply list_elem_of_filter in Hin as [Hlen Hin].
  pose proof (split_go_chars
                (fun c => Js.is_word c = true ∧ Js.is_upper c = false)
                (Js.replace_nonword (Js.toLowerCase text)) EmptyString false
                (normalized_chars text) (Forall_nil_2 _)) as Hall.
  rewrite Forall_forall in Hall. specialize (Hall word Hin).
  assert (Hlow : Js.toLowerCase word = word).
  { apply toLowerCase_lower. eapply Forall_impl; [exact Hall|]. by intros c [_ ?]. }
  split; [by apply Nat.ltb_lt, Is_true_true|].
  split; [|done].
  intros Hs. apply Is_true_true in Hstop. apply negb_true_iff in Hstop.
  unfold isStopWord, Js.arr_includes in Hstop. rewrite Hlow in Hstop.
  by apply bool_decide_eq_false in Hstop.
Qed.

Lemma wordFrequency_acc (words : list string) (freq : JsMap.t Z) :
  let freq' :=
    fold_left
      (fun freq word => JsMap.set freq word (default 0 (JsMap.get freq word) + 1))
      words freq in
  JsMap.keys freq' = JsMap.keys freq ++ Js.dedup_go (JsMap.keys freq) words
  ∧ ∀ w, JsMap.get freq' w
         = (let n := length (filter (fun x => x = w) words) in
            if decide (n = 0%nat) then JsMap.get freq w
            else Some (default 0 (JsMap.get freq w) + Z.of_nat n)).
Proof.
  revert freq. induction words as [|x words IH]; intros freq; cbn zeta; cbn [fold_left].
  - split; [by rewrite app_nil_r | done].
  - destruct (IH (JsMap.set freq x (default 0 (JsMap.get freq x) + 1))) as [Hk Hg].
    cbn zeta in Hk, Hg. split.
    + rewrite Hk. cbn [Js.dedup_go]. unfold Js.arr_includes.
      destruct (bool_decide_reflect (x ∈ JsMap.keys freq)) as [Hin|Hnot].
      * by rewrite JsMapFacts.keys_set_present.
      * by rewrite JsMapFacts.keys_set_fresh, <- app_assoc.
    + intros w. rewrite Hg, filter_cons.
      destruct (decide (x = w)) as [->|Hne].
      * rewrite JsMapFacts.get_set_eq. cbn [length default].
        rewrite (decide_False (P := S _ = 0%nat)) by done. unfold Datatypes.id.
        destruct (decide (length (filter (fun x => x = w) words) = 0%nat)) as [Hz|Hn];
          [rewrite Hz|]; f_equal; lia.
      * rewrite JsMapFacts.get_set_ne by done. done.
Qed.

(** X16: the word frequencies of a list of words hold one key for each
    distinct word, in the order of first occurrence, and under each word
    the number of its occurrences; a word that does not occur has no key. *)
Theorem computeWordFrequency_spec (words : list string) :
  JsMap.keys (computeWordFrequency words) = Js.set_spread words
  ∧ JsMap.wf (computeWordFrequency words)
  ∧ (∀ w, JsMap.get (computeWordFrequency words) w
          = (if decide (w ∈ words)
             then Some (Z.of_nat (length (filter (fun x => x = w) words)))
             else None)).
Proof.
  destruct (wordFrequency_acc words []) as [Hk Hg]. cbn zeta in Hk, Hg.
  fold (computeWordFrequency words) in Hk, Hg.
  split; [exact Hk|]. split.
  { unfold JsMap.wf. rewrite Hk. apply Store.set_spread_spec. }
  intros w. rewrite Hg. cbn [JsMap.get default].
  destruct (decide (w ∈ words)) as [Hin|Hnot].
  - rewrite decide_False; [f_equal; lia|].
    intros Hz. apply length_zero_iff_nil in Hz.
    assert (Hw : w ∈ filter (fun x => x = w) words) by by apply list_elem_of_filter.
    rewrite Hz in Hw. by apply elem_of_nil in Hw.
  - rewrite decide_True; [done|].
    destruct (filter _ words) as [|y rest] eqn:Hf; [done|]. exfalso.
    assert (Hy : y ∈ y :: rest) by apply list_elem_of_here.
    rewrite <- Hf in Hy. apply list_elem_of_filter in Hy as [-> Hy]. done.
Qed.

Lemma blank_embedding (text : string) :
  tokenize text = [] →
  computeSimpleEmbedding text = replicate EMBEDDING_DIMENSION 0%float.
Proof.
  intros Hnone. unfold computeSimpleEmbedding. rewrite Hnone.
  cbn [computeWordFrequency fold_left]. vm_compute. reflexivity.
Qed.

(** X17: a text without tokens (nothing but stop words, words of one or
    two characters and punctuation) embeds to the vector of 384 zeros, whose
    similarity to every vector is 0.  A semantic search for such a text,
    not cached, with the threshold of 0.7 of the index, therefore returns
    nothing, whatever the table holds. *)
Theorem semantic_search_blank (text : string) (st : t) :
  tokenize text = [] →
  _semanticSearch st !! getCacheKey text = None →
  similarityThreshold (semanticIdx (_index st)) = 0.7%float →
  computeSimpleEmbedding text = replicate 384 0%float
  ∧ (∀ e, calculateSimilarity (computeSimpleEmbedding text) e = 0%float)
  ∧ (performSemanticSearch text st).1 = [].
Proof.
  intros Hnone Hmiss Hthr.
  pose proof (blank_embedding text Hnone) as Hemb.
  assert (Hsim : ∀ e, calculateSimilarity (computeSimpleEmbedding text) e = 0%float).
  { intros e. rewrite Hemb. apply Similarity.calculateSimilarity_zero_magnitude.
    left. by rewrite Similarity.sum_squares_zeros. }
  split; [exact Hemb|]. split; [exact Hsim|].
  rewrite Access.performSemanticSearch_omap.
  rewrite (Embedding.generateEmbedding_miss _ _ Hmiss), Hthr. cbn [fst].
  induction (_memories st) as [|[k memory] m IH]; [done|].
  cbn [omap list_omap]. rewrite IH. unfold Spec.semantic_result. cbn [snd].
  destruct (embedding memory) as [e|]; [|done]. cbv zeta. by rewrite Hsim.
Qed.

End WithHost.

(** the tokens of a sentence *)
Lemma tokenize_spec_witness :
  SemanticSearch.tokenize "Use the API, now!" = ["use"; "api"; "now"]
  ∧ ("api" ∉ SemanticSearch.stopWords).
Proof.
  split; [vm_compute; reflexivity|].
  apply (tokenize_spec "Use the API, now!" "api").
  apply (bool_decide_unpack _). vm_compute. exact I.
Defined.

(** a text of stop words and punctuation, searched in the scenario *)
Lemma semantic_search_blank_witness :
  (MemoryManager.performSemanticSearch (H := Sample.host) "to be, or..."
     (Sample.manager Sample.scenario)).1 = [].
Proof.
  apply (semantic_search_blank (H := Sample.host) "to be, or..."
           (Sample.manager Sample.scenario)); vm_compute; reflexivity.
Defined.

End Tokens.

(** ** Nearest embeddings and clusters *)
Module Clusters.
Import SemanticSearch SemanticSearchMore.

Lemma similarities_omap (q : list float) (thr : float)
    (candidates : JsMap.t (list float)) (acc : list (string * float)) :
  fold_left
    (fun similarities '(k, embedding) =>
       let similarity := calculateSimilarity q embedding in
       if (thr <=? similarity)%float
       then similarities ++ [(k, similarity)] else similarities)
    candidates acc
  = acc ++ omap (fun p => if (thr <=? calculateSimilarity q p.2)%float
                          then Some (p.1, calculateSimilarity q p.2) else None)
             candidates.
Proof.
  revert acc. induction candidates as [|[k e] m IH]; intros acc.
  - cbn. by rewrite app_nil_r.
  - cbn [fold_left omap list_omap fst snd]. rewrite IH. cbv zeta.
    destruct (thr <=? _)%float; [by rewrite <- app_assoc | done].
Qed.

(** X18: [findSimilarEmbeddings] returns candidates only, each with its
    similarity to the query, which is at least the threshold (0.7 when none
    is given); no candidate is returned twice; a candidate whose vector has
    another length than the query is never returned under a threshold
    above 0; and at most [maxResults] pairs are returned (10 when no limit
    is given) when the limit is not negative. *)
Theorem findSimilarEmbeddings_spec (q : list float) (candidates : JsMap.t (list float))
    (threshold : option float) (maxResults : option Z) :
  JsMap.wf candidates →
  let thr := default 0.7%float threshold in
  let results := findSimilarEmbeddings q candidates threshold maxResults in
  (∀ k s, (k, s) ∈ results →
     ∃ e, JsMap.get candidates k = Some e
          ∧ s = calculateSimilarity q e
          ∧ (thr <=? s)%float = true
          ∧ ((thr <=? 0)%float = false → length e = length q))
  ∧ NoDup (map fst results)
  ∧ (0 ≤ default 10 maxResults → (length results ≤ Z.to_nat (default 10%Z maxResults))%nat).
Proof.
  intros Hwf thr results. subst results. unfold findSimilarEmbeddings.
  fold thr. cbv zeta. rewrite similarities_omap. cbn [app].
  set (found := omap _ candidates).
  assert (Hsub : map fst found `sublist_of` JsMap.keys candidates).
  { subst found. clear. induction candidates as [|[k e] m IH]; [done|].
    cbn [omap list_omap JsMap.keys map fst snd].
    destruct (thr <=? _)%float; cbn [map fst]; [by apply sublist_skip|].
    by apply sublist_cons. }
  split; [|split].
  - intros k s Hin.
    eapply elem_of_sublist in Hin; [|apply Access.slice0_sublist].
    rewrite Access.sort_perm in Hin. subst found.
    apply list_elem_of_omap in Hin as [[k' e] [Hp Hr]]. cbn [fst snd] in Hr.
    destruct (thr <=? calculateSimilarity q e)%float eqn:Hthr; [|done].
    injection Hr as <- <-. exists e.
    split; [by apply JsMapFacts.elem_get|]. split; [done|]. split; [done|].
    intros Hpos. destruct (decide (length e = length q)) as [|Hne]; [done|].
    rewrite Similarity.calculateSimilarity_mismatch in Hthr by done. congruence.
  - eapply sublist_NoDup; [|apply fmap_sublist, Access.slice0_sublist].
    rewrite Access.sort_perm. by eapply sublist_NoDup.
  - intros Hpos. unfold Js.slice0.
    destruct (Z.ltb_spec (default 10 maxResults) 0); [lia|].
    rewrite length_take. lia.
Qed.

(** *** Clusters *)

Lemma bestCluster_acc (centroids : list (list float)) (embedding : list float)
    (b : nat) (s : float) (i : nat) :
  let r :=
    fold_left
      (fun '(bestCluster, bestSimilarity, i) centroid =>
         let similarity := calculateSimilarity embedding centroid in
         if (bestSimilarity <? similarity)%float
         then (i, similarity, S i) else (bestCluster, bestSimilarity, S i))
      centroids (b, s, i) in
  (r.1.1 = b ∨ (i ≤ r.1.1 < i + length centroids)%nat).
Proof.
  revert b s i. induction centroids as [|c cs IH]; intros b s i; cbn zeta;
    cbn [fold_left length]; [by left|].
  destruct (s <? _)%float.
  - destruct (IH i (calculateSimilarity embedding c) (S i)) as [Hr|Hr];
      cbn zeta in Hr; right; [rewrite Hr|]; lia.
  - destruct (IH b s (S i)) as [Hr|Hr]; cbn zeta in Hr; [by left | right; lia].
Qed.

Lemma bestCluster_lt (centroids : list (list float)) (embedding : list float) :
  centroids ≠ [] → (bestCluster centroids embedding < length centroids)%nat.
Proof.
  intros Hne. unfold bestCluster.
  pose proof (bestCluster_acc centroids embedding 0 (-1)%float 0) as Hr.
  cbn zeta in Hr. destruct centroids as [|c cs]; [done|].
  cbn [length] in *. lia.
Qed.

Lemma members_insert (cls : list Cluster) (i : nat) (c c' : Cluster) (k : string) :
  cls !! i = Some c → members c' = members c ++ [k] →
  concat (map members (<[i := c']> cls)) ≡ₚ concat (map members cls) ++ [k].
Proof.
  intros Hi Hm. rewrite insert_take_drop by by eapply lookup_lt_Some.
  rewrite <- (take_drop_middle cls i c Hi) at 3.
  rewrite !map_app, !concat_app. cbn [map concat]. rewrite Hm.
  rewrite <- !app_assoc. do 2 apply Permutation_app_head.
  apply Permutation_app_comm.
Qed.

Lemma assign_acc (centroids : list (list float))
    (embeddingArray : list (string * list float)) (cls0 : list Cluster) :
  centroids ≠ [] → length cls0 = length centroids →
  ∃ cls,
    fold_left
      (fun acc '(k, embedding) =>
         match acc with
         | Ok cls => push_member cls (bestCluster centroids embedding) k
         | Throw e => Throw e
         end)
      embeddingArray (Ok cls0) = Ok cls
    ∧ length cls = length centroids
    ∧ concat (map members cls) ≡ₚ concat (map members cls0) ++ map fst embeddingArray.
Proof.
  intros Hne. revert cls0.
  induction embeddingArray as [|[k e] pts IH]; intros cls0 Hlen; cbn [fold_left].
  - exists cls0. cbn. by rewrite app_nil_r.
  - unfold push_member at 2.
    destruct (cls0 !! bestCluster centroids e) as [c|] eqn:Hc.
    + destruct (IH (<[bestCluster centroids e
                      := {| centroid := centroid c; members := members c ++ [k] |}]> cls0))
        as (cls & Hok & Hl & Hp); [by rewrite length_insert|].
      exists cls. split; [done|]. split; [done|].
      rewrite Hp.
      rewrite (members_insert cls0 _ c
                 {| centroid := centroid c; members := members c ++ [k] |} k Hc eq_refl).
      cbn [map fst].
      by rewrite <- app_assoc.
    + apply lookup_ge_None in Hc. pose proof (bestCluster_lt centroids e Hne). lia.
Qed.

Lemma assign_ok (centroids : list (list float))
    (embeddingArray : list (string * list float)) :
  centroids ≠ [] →
  ∃ cls, assign centroids embeddingArray = Ok cls
         ∧ length cls = length centroids
         ∧ concat (map members cls) ≡ₚ map fst embeddingArray.
Proof.
  intros Hne. unfold assign.
  destruct (assign_acc centroids embeddingArray
              (map (fun centroid => {| centroid := centroid; members := [] |}) centroids)
              Hne) as (cls & Hok & Hl & Hp); [apply length_map|].
  exists cls. split; [done|]. split; [done|]. rewrite Hp.
  assert (Hnil : ∀ cs : list (list float),
            concat (map members
                      (map (fun centroid => {| centroid := centroid; members := [] |}) cs))
            = []) by (induction cs; done).
  by rewrite Hnil.
Qed.

Lemma update_one_keeps dimension (embeddingArray : list (string * list float))
    (st : list (list float) * list Cluster * bool) (i : nat) :
  let st' := update_one dimension embeddingArray st i in
  length st'.1.1 = length st.1.1
  ∧ map members st'.1.2 = map members st.1.2.
Proof.
  destruct st as [[centroids cls] converged]. unfold update_one.
  destruct (centroids !! i) as [old|]; [|done].
  destruct (cls !! i) as [c|] eqn:Hc; [|done].
  destruct (members c) as [|m ms] eqn:Hm; [done|]. cbn [fst snd].
  split; [apply length_insert|].
  rewrite list_fmap_insert. cbn [members]. rewrite <- Hm.
  apply list_insert_id. by rewrite list_lookup_fmap, Hc.
Qed.

Lemma update_centroids_keeps k dimension (embeddingArray : list (string * list float))
    (centroids : list (list float)) (cls : list Cluster) :
  let st' := update_centroids k dimension embeddingArray centroids cls in
  length st'.1.1 = length centroids
  ∧ map members st'.1.2 = map members cls.
Proof.
  unfold update_centroids.
  assert (Hgen : ∀ l st,
    length (fold_left (update_one dimension embeddingArray) l st).1.1 = length st.1.1
    ∧ map members (fold_left (update_one dimension embeddingArray) l st).1.2
      = map members st.1.2).
  { induction l as [|i l IH]; intros st; [done|].
    cbn [fold_left]. destruct (IH (update_one dimension embeddingArray st i)) as [Hl Hm].
    destruct (update_one_keeps dimension embeddingArray st i) as [Hl1 Hm1].
    cbn zeta in *. split; congruence. }
  apply (Hgen (seq 0 k) (centroids, cls, true)).
Qed.

Lemma iterate_ok (n k dimension : nat) (embeddingArray : list (string * list float))
    (centroids : list (list float)) (cls0 : list Cluster) (size : nat) :
  (0 < size)%nat → length centroids = size →
  (n = 0%nat →
   length cls0 = size ∧ concat (map members cls0) ≡ₚ map fst embeddingArray) →
  ∃ cls, iterate n k dimension embeddingArray centroids cls0 = Ok cls
         ∧ length cls = size
         ∧ concat (map members cls) ≡ₚ map fst embeddingArray.
Proof.
  intros Hpos. revert centroids cls0.
  induction n as [|n IH]; intros centroids cls0 Hlen Hzero; cbn [iterate].
  - exists cls0. destruct (Hzero eq_refl). done.
  - destruct (assign_ok centroids embeddingArray) as (cls1 & -> & Hl1 & Hp1).
    { intros ->. cbn in Hlen. lia. }
    destruct (update_centroids_keeps k dimension embeddingArray centroids cls1)
      as [Hl2 Hm2]. cbn zeta in Hl2, Hm2.
    destruct (update_centroids k dimension embeddingArray centroids cls1)
      as [[centroids' cls2] converged]. cbn [fst snd] in Hl2, Hm2.
    assert (Hcls2 : length cls2 = size
                    ∧ concat (map members cls2) ≡ₚ map fst embeddingArray).
    { split; [|by rewrite Hm2].
      rewrite <- (length_map members), Hm2, length_map. congruence. }
    destruct converged.
    + exists cls2. by destruct Hcls2.
    + apply IH; [congruence | done].
Qed.

Lemma initial_centroids_ok (k : nat) (embeddingArray : list (string * list float))
    (random : nat → nat) :
  (∀ i, (random i < length embeddingArray)%nat) →
  ∃ centroids, initial_centroids k embeddingArray random = Ok centroids
               ∧ length centroids = k.
Proof.
  intros Hrandom. unfold initial_centroids.
  assert (Hacc : ∀ l (acc : list (list float)),
    ∃ centroids,
      fold_left
        (fun acc i =>
           match acc with
           | Throw e => Throw e
           | Ok centroids =>
               match embeddingArray !! random i with
               | Some p => Ok (centroids ++ [p.2])
               | None => Throw "TypeError"
               end
           end) l (Ok acc) = Ok centroids
      ∧ length centroids = (length acc + length l)%nat).
  { induction l as [|i l IH]; intros acc; cbn [fold_left].
    - exists acc. cbn. split; [done | lia].
    - destruct (lookup_lt_is_Some_2 embeddingArray (random i) (Hrandom i)) as [p ->].
      destruct (IH (acc ++ [p.2])) as (centroids & Hok & Hl).
      exists centroids. split; [done|]. rewrite Hl, length_app. cbn. lia. }
  destruct (Hacc (seq 0 k) []) as (centroids & Hok & Hl).
  exists centroids. split; [done|]. rewrite Hl, length_seq. done.
Qed.

(** X19: with a positive number of clusters (5 when none is given) and
    random draws that are indexes of the array, [clusterEmbeddings]
    completes and returns a partition of the ids: every id is a member of
    exactly one cluster, no cluster is empty, and there are at most as many
    clusters as asked for.  With fewer vectors than clusters asked for,
    each vector is a cluster of its own with itself as centroid. *)
Theorem clusterEmbeddings_partition (embs : JsMap.t (list float))
    (numClusters : option Z) (random : nat → nat) :
  0 < default 5 numClusters →
  (∀ i, embs ≠ [] → (random i < length embs)%nat) →
  ∃ cls,
    clusterEmbeddings embs numClusters random = Ok cls
    ∧ concat (map members cls) ≡ₚ JsMap.keys embs
    ∧ Forall (fun c => members c ≠ []) cls
    ∧ (length cls ≤ Z.to_nat (default 5%Z numClusters))%nat
    ∧ (Z.of_nat (length embs) < default 5 numClusters →
       cls = map (fun p => {| centroid := p.2; members := [p.1] |}) embs).
Proof.
  intros Hpos Hrandom. unfold clusterEmbeddings. cbv zeta.
  set (k := default 5 numClusters) in *.
  destruct (Z.ltb_spec (Z.of_nat (length embs)) k) as [Hfew|Hmany].
  - exists (map (fun p => {| centroid := p.2; members := [p.1] |}) embs).
    split.
    { f_equal. apply map_ext. by intros [k0 e]. }
    split.
    { clear. induction embs as [|[k0 e] m IH]; [done|]. cbn. by rewrite IH. }
    split.
    { apply Forall_forall. intros c Hc.
      apply list_elem_of_fmap in Hc as [p [-> _]]. done. }
    split; [rewrite length_map; lia | done].
  - assert (Hne : embs ≠ []) by (intros ->; cbn in Hmany; lia).
    destruct (initial_centroids_ok (Z.to_nat k) embs random) as (centroids & Hinit & Hlen).
    { intros i. by apply Hrandom. }
    unfold kMeansClustering. rewrite Hinit.
    destruct embs as [|[k0 first] rest] eqn:Hembs; [done|]. rewrite <- Hembs.
    destruct (iterate_ok 100 (Z.to_nat k) (length first) embs centroids []
                (Z.to_nat k)) as (cls & -> & Hl & Hp); [lia | done | done |].
    exists (filter (fun cluster => (0 <? length (members cluster))%nat) cls).
    split; [done|]. split.
    { rewrite <- Hp. clear. induction cls as [|c cls IH]; [done|].
      rewrite filter_cons. destruct (decide _) as [Hd|Hd]; cbn [map concat].
      - by rewrite IH.
      - destruct (members c); [exact IH | exfalso; by apply Hd]. }
    split.
    { apply Forall_forall. intros c Hc. apply list_elem_of_filter in Hc as [Hc _].
      intros Hnil. by rewrite Hnil in Hc. }
    split; [|intros Hfew; rewrite Hembs in Hfew; lia].
    rewrite <- Hl. apply length_filter.
Qed.

(** X20: asked for no cluster at all, or for a negative number of them,
    [clusterEmbeddings] does not return an empty clustering: it rejects
    with a [TypeError], for an empty map when it reads the dimension of a
    first vector that is not there, and otherwise when it assigns the first
    vector to a cluster that is not there. *)
Theorem clusterEmbeddings_no_clusters (embs : JsMap.t (list float))
    (numClusters : option Z) (random : nat → nat) :
  default 5 numClusters ≤ 0 →
  clusterEmbeddings embs numClusters random = Throw "TypeError".
Proof.
  intros Hk. unfold clusterEmbeddings. cbv zeta.
  destruct (Z.ltb_spec (Z.of_nat (length embs)) (default 5 numClusters)); [lia|].
  unfold kMeansClustering. destruct embs as [|[k0 first] rest]; [done|].
  replace (Z.to_nat (default 5 numClusters)) with 0%nat by lia.
  cbn [initial_centroids seq fold_left].
  assert (Hthrow : ∀ (pts : list (string * list float)) e,
    fold_left
      (fun acc '(k, embedding) =>
         match acc with
         | Ok cls => push_member cls (bestCluster [] embedding) k
         | Throw e => Throw e
         end) pts (Throw e) = Throw e).
  { induction pts as [|[k e'] pts IH]; intros e; [done|]. cbn [fold_left]. apply IH. }
  assert (Hassign : assign [] ((k0, first) :: rest) = Throw "TypeError").
  { unfold assign. cbn [fold_left map]. unfold push_member at 2.
    rewrite lookup_nil. apply Hthrow. }
  generalize 99%nat. intros n. cbn [iterate]. by rewrite Hassign.
Qed.

(** two candidates, one of another dimension than the query *)
Lemma findSimilarEmbeddings_spec_witness :
  let results :=
    findSimilarEmbeddings [1; 0]%float
      [("a", [1; 0]%float); ("b", [1; 0; 0]%float)] None None in
  map fst results = ["a"]
  ∧ NoDup (map fst results)
  ∧ (length results ≤ 10)%nat.
Proof.
  intros results.
  assert (Hwf : JsMap.wf [("a", [1; 0]%float); ("b", [1; 0; 0]%float)]).
  { apply (bool_decide_unpack _). vm_compute. exact I. }
  destruct (findSimilarEmbeddings_spec [1; 0]%float
              [("a", [1; 0]%float); ("b", [1; 0; 0]%float)] None None Hwf)
    as (_ & Hnd & Hlen).
  split; [vm_compute; reflexivity|]. split; [exact Hnd|].
  apply Hlen. cbn. lia.
Defined.

(** three vectors in two clusters, both centroids drawn from the first *)
Lemma clusterEmbeddings_partition_witness :
  ∃ cls,
    clusterEmbeddings
      [("a", [1; 0]%float); ("b", [0; 1]%float); ("c", [1; 0]%float)]
      (Some 2) (fun _ => 0%nat) = Ok cls
    ∧ concat (map members cls) ≡ₚ ["a"; "b"; "c"].
Proof.
  destruct (clusterEmbeddings_partition
              [("a", [1; 0]%float); ("b", [0; 1]%float); ("c", [1; 0]%float)]
              (Some 2) (fun _ => 0%nat)) as (cls & Hok & Hp & _).
  - reflexivity.
  - intros _ _. cbn. lia.
  - exists cls. split; [exact Hok | exact Hp].
Defined.

(** no cluster asked for *)
Lemma clusterEmbeddings_no_clusters_witness :
  clusterEmbeddings [("a", [1; 0]%float)] (Some 0) (fun _ => 0%nat)
  = Throw "TypeError".
Proof.
  apply (clusterEmbeddings_no_clusters [("a", [1; 0]%float)] (Some 0) (fun _ => 0%nat)).
  cbn. lia.
Defined.

End Clusters.

(** ** The helpers of the content analysis *)
Module Analysis.
Section WithHost.
Context `{Host}.
Import ContextAnalyzer ContextAnalyzerMore.

Lemma dedup_filter_spec (seen : list string) (entities : list ExtractedEntity) :
  dedup_filter seen entities `sublist_of` entities
  ∧ NoDup (map dedup_key (dedup_filter seen entities))
  ∧ (∀ e, e ∈ dedup_filter seen entities → dedup_key e ∉ seen)
  ∧ (∀ e, e ∈ entities → dedup_key e ∉ seen →
          ∃ e', e' ∈ dedup_filter seen entities ∧ dedup_key e' = dedup_key e)
  ∧ (∀ e', e' ∈ dedup_filter seen entities →
           List.find (fun e => String.eqb (dedup_key e) (dedup_key e')) entities
           = Some e').
Proof.
  revert seen. induction entities as [|x l IH]; intros seen; cbn [dedup_filter].
  - split; [done|]. split; [apply NoDup_nil_2|].
    split; [by intros e He%elem_of_nil|].
    split; [by intros e He%elem_of_nil | by intros e He%elem_of_nil].
  - cbv zeta. unfold Js.arr_includes.
    destruct (bool_decide_reflect (dedup_key x ∈ seen)) as [Hin|Hnot].
    + destruct (IH seen) as (Hsub & Hnd & Hout & Hcov & Hfirst).
      split; [by apply sublist_cons|]. split; [done|]. split; [done|]. split.
      * intros e [->|He]%elem_of_cons Hk; [done | by apply Hcov].
      * intros e' He'. cbn [List.find].
        destruct (String.eqb_spec (dedup_key x) (dedup_key e')) as [Heq|_].
        -- exfalso. apply (Hout e' He'). by rewrite <- Heq.
        -- by apply Hfirst.
    + destruct (IH (seen ++ [dedup_key x])) as (Hsub & Hnd & Hout & Hcov & Hfirst).
      split; [by apply sublist_skip|]. split.
      { cbn [map]. apply NoDup_cons. split; [|done].
        intros Hk. apply (list_elem_of_fmap (A := ExtractedEntity)) in Hk
          as [e [Heq He]].
        apply (Hout e He). rewrite elem_of_app, list_elem_of_singleton. by right. }
      split.
      { intros e [->|He]%elem_of_cons; [done|].
        intros Hs. apply (Hout e He). rewrite elem_of_app. by left. }
      split.
      { intros e He Hk. destruct (decide (dedup_key e = dedup_key x)) as [Heq|Hne].
        - exists x. split; [apply list_elem_of_here | done].
        - apply elem_of_cons in He as [->|He]; [done|].
          destruct (Hcov e He) as (e' & He' & Hk').
          { rewrite elem_of_app, list_elem_of_singleton. naive_solver. }
          exists e'. split; [by apply list_elem_of_further | done]. }
      intros e' [->|He']%elem_of_cons; cbn [List.find].
      * by rewrite String.eqb_refl.
      * destruct (String.eqb_spec (dedup_key x) (dedup_key e')) as [Heq|_].
        -- exfalso. apply (Hout e' He').
           rewrite elem_of_app, list_elem_of_singleton. by right.
        -- by apply Hfirst.
Qed.

Lemma dedup_filter_id (seen : list string) (entities : list ExtractedEntity) :
  NoDup (map dedup_key entities) →
  (∀ e, e ∈ entities → dedup_key e ∉ seen) →
  dedup_filter seen entities = entities.
Proof.
  revert seen. induction entities as [|x l IH]; intros seen Hnd Hout; [done|].
  cbn [dedup_filter map] in *. apply NoDup_cons in Hnd as [Hx Hnd]. cbv zeta.
  unfold Js.arr_includes. rewrite bool_decide_eq_false_2.
  - f_equal. apply IH; [done|]. intros e He.
    rewrite elem_of_app, list_elem_of_singleton. intros [Hs|Heq].
    + by apply (Hout e), Hs; apply list_elem_of_further.
    + apply Hx. rewrite <- Heq. by apply (list_elem_of_fmap_2 dedup_key).
  - apply Hout, list_elem_of_here.
Qed.

(** X21: [deduplicateEntities] keeps, in their order, the first entity of
    each pair of type and lower-cased name and drops the later ones: the
    result is a sub-list of the input without two entities of the same
    key, every key of the input is still represented, each entity kept is
    the first of the input with its key, and a second pass changes
    nothing. *)
Theorem deduplicateEntities_spec (entities : list ExtractedEntity) :
  let kept := deduplicateEntities entities in
  kept `sublist_of` entities
  ∧ NoDup (map dedup_key kept)
  ∧ (∀ e, e ∈ entities → ∃ e', e' ∈ kept ∧ dedup_key e' = dedup_key e)
  ∧ (∀ e', e' ∈ kept →
       List.find (fun e => String.eqb (dedup_key e) (dedup_key e')) entities = Some e')
  ∧ deduplicateEntities kept = kept.
Proof.
  intros kept. subst kept. unfold deduplicateEntities.
  destruct (dedup_filter_spec [] entities) as (Hsub & Hnd & _ & Hcov & Hfirst).
  split; [done|]. split; [done|].
  split; [intros e He; apply Hcov; [done | apply not_elem_of_nil]|].
  split; [done|].
  apply dedup_filter_id; [done|]. intros e _. apply not_elem_of_nil.
Qed.

Lemma includes_prefix_app (s t u : string) :
  String.prefix (t +:+ u) s = true → String.prefix t s = true.
Proof.
  revert s. induction t as [|c t IH]; intros s; [by destruct s|].
  destruct s as [|d s]; simpl; [done|].
  destruct (Ascii.ascii_dec c d); [apply IH | done].
Qed.

(** a string that contains [t +:+ u] contains [t] *)
Lemma includes_app (s t u : string) :
  Js.includes s (t +:+ u) = true → Js.includes s t = true.
Proof.
  induction s as [|c s IH]; cbn [Js.includes].
  - rewrite !orb_false_r. apply includes_prefix_app.
  - rewrite !orb_true_iff. intros [Hp|Hr].
    + left. by eapply includes_prefix_app.
    + right. by apply IH.
Qed.

(** X22: [detectLanguage] answers with one of six names, the first whose
    markers the code contains.  The marker [let mut] of Rust can never
    decide: a code that contains it contains [let] and is classed as
    JavaScript; only [fn ] makes a code Rust, and then only when no
    marker of JavaScript, Python or Java occurs in it. *)
Theorem detectLanguage_spec (code : string) :
  detectLanguage code ∈ ["javascript"; "python"; "java"; "rust"; "go"; "unknown"]
  ∧ (Js.includes code "let mut" = true → detectLanguage code = "javascript")
  ∧ (detectLanguage code = "rust" →
     Js.includes code "fn " = true
     ∧ Js.includes code "function" = false ∧ Js.includes code "const" = false
     ∧ Js.includes code "let" = false
     ∧ Js.includes code "def " = false ∧ Js.includes code "import " = false
     ∧ Js.includes code "public class" = false ∧ Js.includes code "private " = false).
Proof.
  assert (Hlet : Js.includes code "let mut" = true → Js.includes code "let" = true).
  { apply (includes_app code "let" " mut"). }
  split; [|split].
  - unfold detectLanguage. repeat case_match; set_solver.
  - intros Hm. unfold detectLanguage. by rewrite (Hlet Hm), !orb_true_r.
  - unfold detectLanguage.
    destruct (Js.includes code "function" || Js.includes code "const"
              || Js.includes code "let") eqn:Hjs; [done|].
    destruct (Js.includes code "def " || Js.includes code "import ") eqn:Hpy; [done|].
    destruct (Js.includes code "public class" || Js.includes code "private ")
      eqn:Hjava; [done|].
    destruct (Js.includes code "fn " || Js.includes code "let mut") eqn:Hrs.
    + intros _. apply orb_false_iff in Hjs as [[Hf Hc]%orb_false_iff Hl].
      apply orb_false_iff in Hpy as [Hd Hi]. apply orb_false_iff in Hjava as [Hp Hv].
      apply orb_true_iff in Hrs as [Hfn|Hm]; [done|].
      rewrite (Hlet Hm) in Hl. done.
    + destruct (Js.includes code "func " || Js.includes code "package ");
        intros Hr; discriminate Hr.
Qed.

Lemma lowered_chars (content : string) :
  Forall (fun c => Js.is_space c = false → Js.is_upper c = false)
    (list_ascii_of_string (Js.toLowerCase content)).
Proof.
  induction content as [|c s IH]; cbn; [apply Forall_nil_2|].
  apply Forall_cons. split; [|done]. intros _. apply Tokens.lower_char_not_upper.
Qed.

(** X23: the keywords extracted from a content are without repetition, and
    a string is one of them exactly when it is the lower-cased text of a
    match of one of the four keyword patterns, or a piece of the
    lower-cased content between white space that is longer than three
    characters, made of letters only, and not a stop word; such a piece
    has no upper-case letter. *)
Theorem extractKeywords_spec (content word : string) :
  NoDup (extractKeywords content)
  ∧ (word ∈ extractKeywords content ↔
     (∃ category m, category ∈ KEYWORD_PATTERNS
                    ∧ m ∈ match_keywords category content
                    ∧ word = Js.toLowerCase m)
     ∨ (word ∈ Js.split_ws (Js.toLowerCase content)
        ∧ (3 < String.length word)%nat
        ∧ isStopWord word = false
        ∧ all_letters word = true))
  ∧ (word ∈ Js.split_ws (Js.toLowerCase content) →
     Js.toLowerCase word = word
     ∧ (isStopWord word = false ↔ word ∉ stopWords)).
Proof.
  unfold extractKeywords. cbv zeta.
  destruct (Store.set_spread_spec
              (fold_left
                 (fun keywords category =>
                    keywords ++ map Js.toLowerCase (match_keywords category content))
                 KEYWORD_PATTERNS []
               ++ filter (fun word => all_letters word)
                    (filter (fun word => negb (isStopWord word))
                       (filter (fun word => (3 <? String.length word)%nat)
                          (Js.split_ws (Js.toLowerCase content)))))) as [Hnd Hel].
  split; [exact Hnd|]. split.
  - rewrite Hel, elem_of_app. unfold KEYWORD_PATTERNS. cbn [fold_left app].
    rewrite !elem_of_app, !list_elem_of_filter.
    split.
    + intros [Hm|(Hl & Hs & Hlen & Hin)].
      * left.
        destruct Hm as [[[Hm|Hm]|Hm]|Hm];
          apply (list_elem_of_fmap (A := string)) in Hm as [m [-> Hm]].
        -- exists "action", m. set_solver.
        -- exists "priority", m. set_solver.
        -- exists "status", m. set_solver.
        -- exists "quality", m. set_solver.
      * right. split; [done|]. split; [by apply Nat.ltb_lt, Is_true_true|].
        split; [by apply negb_true_iff, Is_true_true | by apply Is_true_true].
    + intros [(category & m & Hc & Hm & ->)|(Hin & Hlen & Hs & Hl)].
      * left. rewrite !elem_of_cons, elem_of_nil in Hc.
        destruct Hc as [->|[->|[->|[->|[]]]]];
          [left; left; left | left; left; right | left; right | right];
          by apply (list_elem_of_fmap_2 (A := string)).
      * right. split; [by apply Is_true_true|].
        split; [by apply Is_true_true, negb_true_iff|].
        split; [by apply Is_true_true, Nat.ltb_lt | done].
  - intros Hin.
    pose proof (Tokens.split_go_chars (fun c => Js.is_upper c = false)
                  (Js.toLowerCase content) EmptyString false
                  (lowered_chars content) (Forall_nil_2 _)) as Hall.
    rewrite Forall_forall in Hall.
    pose proof (Tokens.toLowerCase_lower word (Hall word Hin)) as Hlow.
    split; [exact Hlow|].
    unfold isStopWord, Js.arr_includes. rewrite Hlow.
    rewrite bool_decide_eq_false. done.
Qed.

End WithHost.
End Analysis.

(** ** The typed front ends of storeMemory *)
Module FrontEnds.
Section WithHost.
Context `{Host}.
Import MemoryManager Spec Notions StoreHelpers.

(** what a store that succeeds has made *)
Lemma storeMemory_returns ty text md imp now rnd (st : t) entry0 :
  (storeMemory ty text md imp now rnd st).2 = Ok entry0 →
  ∃ extracted,
    extractEntities text = Ok extracted
    ∧ entry0
      = stored ty text
          {| source := ContextAnalyzer.or_str (p_source md) "user-input";
             projectId := p_projectId md;
             sessionId := p_sessionId md;
             userId := p_userId md;
             fileReferences := ContextAnalyzer.or_nil (p_fileReferences md);
             codeReferences :=
               ContextAnalyzer.or_nil (p_codeReferences md) ++ extractCodeReferences text;
             entities := ContextAnalyzer.or_nil (p_entities md) ++ extracted;
             summary := generateSummary text;
             keywords :=
               Js.set_spread (ContextAnalyzer.or_nil (p_keywords md)
                              ++ ContextAnalyzer.extractKeywords text);
             confidence :=
               ContextAnalyzer.calculateConfidence text extracted
                 (ContextAnalyzer.extractKeywords text) |}
          imp now rnd st
    ∧ _index (storeMemory ty text md imp now rnd st).1
      = (updateIndex entry0 (_index st)).1.
Proof.
  intros Hok.
  destruct (ContextAnalyzer.analyzeContent text md) as [analyzed|e0] eqn:Han.
  - rewrite (Store.storeMemory_analyzed _ _ _ _ _ _ _ _ Han) in Hok |- *.
    destruct (backend_put _ _) as [sto [e1|]]; [done|].
    cbn [fst snd _index] in *. injection Hok as <-.
    unfold ContextAnalyzer.analyzeContent in Han.
    destruct (extractEntities text) as [extracted|e]; [|done].
    injection Han as <-. by exists extracted.
  - unfold storeMemory in Hok. by rewrite Han in Hok.
Qed.

Lemma elem_filter_Boolean (l : list (option string)) (w : string) :
  w ∈ filter_Boolean l ↔ w ≠ "" ∧ Some w ∈ l.
Proof.
  unfold filter_Boolean. rewrite list_elem_of_omap. split.
  - intros [[s|] [Hin Hs]]; [|done].
    destruct (String.eqb_spec s "") as [|Hne]; [done|]. by injection Hs as ->.
  - intros [Hne Hin]. exists (Some w). split; [done|].
    by destruct (String.eqb_spec w "").
Qed.

Lemma filed_project (memory : MemoryEntry) (index : MemoryIndex) (project : string) :
  projectId (metadata memory) = Some project → project ≠ "" →
  id memory ∈ bucket (byProject (updateIndex memory index).1) project.
Proof.
  intros Hp Hne.
  apply (IndexFacts.updateIndex_filed_entry memory index byProject project_keys).
  - unfold entry_indexes. set_solver.
  - unfold project_keys. rewrite Hp. cbn [truthy].
    destruct (String.eqb_spec project ""); [done | apply list_elem_of_here].
Qed.

Lemma filed_entity (memory : MemoryEntry) (index : MemoryIndex) (entity : ExtractedEntity) :
  entity ∈ entities (metadata memory) →
  id memory ∈ bucket (byEntity (updateIndex memory index).1) (entityKey entity).
Proof.
  intros Hin.
  apply (IndexFacts.updateIndex_filed_entry memory index byEntity entity_keys).
  - unfold entry_indexes. set_solver.
  - unfold entity_keys. by apply (list_elem_of_fmap_2 entityKey).
Qed.

(** X24: a conversation context that is stored becomes an entry of type
    conversation and importance 0.7 whose content is the role, a colon and
    the message; its metadata carry the source [chat], the chat as session
    and the project of the context, the paths of the file contexts, the
    entities of the context before the extracted ones, and the summary
    generated from the content, not the intent that was passed; the name of
    every entity of the context is one of its tags; and the entry is filed
    in the project index under a project id that is not empty. *)
Theorem storeConversationContext_spec (ctx : ConversationContext) now rnd (st : t)
    entry0 :
  (storeConversationContext ctx now rnd st).2 = Ok entry0 →
  let st' := (storeConversationContext ctx now rnd st).1 in
  type entry0 = conversation
  ∧ importance entry0 = 0.7%float
  ∧ content entry0 = cv_role ctx +:+ ": " +:+ cv_content ctx
  ∧ source (metadata entry0) = "chat"
  ∧ sessionId (metadata entry0) = Some (cv_chatId ctx)
  ∧ projectId (metadata entry0) = Some (cv_projectId ctx)
  ∧ fileReferences (metadata entry0) = map fc_path (cv_fileContext ctx)
  ∧ (∃ extracted, extractEntities (content entry0) = Ok extracted
                  ∧ entities (metadata entry0) = cv_entities ctx ++ extracted)
  ∧ summary (metadata entry0) = generateSummary (content entry0)
  ∧ (∀ e, e ∈ cv_entities ctx → entity_name e ∈ tags entry0)
  ∧ (cv_projectId ctx ≠ "" →
     id entry0 ∈ bucket (byProject (_index st')) (cv_projectId ctx)).
Proof.
  intros Hok st'. subst st'. unfold storeConversationContext in *. cbv zeta in *.
  destruct (storeMemory_returns _ _ _ _ _ _ _ _ Hok) as (extracted & Hex & Hentry & Hidx).
  rewrite Hidx. clear Hidx Hok. subst entry0.
  split; [reflexivity|]. split; [reflexivity|]. split; [reflexivity|].
  split; [reflexivity|]. split; [reflexivity|]. split; [reflexivity|].
  split; [reflexivity|].
  split; [exists extracted; split; [exact Hex | reflexivity]|].
  split; [reflexivity|]. split.
  - intros e He. cbn [stored set_relatedEntries newMemory tags keywords].
    apply Store.set_spread_spec. apply elem_of_app. left.
    cbn [conversationMetadata p_keywords ContextAnalyzer.or_nil default].
    by apply (list_elem_of_fmap_2 entity_name).
  - intros Hne. by apply filed_project.
Qed.

(** X25: a code analysis that is stored becomes an entry of type
    code-analysis and importance 0.8 with the source [code] and the file of
    the analysis as its one file reference.  Its entities are the functions
    and then the classes of the analysis, the classes too under the type
    [function], before the extracted ones.  Its tags are, without
    repetition, the language, the framework and the dependencies that are
    not empty, and the keywords extracted from the content.  The summary is
    generated from the content; the purpose passed as summary is dropped. *)
Theorem storeCodeAnalysis_spec (analysis : CodeContext) now rnd (st : t) entry0 :
  (storeCodeAnalysis analysis now rnd st).2 = Ok entry0 →
  let st' := (storeCodeAnalysis analysis now rnd st).1 in
  type entry0 = code_analysis
  ∧ importance entry0 = 0.8%float
  ∧ source (metadata entry0) = "code"
  ∧ fileReferences (metadata entry0) = [cc_filePath analysis]
  ∧ (∃ extracted, extractEntities (content entry0) = Ok extracted
                  ∧ entities (metadata entry0) = codeEntities analysis ++ extracted)
  ∧ (∀ c, c ∈ cc_classes analysis →
       ∃ e, e ∈ entities (metadata entry0)
            ∧ entity_type e = "function" ∧ entity_name e = cls_name c
            ∧ id entry0 ∈ bucket (byEntity (_index st')) ("function:" +:+ cls_name c))
  ∧ summary (metadata entry0) = generateSummary (content entry0)
  ∧ NoDup (tags entry0)
  ∧ (∀ w, w ∈ tags entry0 ↔
       (w ≠ "" ∧ (w = cc_language analysis ∨ cc_framework analysis = Some w
                  ∨ w ∈ cc_dependencies analysis))
       ∨ w ∈ ContextAnalyzer.extractKeywords (content entry0)).
Proof.
  intros Hok st'. subst st'. unfold storeCodeAnalysis in *. cbv zeta in *.
  destruct (storeMemory_returns _ _ _ _ _ _ _ _ Hok) as (extracted & Hex & Hentry & Hidx).
  rewrite Hidx. clear Hidx Hok. subst entry0.
  split; [reflexivity|]. split; [reflexivity|]. split; [reflexivity|].
  split; [reflexivity|].
  split; [exists extracted; split; [exact Hex | reflexivity]|].
  split.
  { intros c Hc.
    set (e := {| entity_type := "function"; entity_name := cls_name c;
                 entity_context := cls_purpose c; entity_confidence := 0.9%float |}).
    assert (He : e ∈ codeEntities analysis).
    { unfold codeEntities. apply elem_of_app. right.
      apply (list_elem_of_fmap (A := ClassInfo)). by exists c. }
    exists e. split; [|split; [reflexivity|split; [reflexivity|]]].
    - cbn [stored set_relatedEntries newMemory metadata entities codeMetadata p_entities
             ContextAnalyzer.or_nil default]. apply elem_of_app. by left.
    - apply (filed_entity _ _ e).
      cbn [stored set_relatedEntries newMemory metadata entities codeMetadata p_entities
             ContextAnalyzer.or_nil default]. apply elem_of_app. by left. }
  split; [reflexivity|].
  cbn [stored set_relatedEntries newMemory tags keywords content].
  split; [apply Store.set_spread_spec|].
  intros w. rewrite (proj2 (Store.set_spread_spec _) w), elem_of_app.
  change (ContextAnalyzer.or_nil (p_keywords (codeMetadata analysis)))
    with (filter_Boolean
            (Some (cc_language analysis) :: cc_framework analysis
             :: map Some (cc_dependencies analysis))).
  rewrite elem_filter_Boolean, !elem_of_cons.
  assert (Hdep : Some w ∈ map Some (cc_dependencies analysis)
                 ↔ w ∈ cc_dependencies analysis).
  { split.
    - intros Hin. apply (list_elem_of_fmap (A := string)) in Hin as [d [[= ->] Hd]]. done.
    - apply (list_elem_of_fmap_2 Some). }
  rewrite Hdep. naive_solver.
Qed.

Lemma split_space_last (s cur : string) : split_space s cur ≠ [].
Proof. revert cur. induction s as [|c s IH]; intros cur; cbn; [done|]. by destruct (Ascii.eqb c " "). Qed.

(** X26: a research context that is stored becomes an entry of type
    research whose importance is the confidence of the research, while the
    confidence in its metadata is the one computed from the content.  Each
    finding gives an entity of type [concept] named by the type of the
    finding, under which the entry is filed in the entity index.  The
    pieces of the domain between single spaces are tags of the entry; an
    empty domain has one piece, the empty string, which becomes a tag. *)
Theorem storeResearch_spec (rc : ResearchContext) now rnd (st : t) entry0 :
  (storeResearch rc now rnd st).2 = Ok entry0 →
  let st' := (storeResearch rc now rnd st).1 in
  type entry0 = research
  ∧ importance entry0 = rc_confidence rc
  ∧ source (metadata entry0) = "research"
  ∧ (∃ extracted,
       extractEntities (content entry0) = Ok extracted
       ∧ confidence (metadata entry0)
         = ContextAnalyzer.calculateConfidence (content entry0) extracted
             (ContextAnalyzer.extractKeywords (content entry0)))
  ∧ (∀ f, f ∈ rc_findings rc →
       ∃ e, e ∈ entities (metadata entry0)
            ∧ entity_type e = "concept" ∧ entity_name e = rf_type f
            ∧ id entry0 ∈ bucket (byEntity (_index st')) ("concept:" +:+ rf_type f))
  ∧ (∀ piece, piece ∈ split_space (rc_domain rc) "" → piece ∈ tags entry0)
  ∧ (rc_domain rc = "" → "" ∈ tags entry0).
Proof.
  intros Hok st'. subst st'. unfold storeResearch in *. cbv zeta in *.
  destruct (storeMemory_returns _ _ _ _ _ _ _ _ Hok) as (extracted & Hex & Hentry & Hidx).
  rewrite Hidx. clear Hidx Hok. subst entry0.
  split; [reflexivity|]. split; [reflexivity|]. split; [reflexivity|].
  split; [exists extracted; split; [exact Hex | reflexivity]|].
  assert (Htags : ∀ piece, piece ∈ split_space (rc_domain rc) "" →
            piece ∈ Js.set_spread
                      (split_space (rc_domain rc) ""
                       ++ ContextAnalyzer.extractKeywords
                            ("Research: " +:+ rc_query rc +:+ LF +:+ LF +:+ "Findings:"
                             +:+ LF +:+ join LF (map rf_content (rc_findings rc))))).
  { intros piece Hp. apply Store.set_spread_spec. apply elem_of_app. by left. }
  split.
  { intros f Hf.
    set (e := {| entity_type := "concept"; entity_name := rf_type f;
                 entity_context := rf_content f;
                 entity_confidence := rf_confidence f |}).
    assert (He : e ∈ map (fun f => {| entity_type := "concept"; entity_name := rf_type f;
                                      entity_context := rf_content f;
                                      entity_confidence := rf_confidence f |})
                       (rc_findings rc)).
    { apply (list_elem_of_fmap (A := ResearchFinding)). by exists f. }
    exists e. split; [|split; [reflexivity|split; [reflexivity|]]].
    - cbn [stored set_relatedEntries newMemory metadata entities researchMetadata
             p_entities ContextAnalyzer.or_nil default]. apply elem_of_app. by left.
    - apply (filed_entity _ _ e).
      cbn [stored set_relatedEntries newMemory metadata entities researchMetadata
             p_entities ContextAnalyzer.or_nil default]. apply elem_of_app. by left. }
  split; [exact Htags|].
  intros Hdom. apply Htags. rewrite Hdom. apply list_elem_of_here.
Qed.

End WithHost.

Import StoreHelpers.

(** a message about React in chat [c1] of project [p1], stored in the
    fresh manager *)
Lemma storeConversationContext_spec_witness :
  let ctx :=
    {| cv_chatId := "c1"; cv_role := "user"; cv_content := "use hooks";
       cv_intent := "ask"; cv_entities := [Sample.ent "technology" "React"];
       cv_codeContext := []; cv_fileContext := []; cv_projectId := "p1" |} in
  let r := storeConversationContext (H := Sample.host) ctx (instant 3) "q" Sample.fresh in
  ∃ entry0,
    r.2 = Ok entry0
    ∧ "React" ∈ tags entry0
    ∧ id entry0 ∈ Notions.bucket (byProject (MemoryManager._index r.1)) "p1".
Proof.
  intros ctx r.
  destruct r.2 as [entry0|e] eqn:Hres; [|vm_compute in Hres; discriminate].
  exists entry0. split; [done|].
  destruct (storeConversationContext_spec (H := Sample.host) ctx (instant 3) "q" Sample.fresh
              entry0 Hres) as (_ & _ & _ & _ & _ & _ & _ & _ & _ & Htags & Hproj).
  split.
  - apply (Htags (Sample.ent "technology" "React")). apply list_elem_of_here.
  - apply Hproj. discriminate.
Defined.

(** the analysis of a file with one class and an empty dependency *)
Lemma storeCodeAnalysis_spec_witness :
  let analysis :=
    {| cc_filePath := "src/a.ts"; cc_language := "typescript"; cc_framework := None;
       cc_purpose := "parser"; cc_dependencies := [""; "zod"];
       cc_functions := [];
       cc_classes := [{| cls_name := "Parser"; cls_purpose := "parses" |}] |} in
  let r := storeCodeAnalysis (H := Sample.host) analysis (instant 3) "q" Sample.fresh in
  ∃ entry0,
    r.2 = Ok entry0
    ∧ "zod" ∈ tags entry0
    ∧ id entry0 ∈ Notions.bucket (byEntity (MemoryManager._index r.1)) "function:Parser".
Proof.
  intros analysis r.
  destruct r.2 as [entry0|e] eqn:Hres; [|vm_compute in Hres; discriminate].
  exists entry0. split; [done|].
  destruct (storeCodeAnalysis_spec (H := Sample.host) analysis (instant 3) "q" Sample.fresh
              entry0 Hres) as (_ & _ & _ & _ & _ & Hcls & _ & _ & Htags).
  split.
  - apply Htags. left. split; [discriminate|]. right. right.
    cbn. apply list_elem_of_further, list_elem_of_here.
  - destruct (Hcls {| cls_name := "Parser"; cls_purpose := "parses" |})
      as (e & _ & _ & _ & Hfiled); [apply list_elem_of_here | exact Hfiled].
Defined.

(** a research without domain *)
Lemma storeResearch_spec_witness :
  let rc :=
    {| rc_query := "caching"; rc_domain := "";
       rc_findings := [{| rf_type := "fact"; rf_content := "caches help";
                          rf_confidence := 0.5%float |}];
       rc_synthesis := "use one"; rc_confidence := 0.9%float |} in
  let r := storeResearch (H := Sample.host) rc (instant 3) "q" Sample.fresh in
  ∃ entry0,
    r.2 = Ok entry0
    ∧ importance entry0 = 0.9%float
    ∧ "" ∈ tags entry0.
Proof.
  intros rc r.
  destruct r.2 as [entry0|e] eqn:Hres; [|vm_compute in Hres; discriminate].
  exists entry0. split; [done|].
  destruct (storeResearch_spec (H := Sample.host) rc (instant 3) "q" Sample.fresh
              entry0 Hres) as (_ & Himp & _ & _ & _ & _ & Hempty).
  split; [exact Himp | by apply Hempty].
Defined.

End FrontEnds.

(** ** Persistence over localStorage *)
Module Persistence.
Section WithBrowser.
Context `{LocalStorage.Browser}.
Import LocalStorage StorageNotions.

Lemma memoryKey_ne_index (memoryId : string) : memoryKey memoryId ≠ indexKey.
Proof. unfold memoryKey, indexKey, MEM_FOLDER. simpl. discriminate. Qed.

Lemma memoryKey_inj (i j : string) : memoryKey i = memoryKey j → i = j.
Proof. unfold memoryKey, MEM_FOLDER. simpl. intros Heq. by injection Heq. Qed.

Lemma getMemoryIndex_insert_ne (ls : gmap string string) (k v : string) :
  k ≠ indexKey → getMemoryIndex (<[k := v]> ls) = getMemoryIndex ls.
Proof. intros Hne. unfold getMemoryIndex. by rewrite lookup_insert_ne. Qed.

Lemma getMemoryIndex_delete_ne (ls : gmap string string) (k : string) :
  k ≠ indexKey → getMemoryIndex (delete k ls) = getMemoryIndex ls.
Proof. intros Hne. unfold getMemoryIndex. by rewrite lookup_delete_ne. Qed.

Lemma getMemoryIndex_written (ls : gmap string string) (memoryIndex : list string) :
  index_round_trip memoryIndex →
  getMemoryIndex (<[indexKey := stringify_ids memoryIndex]> ls) = memoryIndex.
Proof.
  intros [Hne Hparse]. unfold getMemoryIndex. rewrite lookup_insert_eq.
  cbn [truthy_item]. destruct (String.eqb_spec (stringify_ids memoryIndex) "");
    [done | by rewrite Hparse].
Qed.

Lemma setItem_inv (k v : string) (ls : gmap string string) :
  (∃ ls', setItem k v ls = Ok ls' ∧ ls' = <[k := v]> ls)
  ∨ setItem k v ls = Throw "QuotaExceededError".
Proof. unfold setItem. destruct (fits _); [left; by eexists | by right]. Qed.

(** the four ways [saveMemoryToLocalStorage] can go *)
Lemma save_cases (memory : MemoryEntry) (ls : gmap string string) :
  let old := getMemoryIndex ls in
  let ls1 := <[memoryKey (id memory) := stringify_memory memory]> ls in
  saveMemoryToLocalStorage memory ls = (ls, Throw "QuotaExceededError")
  ∨ (id memory ∈ old ∧ saveMemoryToLocalStorage memory ls = (ls1, Ok tt))
  ∨ ((id memory ∉ old)
     ∧ saveMemoryToLocalStorage memory ls = (ls1, Throw "QuotaExceededError"))
  ∨ ((id memory ∉ old)
     ∧ saveMemoryToLocalStorage memory ls
       = (<[indexKey := stringify_ids (old ++ [id memory])]> ls1, Ok tt)).
Proof.
  intros old ls1. unfold saveMemoryToLocalStorage.
  destruct (setItem_inv (memoryKey (id memory)) (stringify_memory memory) ls)
    as [(ls1' & -> & Hls1)| ->]; [|by left].
  fold ls1 in Hls1. subst ls1'. right. cbv zeta.
  assert (Hidx1 : getMemoryIndex ls1 = old).
  { apply getMemoryIndex_insert_ne, memoryKey_ne_index. }
  rewrite Hidx1. unfold Js.arr_includes.
  destruct (bool_decide_reflect (id memory ∈ old)) as [Hin|Hnot]; [by left|].
  right.
  destruct (setItem_inv indexKey (stringify_ids (old ++ [id memory])) ls1)
    as [(ls2 & -> & ->)| ->]; [by right | by left].
Qed.

(** X27: what [saveMemoryToLocalStorage] leaves behind.  When it
    completes, the item of the entry holds its serialisation, the index
    lists the id once more only if it did not list it (given that the new
    index can be written and read back), and no other item has changed.
    When it fails, the error is that of the quota, the index is as before,
    and either nothing has changed or the item alone was written, for an id
    the index does not list. *)
Theorem save_localStorage (memory : MemoryEntry) (ls : gmap string string) :
  let ls' := (saveMemoryToLocalStorage memory ls).1 in
  let old := getMemoryIndex ls in
  ((saveMemoryToLocalStorage memory ls).2 = Ok tt →
   ls' !! memoryKey (id memory) = Some (stringify_memory memory)
   ∧ (∀ k, k ≠ memoryKey (id memory) → k ≠ indexKey → ls' !! k = ls !! k)
   ∧ (id memory ∈ old → getMemoryIndex ls' = old)
   ∧ ((id memory ∉ old) → index_round_trip (old ++ [id memory]) →
      getMemoryIndex ls' = old ++ [id memory]))
  ∧ (∀ error, (saveMemoryToLocalStorage memory ls).2 = Throw error →
       error = "QuotaExceededError"
       ∧ getMemoryIndex ls' = old
       ∧ (ls' = ls
          ∨ (ls' = <[memoryKey (id memory) := stringify_memory memory]> ls
             ∧ (id memory ∉ old)))).
Proof.
  intros ls' old. subst ls'.
  pose proof (memoryKey_ne_index (id memory)) as Hkey.
  destruct (save_cases memory ls) as [->|[[Hin ->]|[[Hnot ->]|[Hnot ->]]]];
    fold old in Hin || fold old in Hnot || idtac; cbn [fst snd].
  - split; [done|]. intros error [= <-]. split; [done|]. split; [done | by left].
  - split; [|done]. intros _. split; [apply lookup_insert_eq|].
    split; [intros k Hk _; by rewrite lookup_insert_ne|].
    split; [intros _; by apply getMemoryIndex_insert_ne | done].
  - split; [done|]. intros error [= <-]. split; [done|].
    split; [by apply getMemoryIndex_insert_ne | right; by split].
  - split; [|done]. intros _. split.
    { rewrite lookup_insert_ne by done. apply lookup_insert_eq. }
    split; [intros k Hk Hi; by rewrite !lookup_insert_ne|].
    split; [done|]. intros _ Hrt. by apply getMemoryIndex_written.
Qed.

Lemma load_loop_ok (memoryIndex : list string) (ls : gmap string string)
    (memories : list MemoryEntry) :
  (∀ i, i ∈ memoryIndex → ¬ corrupt ls i) →
  load_loop memoryIndex ls memories = Ok (memories ++ omap (held ls) memoryIndex).
Proof.
  revert memories. induction memoryIndex as [|i l IH]; intros memories Hok.
  - cbn. by rewrite app_nil_r.
  - cbn [load_loop omap list_omap].
    assert (Hl : ∀ j, j ∈ l → ¬ corrupt ls j)
      by (intros j Hj; by apply Hok, list_elem_of_further).
    destruct (truthy_item (ls !! memoryKey i)) as [data|] eqn:Hitem.
    + destruct (parse_memory data) as [m|e] eqn:Hparse.
      * assert (Hheld : held ls i = Some m) by (unfold held; by rewrite Hitem, Hparse).
        rewrite Hheld, IH by done. by rewrite <- app_assoc.
      * exfalso. apply (Hok i); [apply list_elem_of_here|]. by exists data, e.
    + assert (Hheld : held ls i = None) by (unfold held; by rewrite Hitem).
      rewrite Hheld. by apply IH.
Qed.

Lemma load_loop_corrupt (memoryIndex : list string) (ls : gmap string string)
    (memories : list MemoryEntry) (i : string) :
  i ∈ memoryIndex → corrupt ls i →
  ∃ error, load_loop memoryIndex ls memories = Throw error.
Proof.
  revert memories. induction memoryIndex as [|j l IH]; intros memories Hin Hc.
  - by apply elem_of_nil in Hin.
  - cbn [load_loop].
    destruct (decide (j = i)) as [->|Hne].
    + destruct Hc as (data & e & -> & ->). by exists e.
    + apply elem_of_cons in Hin as [->|Hin]; [done|].
      destruct (truthy_item (ls !! memoryKey j)) as [data|]; [|by apply IH].
      destruct (parse_memory data) as [m|e]; [by apply IH | by exists e].
Qed.

(** X28: what [loadMemoriesFromLocalStorage] returns.  When no indexed
    item is corrupt, it returns the entries held for the ids of the index,
    in the order of the index, skipping the ids whose item is missing or
    empty.  When one indexed item cannot be parsed it returns nothing at
    all, and so it does when the index itself is missing, empty or cannot
    be parsed.  It never returns more entries than the index has ids. *)
Theorem load_localStorage (ls : gmap string string) :
  ((∀ i, i ∈ getMemoryIndex ls → ¬ corrupt ls i) →
   loadMemoriesFromLocalStorage ls = omap (held ls) (getMemoryIndex ls))
  ∧ (∀ i, i ∈ getMemoryIndex ls → corrupt ls i → loadMemoriesFromLocalStorage ls = [])
  ∧ (truthy_item (ls !! indexKey) = None → loadMemoriesFromLocalStorage ls = [])
  ∧ (∀ indexData error, ls !! indexKey = Some indexData →
       parse_ids indexData = Throw error → loadMemoriesFromLocalStorage ls = [])
  ∧ (length (loadMemoriesFromLocalStorage ls) ≤ length (getMemoryIndex ls))%nat.
Proof.
  assert (Hempty : getMemoryIndex ls = [] → loadMemoriesFromLocalStorage ls = []).
  { intros Hidx. unfold loadMemoriesFromLocalStorage. by rewrite Hidx. }
  split; [|split; [|split; [|split]]].
  - intros Hok. unfold loadMemoriesFromLocalStorage. by rewrite load_loop_ok.
  - intros i Hin Hc. unfold loadMemoriesFromLocalStorage.
    by destruct (load_loop_corrupt _ ls [] i Hin Hc) as [e ->].
  - intros Hnone. apply Hempty. unfold getMemoryIndex. by rewrite Hnone.
  - intros indexData error Hitem Hparse. apply Hempty. unfold getMemoryIndex.
    rewrite Hitem. cbn [truthy_item].
    destruct (String.eqb indexData ""); [done | by rewrite Hparse].
  - unfold loadMemoriesFromLocalStorage.
    assert (Hlen : ∀ l memories ms, load_loop l ls memories = Ok ms →
              (length ms ≤ length memories + length l)%nat).
    { induction l as [|i l IH]; intros memories ms; cbn [load_loop length].
      - intros [= <-]. lia.
      - destruct (truthy_item (ls !! memoryKey i)) as [data|].
        + destruct (parse_memory data) as [m|e]; [|done].
          intros Hl. apply IH in Hl. rewrite length_app in Hl. cbn in Hl. lia.
        + intros Hl. apply IH in Hl. lia. }
    destruct (load_loop (getMemoryIndex ls) ls []) as [ms|e] eqn:Hl; [|cbn; lia].
    apply Hlen in Hl. cbn in Hl. lia.
Qed.

(** X29: the round trip of an entry through the storage.  After a save
    that completes, where the entry and the new index can be written and
    read back and no other indexed item is corrupt, a load returns the
    entry, at the place of its id in the index, and for every other id what
    the storage held for it before; the index lists the id once more only
    if it did not list it. *)
Theorem save_then_load (memory : MemoryEntry) (ls : gmap string string) :
  (saveMemoryToLocalStorage memory ls).2 = Ok tt →
  stringify_memory memory ≠ "" →
  parse_memory (stringify_memory memory) = Ok memory →
  index_round_trip (getMemoryIndex ls ++ [id memory]) →
  (∀ i, i ∈ getMemoryIndex ls → i ≠ id memory → ¬ corrupt ls i) →
  let ls' := (saveMemoryToLocalStorage memory ls).1 in
  let new := if decide (id memory ∈ getMemoryIndex ls)
             then getMemoryIndex ls else getMemoryIndex ls ++ [id memory] in
  getMemoryIndex ls' = new
  ∧ loadMemoriesFromLocalStorage ls'
    = omap (fun i => if decide (i = id memory) then Some memory else held ls i) new
  ∧ memory ∈ loadMemoriesFromLocalStorage ls'.
Proof.
  intros Hok Hne Hparse Hrt Hsound ls' new.
  pose proof (memoryKey_ne_index (id memory)) as Hkey.
  assert (Hparts : getMemoryIndex ls' = new
                   ∧ ls' !! memoryKey (id memory) = Some (stringify_memory memory)
                   ∧ ∀ i, i ≠ id memory → ls' !! memoryKey i = ls !! memoryKey i).
  { subst ls' new.
    destruct (save_cases memory ls) as [Hc|[[Hin Hc]|[[Hnot Hc]|[Hnot Hc]]]];
      rewrite Hc in Hok |- *; cbn [fst snd] in *; try done.
    - rewrite decide_True by done.
      split; [by apply getMemoryIndex_insert_ne|].
      split; [apply lookup_insert_eq|].
      intros i Hi. rewrite lookup_insert_ne; [done|].
      intros Heq. by apply Hi, memoryKey_inj.
    - rewrite decide_False by done.
      split; [by apply getMemoryIndex_written|].
      split; [rewrite lookup_insert_ne by done; apply lookup_insert_eq|].
      intros i Hi. rewrite lookup_insert_ne by (apply not_eq_sym, memoryKey_ne_index).
      rewrite lookup_insert_ne; [done|].
      intros Heq. by apply Hi, memoryKey_inj. }
  destruct Hparts as (Hidx & Hitem & Hframe).
  assert (Hheld : ∀ i, held ls' i = if decide (i = id memory) then Some memory
                                    else held ls i).
  { intros i. unfold held. destruct (decide (i = id memory)) as [->|Hi].
    - rewrite Hitem. cbn [truthy_item].
      destruct (String.eqb_spec (stringify_memory memory) ""); [done|].
      by rewrite Hparse.
    - by rewrite Hframe. }
  assert (Hsound' : ∀ i, i ∈ new → ¬ corrupt ls' i).
  { intros i Hi (data & e & Hd & He).
    destruct (decide (i = id memory)) as [->|Hne'].
    - rewrite Hitem in Hd. cbn [truthy_item] in Hd.
      destruct (String.eqb_spec (stringify_memory memory) ""); [done|].
      injection Hd as <-. congruence.
    - apply (Hsound i).
      + subst new. destruct (decide (id memory ∈ getMemoryIndex ls)); [done|].
        apply elem_of_app in Hi as [Hi|Hi]; [done|].
        by apply list_elem_of_singleton in Hi.
      + done.
      + exists data, e. by rewrite <- Hframe. }
  assert (Hload : loadMemoriesFromLocalStorage ls'
                  = omap (fun i => if decide (i = id memory) then Some memory
                                   else held ls i) new).
  { unfold loadMemoriesFromLocalStorage. rewrite Hidx, load_loop_ok by done.
    cbn [app]. clear -Hheld. induction new as [|i l IH]; [done|].
    cbn [omap list_omap]. by rewrite Hheld, IH. }
  split; [exact Hidx|]. split; [exact Hload|].
  rewrite Hload. apply list_elem_of_omap. exists (id memory).
  split; [|by rewrite decide_True].
  subst new. destruct (decide (id memory ∈ getMemoryIndex ls)); [done|].
  apply elem_of_app. right. apply list_elem_of_here.
Qed.

(** X30: what [deleteMemoryFromLocalStorage] leaves behind.  The item of
    the id is removed whether the call completes or not, and no item of
    another entry changes.  When the call completes, the index that was
    written is the old one without the id; when the write of the index
    fails, the error is that of the quota and the index is as before, so
    it may still list the id, which a later load skips. *)
Theorem delete_localStorage (memoryId : string) (ls : gmap string string) :
  let ls' := (deleteMemoryFromLocalStorage memoryId ls).1 in
  let updated := filter (fun i => i ≠ memoryId) (getMemoryIndex ls) in
  ls' !! memoryKey memoryId = None
  ∧ held ls' memoryId = None
  ∧ (∀ i, i ≠ memoryId → ls' !! memoryKey i = ls !! memoryKey i)
  ∧ ((deleteMemoryFromLocalStorage memoryId ls).2 = Ok tt →
     ls' !! indexKey = Some (stringify_ids updated)
     ∧ (index_round_trip updated →
        getMemoryIndex ls' = updated ∧ (memoryId ∉ getMemoryIndex ls')))
  ∧ (∀ error, (deleteMemoryFromLocalStorage memoryId ls).2 = Throw error →
       error = "QuotaExceededError"
       ∧ ls' = delete (memoryKey memoryId) ls
       ∧ getMemoryIndex ls' = getMemoryIndex ls).
Proof.
  intros ls' updated. subst ls'. unfold deleteMemoryFromLocalStorage. cbv zeta.
  pose proof (memoryKey_ne_index memoryId) as Hkey.
  rewrite (getMemoryIndex_delete_ne ls _ Hkey). fold updated.
  assert (Hother : ∀ i, i ≠ memoryId →
            delete (memoryKey memoryId) ls !! memoryKey i = ls !! memoryKey i).
  { intros i Hi. rewrite lookup_delete_ne; [done|].
    intros Heq. by apply Hi, eq_sym, memoryKey_inj. }
  destruct (setItem_inv indexKey (stringify_ids updated) (delete (memoryKey memoryId) ls))
    as [(ls2 & -> & ->)| ->]; cbn [fst snd].
  - assert (Hgone : <[indexKey := stringify_ids updated]> (delete (memoryKey memoryId) ls)
                    !! memoryKey memoryId = None).
    { rewrite lookup_insert_ne by done. apply lookup_delete_eq. }
    split; [exact Hgone|]. split; [unfold held; by rewrite Hgone|].
    split.
    { intros i Hi. rewrite lookup_insert_ne by (apply not_eq_sym, memoryKey_ne_index).
      by apply Hother. }
    split; [|done]. intros _. split; [apply lookup_insert_eq|].
    intros Hrt. rewrite (getMemoryIndex_written _ _ Hrt). split; [done|].
    subst updated. rewrite list_elem_of_filter. naive_solver.
  - split; [apply lookup_delete_eq|].
    split; [unfold held; by rewrite lookup_delete_eq|].
    split; [exact Hother|]. split; [done|].
    intros error [= <-]. split; [done|]. split; [done|].
    by apply getMemoryIndex_delete_ne.
Qed.

End WithBrowser.

(** an entry saved into the empty storage of the sample browser and loaded *)
Lemma save_then_load_witness :
  let memory := Sample.mk "m1" pattern "" 0.5%float 0 0 [] in
  let ls' :=
    (LocalStorage.saveMemoryToLocalStorage (H := LocalStorage.sample) memory ∅).1 in
  LocalStorage.loadMemoriesFromLocalStorage (H := LocalStorage.sample) ls' = [memory].
Proof.
  intros memory ls'.
  destruct (save_then_load (H := LocalStorage.sample) memory ∅)
    as (_ & Hload & _).
  - vm_compute. reflexivity.
  - discriminate.
  - vm_compute. reflexivity.
  - split; [discriminate | vm_compute; reflexivity].
  - intros i Hi. vm_compute in Hi. by apply elem_of_nil in Hi.
  - fold ls' in Hload. rewrite Hload. vm_compute. reflexivity.
Defined.

End Persistence.
